(** * ConditionalGraph: a stateful graph engine and its flow queries

    Shallow embedding of [abstractions.py] (EdgeSet, GenericStatefulGraph)
    and of the [Segment] class of [flow_pathing_example.py], followed by the
    properties of the engine that the specification states.

    Modelling conventions.
    - Python objects live in a heap: [heap w] is the list of all [Segment]
      objects ever constructed and an object reference is its index.  Sets of
      nodes hash by identity in Python, so they are sets of indices here.
    - The two class attributes ([GenericStatefulGraph.state_cache] and
      [Segment._nodes]) are fields of the world, not of a node.
    - Python floats are read as exact rationals ([Q]); [float('-Inf')] is a
      separate constructor where the source uses it.
    - Iterating a Python [set] has no specified order; [elements] fixes one.
    - Exceptions are the [Raise] outcome.  [Stuck] is reserved for what the
      Python program cannot do: follow a reference to an object that was
      never constructed, or exhaust the recursion budget of [_traverse]. *)

From Stdlib Require Import QArith Lqa.
Close Scope Q_scope.
From stdpp Require Import gmap strings list fin_maps.

(** ** Outcomes: the error monad of the queries *)

Inductive exn := KeyError | LookupError | RuntimeError | TimeoutError | TypeError.

Inductive outcome (A : Type) :=
| Return (a : A)
| Raise (e : exn)
| Stuck.
Arguments Return {A} a.
Arguments Raise {A} e.
Arguments Stuck {A}.

#[global] Instance exn_eq_dec : EqDecision exn.
Proof. solve_decision. Defined.

#[global] Instance outcome_ret : MRet outcome := @Return.
#[global] Instance outcome_bind : MBind outcome := λ A B f c,
  match c with
  | Return a => f a
  | Raise e => Raise e
  | Stuck => Stuck
  end.

(** [for x in l: acc += f(x)] for a body that may raise. *)
Fixpoint collect {A B} (f : A → outcome (list B)) (l : list A) : outcome (list B) :=
  match l with
  | [] => Return []
  | x :: l' => r ← f x; rs ← collect f l'; Return (r ++ rs)
  end.

(** [[f(x) for x in l]] for an [f] that may raise. *)
Fixpoint for_each {A B} (f : A → outcome B) (l : list A) : outcome (list B) :=
  match l with
  | [] => Return []
  | x :: l' => r ← f x; rs ← for_each f l'; Return (r :: rs)
  end.

(** ** abstractions.py *)

Definition CONSISTENT : string := "consistent".

Inductive Direction := DOWN | UP | BOTH.

Definition Direction_value (d : Direction) : Z :=
  match d with DOWN => -1 | UP => 1 | BOTH => 0 end.

Record EdgeSet := mkEdgeSet {
  children : gset nat;
  parents : gset nat
}.

Definition EdgeSet_init : EdgeSet := mkEdgeSet ∅ ∅.

Definition EdgeSet_add (self other : EdgeSet) : EdgeSet :=
  mkEdgeSet (children self ∪ children other) (parents self ∪ parents other).

(** [sum(items, start=start)] on EdgeSets. *)
Definition EdgeSet_sum (items : list EdgeSet) (start : EdgeSet) : EdgeSet :=
  foldl EdgeSet_add start items.

Record Volume := mkVolume {
  name : string;
  volume : Q;
  _flow_rate : Q
}.

(** A [Segment] object: the payload and the two instance attributes of
    [GenericStatefulGraph]. *)
Record Segment := mkSegment {
  data : Volume;
  _state_ids : gset string;
  _connections : gmap string EdgeSet
}.

Record World := mkWorld {
  heap : list Segment;
  state_cache : gmap string string;
  _nodes : gmap string nat
}.

Definition empty_world : World := mkWorld [] ∅ ∅.

Definition deref (w : World) (self : nat) : outcome Segment :=
  match heap w !! self with
  | Some s => Return s
  | None => Stuck
  end.

Definition with_heap (w : World) (h : list Segment) : World :=
  mkWorld h (state_cache w) (_nodes w).

(** [Segment(name, volume)]: a new object, registered nowhere. *)
Definition Segment_init (w : World) (nm : string) (vol : Q) : nat * World :=
  (length (heap w),
   with_heap w (heap w ++
     [mkSegment (mkVolume nm vol 0%Q) ∅ {[ CONSISTENT := EdgeSet_init ]}])).

Definition set_state (w : World) (component_state_id state : string) : World :=
  mkWorld (heap w) (<[component_state_id := state]> (state_cache w)) (_nodes w).

(** [d.setdefault(k, v)] *)
Definition setdefault `{Countable K} {V} (k : K) (v : V) (m : gmap K V) : gmap K V :=
  match m !! k with
  | Some _ => m
  | None => <[k := v]> m
  end.

Definition add_to_children (child : nat) (e : EdgeSet) : EdgeSet :=
  mkEdgeSet (children e ∪ {[child]}) (parents e).

Definition add_to_parents (parent : nat) (e : EdgeSet) : EdgeSet :=
  mkEdgeSet (children e) (parents e ∪ {[parent]}).

(** The part of [_add_child] / [_add_parent] that acts on [self]:
    [edit] is [children.add(child)] or [parents.add(parent)]. *)
Definition wire (edit : EdgeSet → EdgeSet)
    (component_state_id : option string) (state_name : string) (s : Segment) : Segment :=
  mkSegment (data s)
    (match component_state_id with
     | Some g => _state_ids s ∪ {[g]}
     | None => _state_ids s
     end)
    (alter edit state_name (setdefault state_name EdgeSet_init (_connections s))).

Definition register_state (component_state_id : option string) (state_name : string)
    (cache : gmap string string) : gmap string string :=
  match component_state_id with
  | Some g => setdefault g state_name cache
  | None => cache
  end.

(** [GenericStatefulGraph._add_child] *)
Definition Generic_add_child (w : World) (self child : nat)
    (component_state_id : option string) (state_name : string) : World :=
  mkWorld
    (alter (wire (add_to_children child) component_state_id state_name) self (heap w))
    (register_state component_state_id state_name (state_cache w))
    (_nodes w).

(** [GenericStatefulGraph._add_parent] *)
Definition Generic_add_parent (w : World) (self parent : nat)
    (component_state_id : option string) (state_name : string) : World :=
  mkWorld
    (alter (wire (add_to_parents parent) component_state_id state_name) self (heap w))
    (register_state component_state_id state_name (state_cache w))
    (_nodes w).

(** [self._nodes.setdefault(other.name, other)] *)
Definition register_node (w : World) (other : nat) : World :=
  match heap w !! other with
  | Some s => mkWorld (heap w) (state_cache w) (setdefault (name (data s)) other (_nodes w))
  | None => w
  end.

(** [Segment._add_child] *)
Definition _add_child (w : World) (self child : nat)
    (component_state_id : option string) (state_name : string) : World :=
  register_node (Generic_add_child w self child component_state_id state_name) child.

(** [Segment._add_parent] *)
Definition _add_parent (w : World) (self parent : nat)
    (component_state_id : option string) (state_name : string) : World :=
  register_node (Generic_add_parent w self parent component_state_id state_name) parent.

Definition connect_one (w : World) (self target : nat)
    (for_state : option string * string) (direction : Direction) : World :=
  let w1 :=
    if (Direction_value direction <=? 0)%Z then
      _add_parent (_add_child w self target for_state.1 for_state.2)
                  target self for_state.1 for_state.2
    else w in
  if (Direction_value direction >=? 0)%Z then
    _add_child (_add_parent w1 self target for_state.1 for_state.2)
               target self for_state.1 for_state.2
  else w1.

(** [self.connect(targets..., for_state, direction)] *)
Definition connect (w : World) (self : nat) (targets : list nat)
    (for_state : option (option string * string)) (direction : Direction) : World :=
  let for_state := default (None, CONSISTENT) for_state in
  foldl (λ w target, connect_one w self target for_state direction) w targets.

(** [state_cache[state_id]], then [_connections.get(..., EdgeSet())] *)
Definition active_bucket (w : World) (s : Segment) (state_id : string) : outcome EdgeSet :=
  match state_cache w !! state_id with
  | Some st => Return (default EdgeSet_init (_connections s !! st))
  | None => Raise KeyError
  end.

Definition connections_of (w : World) (s : Segment) (ignore_state : bool) : outcome EdgeSet :=
  if ignore_state then
    Return (EdgeSet_sum (map_to_list (_connections s)).*2 EdgeSet_init)
  else
    buckets ← for_each (active_bucket w s) (elements (_state_ids s));
    match _connections s !! CONSISTENT with
    | Some start => Return (EdgeSet_sum buckets start)
    | None => Raise KeyError
    end.

(** [self.connections(ignore_state)] *)
Definition connections (w : World) (self : nat) (ignore_state : bool) : outcome EdgeSet :=
  s ← deref w self; connections_of w s ignore_state.

(** [self.has_children(ignore_state)] *)
Definition has_children (w : World) (self : nat) (ignore_state : bool) : outcome nat :=
  c ← connections w self ignore_state; Return (size (children c)).

(** [self.has_parents(ignore_state)] *)
Definition has_parents (w : World) (self : nat) (ignore_state : bool) : outcome nat :=
  c ← connections w self ignore_state; Return (size (parents c)).

(** The search space of one [_traverse] step. *)
Definition space_of (direction : Direction) (c : EdgeSet) : gset nat :=
  (if (Direction_value direction <=? 0)%Z then children c else ∅) ∪
  (if (Direction_value direction >=? 0)%Z then parents c else ∅).

(** [_traverse]: the generator is consumed whole by [traverse], so it is
    modelled by the list of what it yields.  [visited] and [path] are
    mutated in place by the source and restored before it returns
    ([path.pop()], [visited.remove(self)]): each call sees them extended by
    the nodes between the start and itself. *)
Fixpoint _traverse (fuel : nat) (w : World) (target : nat → bool)
    (direction : Direction) (ignore_state : bool)
    (visited : gset nat) (path : list nat) (self : nat)
    : outcome (list (nat * list nat)) :=
  match fuel with
  | 0 => Stuck
  | S fuel' =>
    c ← connections w self ignore_state;
    let space := space_of direction c in
    let visited := visited ∪ {[self]} in
    let path := path ++ [self] in
    let here := if target self then [(self, path)] else [] in
    rest ← collect (λ subgraph,
              if decide (subgraph ∈ visited) then Return []
              else _traverse fuel' w target direction ignore_state visited path subgraph)
            (elements space);
    Return (here ++ rest)
  end.

(** What Python's truth test sees in [not n.has_children]: the attribute
    is read, not called. *)
Inductive PyObject :=
| PyInt (z : Z)
| PyBoundMethod (self : nat) (method : string).

Definition truth (o : PyObject) : bool :=
  match o with
  | PyInt z => negb (z =? 0)%Z
  | PyBoundMethod _ _ => true
  end.

(** [lambda n: not n.has_children] *)
Definition default_condition (n : nat) : bool :=
  negb (truth (PyBoundMethod n "has_children")).

(** [self.traverse(condition, direction, ignore_state)] *)
Definition traverse (w : World) (condition : option (nat → bool))
    (direction : Direction) (ignore_state : bool) (self : nat)
    : outcome (list (nat * list nat)) :=
  let condition := default default_condition condition in
  _traverse (S (length (heap w))) w condition direction ignore_state ∅ [] self.

(** ** flow_pathing_example.py: class Segment *)

(** [x < y] on floats *)
Definition Qlt_bool (x y : Q) : bool := negb (Qle_bool y x).

(** Values of the float [largest_ratio], which starts at [float('-Inf')]. *)
Inductive Ratio :=
| NegInf
| Finite (q : Q).

(** [self.name], as the comparison in [lambda n: n.name == target_name] *)
Definition named (w : World) (target_name : string) (n : nat) : bool :=
  match heap w !! n with
  | Some s => bool_decide (name (data s) = target_name)
  | None => false
  end.

Definition Segment_name (w : World) (self : nat) : outcome string :=
  s ← deref w self; Return (name (data s)).

Definition Segment_volume (w : World) (self : nat) : outcome Q :=
  s ← deref w self; Return (volume (data s)).

Definition flow_rate (w : World) (self : nat) : outcome Q :=
  s ← deref w self; Return (_flow_rate (data s)).

(** The property [duration]; [1e-5] is read as the rational 1/100000. *)
Definition duration (w : World) (self : nat) : outcome Q :=
  s ← deref w self;
  if Qlt_bool (_flow_rate (data s)) (1 # 100000) then Return 0%Q
  else Return (volume (data s) / _flow_rate (data s))%Q.

(** [acc = start; for x in l: acc += f(x)] *)
Fixpoint accumulate (f : nat → outcome Q) (acc : Q) (l : list nat) : outcome Q :=
  match l with
  | [] => Return acc
  | x :: l' => v ← f x; accumulate f (acc + v)%Q l'
  end.

(** The body shared by [volume_to] and [duration_to] after the traversal. *)
Definition along_unique_path (measure : nat → outcome Q)
    (traversals : list (nat * list nat)) : outcome (option Q) :=
  match traversals with
  | [] => Return None
  | (final, path) :: other =>
    match other with
    | _ :: _ => Raise RuntimeError
    | [] =>
      total ← accumulate measure 0%Q path;
      last ← measure final;
      Return (Some (total - last)%Q)
    end
  end.

(** [self.volume_to(target_name, direction)] *)
Definition volume_to (w : World) (self : nat) (target_name : string)
    (direction : Direction) : outcome (option Q) :=
  traversals ← traverse w (Some (named w target_name)) direction false self;
  along_unique_path (Segment_volume w) traversals.

(** [self.duration_to(target_name, direction)] *)
Definition duration_to (w : World) (self : nat) (target_name : string)
    (direction : Direction) : outcome (option Q) :=
  traversals ← traverse w (Some (named w target_name)) direction false self;
  along_unique_path (duration w) traversals.

(** *** Queries that write the flow rates *)

(** A stateful computation keeps the world it reached when it raises:
    Python has no rollback. *)
Definition action (A : Type) : Type := World → outcome A * World.

Definition and_then {A B} (c : action A) (f : A → action B) : action B := λ w,
  match c w with
  | (Return a, w') => f a w'
  | (Raise e, w') => (Raise e, w')
  | (Stuck, w') => (Stuck, w')
  end.

Definition unit_action {A} (a : A) : action A := λ w, (Return a, w).

Notation "x ⇐ c ; k" := (and_then c (λ x, k))
  (at level 20, c at level 100, k at level 200, right associativity, only parsing).

Definition query {A} (q : World → outcome A) : action A := λ w, (q w, w).
Definition update (f : World → World) : action unit := λ w, (Return (), f w).
Definition raise {A} (e : exn) : action A := λ w, (Raise e, w).

(** [KeyError] is a subclass of [LookupError]. *)
Definition is_LookupError (e : exn) : bool :=
  match e with
  | LookupError | KeyError => true
  | _ => false
  end.

(** [try: body  except LookupError: handler] *)
Definition except_LookupError {A} (body handler : action A) : action A := λ w,
  match body w with
  | (Raise e, w') => if is_LookupError e then handler w' else (Raise e, w')
  | r => r
  end.

Definition set_flow_rate (q : Q) (s : Segment) : Segment :=
  mkSegment (mkVolume (name (data s)) (volume (data s)) q) (_state_ids s) (_connections s).

(** [segment.data._flow_rate = q] *)
Definition assign_flow_rate (segment : nat) (q : Q) (w : World) : World :=
  with_heap w (alter (set_flow_rate q) segment (heap w)).

(** [self.reset_flow_rates()] *)
Definition reset_flow_rates (w : World) : World :=
  foldl (λ w rfr_segment, assign_flow_rate rfr_segment 0%Q w) w (map_to_list (_nodes w)).*2.

(** The first loop of [_build_flow_rates_between]: seed the sources. *)
Definition seed_sources (src_flow_rates : list (string * Q)) (w : World) : World :=
  foldl (λ w kv,
           match _nodes w !! kv.1 with
           | None => w
           | Some source => assign_flow_rate source kv.2 w
           end) w src_flow_rates.

(** [path_elements]: a dict in insertion order, name ↦ (seg, updated). *)
Definition path_elements_t : Type := list (string * (nat * bool)).

Definition assoc_setdefault {V} (k : string) (v : V) (d : list (string * V)) : list (string * V) :=
  if bool_decide (k ∈ d.*1) then d else d ++ [(k, v)].

(** The innermost loop: the nodes of one path that are neither the target
    nor a source enter [path_elements]. *)
Fixpoint add_path_elements (w : World) (target_name : string) (sources : list string)
    (path : list nat) (path_elements : path_elements_t) : outcome path_elements_t :=
  match path with
  | [] => Return path_elements
  | segment :: path' =>
    nm ← Segment_name w segment;
    if bool_decide (nm = target_name) || bool_decide (nm ∈ sources)
    then add_path_elements w target_name sources path' path_elements
    else add_path_elements w target_name sources path'
           (assoc_setdefault nm (segment, false) path_elements)
  end.

Record paths_found := mkPaths {
  path_elements : path_elements_t;
  valid_sources : gset nat;
  valid_paths : list (list nat)
}.

(** The second loop: one traversal per source that is registered. *)
Fixpoint find_paths (w : World) (target_name : string) (sources : list string)
    (todo : list string) (acc : paths_found) : outcome paths_found :=
  match todo with
  | [] => Return acc
  | source_name :: todo' =>
    match _nodes w !! source_name with
    | None => find_paths w target_name sources todo' acc
    | Some source =>
      traversals ← traverse w (Some (named w target_name)) DOWN false source;
      match traversals with
      | [] => find_paths w target_name sources todo' acc
      | (_, path) :: other =>
        match other with
        | _ :: _ => Raise RuntimeError
        | [] =>
          elems ← add_path_elements w target_name sources path (path_elements acc);
          find_paths w target_name sources todo'
            (mkPaths elems (valid_sources acc ∪ {[source]}) (valid_paths acc ++ [path]))
        end
      end
    end
  end.

(** [sum([_seg.flow_rate for _seg in segment.connections().parents], start=0.0)] *)
Definition inflow (w : World) (segment : nat) : outcome Q :=
  c ← connections w segment false;
  accumulate (flow_rate w) 0%Q (elements (parents c)).

(** The body of the [for _rec in path_elements.values()] loop. *)
Definition update_record (rec : string * (nat * bool)) : action (string * (nat * bool)) :=
  let segment := rec.2.1 in
  old_value ⇐ query (λ w, flow_rate w segment);
  new_value ⇐ query (λ w, inflow w segment);
  if negb (Qeq_bool old_value new_value) then
    _ ⇐ update (assign_flow_rate segment new_value);
    unit_action (rec.1, (segment, true))
  else
    unit_action (rec.1, (segment, false)).

(** One pass of the [while] body over all records. *)
Fixpoint one_pass (recs : path_elements_t) : action path_elements_t :=
  match recs with
  | [] => unit_action []
  | rec :: recs' =>
    rec' ⇐ update_record rec;
    rest ⇐ one_pass recs';
    unit_action (rec' :: rest)
  end.

(** [any([_rec.updated for _rec in path_elements.values()])] *)
Definition any_updated (recs : path_elements_t) : bool :=
  existsb (λ rec, rec.2.2) recs.

(** The [while] loop.  It is entered with [first_pass = True], so the test
    is made after each pass; [_iterations] counts the passes made so far and
    the result is the number of passes made in all. *)
Fixpoint converge (fuel : nat) (_iterations : nat) (recs : path_elements_t) : action nat :=
  match fuel with
  | 0 => λ w, (Stuck, w)
  | S fuel' =>
    recs ⇐ one_pass recs;
    let _iterations := S _iterations in
    if 1000 <? _iterations then raise TimeoutError
    else if any_updated recs then converge fuel' _iterations recs
    else unit_action _iterations
  end.

Arguments converge : simpl never.

(** [self._build_flow_rates_between(target_name, src_flow_rates...)];
    the keyword arguments are the list of their (name, rate) pairs. *)
Definition _build_flow_rates_between (self : nat) (target_name : string)
    (src_flow_rates : list (string * Q)) : action (gset nat * list (list nat)) :=
  registered ⇐ query (λ w, Return (bool_decide (is_Some (_nodes w !! target_name))));
  if negb registered then raise LookupError
  else
    _ ⇐ update reset_flow_rates;
    _ ⇐ update (seed_sources src_flow_rates);
    found ⇐ query (λ w, find_paths w target_name src_flow_rates.*1 src_flow_rates.*1
                          (mkPaths [] ∅ []));
    _ ⇐ converge 1001 0 (path_elements found);
    unit_action (valid_sources found, valid_paths found).

(** [item > max_item] between values that may be [None] *)
Definition py_gt (x y : option Q) : outcome bool :=
  match x, y with
  | Some a, Some b => Return (Qlt_bool b a)
  | _, _ => Raise TypeError
  end.

(** The scan of [max]: keep the first of the largest items. *)
Fixpoint max_scan (max_item : option Q) (l : list (option Q)) : outcome (option Q) :=
  match l with
  | [] => Return max_item
  | item :: l' =>
    b ← py_gt item max_item;
    max_scan (if b : bool then item else max_item) l'
  end.

(** [max(items, default=d)] *)
Definition py_max (items : list (option Q)) (d : option Q) : outcome (option Q) :=
  match items with
  | [] => Return d
  | first :: others => max_scan first others
  end.

(** [self.time_from(src_flow_rates...)] *)
Definition time_from (self : nat) (src_flow_rates : list (string * Q)) : action (option Q) :=
  self_name ⇐ query (λ w, Segment_name w self);
  built ⇐ except_LookupError
            (r ⇐ _build_flow_rates_between self self_name src_flow_rates;
             unit_action (Some r))
            (unit_action None);
  match built with
  | None => unit_action None
  | Some (valid_sources, _) =>
    durations ⇐ query (λ w,
        ds ← for_each (λ source, duration_to w source self_name DOWN)
                      (elements valid_sources);
        py_max ds (Some 0%Q));
    _ ⇐ update reset_flow_rates;
    unit_action durations
  end.

(** [max(first, *others)] and [min(first, *others)] on floats *)
Definition Q_max_list (first : Q) (others : list Q) : Q :=
  foldl (λ max_item item, if Qlt_bool max_item item then item else max_item) first others.

Definition Q_min_list (first : Q) (others : list Q) : Q :=
  foldl (λ min_item item, if Qlt_bool item min_item then item else min_item) first others.

(** [max(largest_ratio, flow_ratio)] *)
Definition Ratio_max (largest_ratio : Ratio) (flow_ratio : Q) : Ratio :=
  match largest_ratio with
  | NegInf => Finite flow_ratio
  | Finite l => if Qlt_bool l flow_ratio then Finite flow_ratio else Finite l
  end.

(** [[_p.flow_rate for _p in segment.connections().parents if _p.flow_rate > 0]] *)
Definition inlet_rates (w : World) (segment : nat) : outcome (list Q) :=
  c ← connections w segment false;
  rates ← for_each (flow_rate w) (elements (parents c));
  Return (List.filter (λ r, Qlt_bool 0 r) rates).

(** The body of the inner loop of [check_flow_stability_from], on the pair
    ([unstable_segments], [largest_ratio]). *)
Definition inspect_segment (critical_flow_ratio : Q) (w : World)
    (acc : gset string * Ratio) (segment : nat) : outcome (gset string * Ratio) :=
  rates ← inlet_rates w segment;
  match rates with
  | [] => Return acc
  | r :: rs =>
    let flow_ratio := (Q_max_list r rs / Q_min_list r rs)%Q in
    let largest_ratio := Ratio_max acc.2 flow_ratio in
    if Qlt_bool critical_flow_ratio flow_ratio then
      nm ← Segment_name w segment;
      Return (acc.1 ∪ {[nm]}, largest_ratio)
    else Return (acc.1, largest_ratio)
  end.

Fixpoint inspect_all (critical_flow_ratio : Q) (w : World)
    (acc : gset string * Ratio) (segments : list nat) : outcome (gset string * Ratio) :=
  match segments with
  | [] => Return acc
  | segment :: segments' =>
    acc ← inspect_segment critical_flow_ratio w acc segment;
    inspect_all critical_flow_ratio w acc segments'
  end.

(** [self.check_flow_stability_from(critical_flow_ratio, src_flow_rates...)];
    the two nested loops run over the paths laid end to end. *)
Definition check_flow_stability_from (self : nat) (critical_flow_ratio : Q)
    (src_flow_rates : list (string * Q)) : action (option (gset string * Ratio)) :=
  self_name ⇐ query (λ w, Segment_name w self);
  built ⇐ except_LookupError
            (r ⇐ _build_flow_rates_between self self_name src_flow_rates;
             unit_action (Some r))
            (unit_action None);
  match built with
  | None => unit_action None
  | Some (_, paths) =>
    result ⇐ query (λ w, inspect_all critical_flow_ratio w (∅, NegInf) (concat paths));
    _ ⇐ update reset_flow_rates;
    unit_action (Some result)
  end.

(** * Well-formed worlds

    What the constructors of the source guarantee of every Python run:
    references point to constructed objects, every node has its
    [CONSISTENT] bucket, and every state-group id a node carries has an
    entry in [state_cache]. *)

Definition valid (w : World) (i : nat) : Prop := i < length (heap w).

Definition wf_EdgeSet (w : World) (e : EdgeSet) : Prop :=
  set_Forall (valid w) (children e) ∧ set_Forall (valid w) (parents e).

Definition wf_Segment (w : World) (s : Segment) : Prop :=
  is_Some (_connections s !! CONSISTENT) ∧
  _state_ids s ⊆ dom (state_cache w) ∧
  map_Forall (λ _ e, wf_EdgeSet w e) (_connections s).

Definition wf (w : World) : Prop :=
  Forall (wf_Segment w) (heap w) ∧ map_Forall (λ _ i, valid w i) (_nodes w).

#[global] Instance valid_dec w i : Decision (valid w i).
Proof. unfold valid. apply _. Defined.

#[global] Instance wf_EdgeSet_dec w e : Decision (wf_EdgeSet w e).
Proof. unfold wf_EdgeSet. apply _. Defined.

#[global] Instance wf_Segment_dec w s : Decision (wf_Segment w s).
Proof. unfold wf_Segment. apply _. Defined.

#[global] Instance wf_dec w : Decision (wf w).
Proof. unfold wf. apply _. Defined.

(** Names are keys: no two objects carry the same name (§3 of the
    specification; the graph builder keeps one object per name). *)
Definition names_unique (w : World) : Prop :=
  NoDup ((λ s, name (data s)) <$> heap w).

(** ** Vocabulary of the traversal theorems *)

(** The step relation of the search: [y] is in the search space of [x]. *)
Definition step (w : World) (direction : Direction) (ignore_state : bool)
    (x y : nat) : Prop :=
  ∃ c, connections w x ignore_state = Return c ∧ y ∈ space_of direction c.

(** What [_traverse], started at [self] with [visited] and [path], may
    yield: a node that satisfies the condition, with the path extended by a
    duplicate-free walk from [self] to it that avoids [visited] and stays
    inside [R]. *)
Definition yields (w : World) (target : nat → bool) (R : nat → Prop)
    (visited : gset nat) (path : list nat) (self m : nat) (q : list nat) : Prop :=
  target m = true ∧
  ∃ q', q = path ++ (self :: q') ∧ last (self :: q') = Some m ∧
        NoDup (self :: q') ∧
        ∀ x, x ∈ self :: q' → (x ∉ visited) ∧ is_Some (heap w !! x) ∧ R x.

(** The nodes on which [_traverse] is entered during one [traverse] call,
    in order: the condition is called once per entry, so they are the
    matches of the condition that accepts every node. *)
Definition visits (w : World) (direction : Direction) (ignore_state : bool)
    (self : nat) : outcome (list nat) :=
  rs ← traverse w (Some (λ _, true)) direction ignore_state self;
  Return rs.*1.

(** All references of a world, as a set. *)
Definition all_nodes (w : World) : gset nat := set_seq 0 (length (heap w)).

(** [other.name], when [other] is a constructed object *)
Definition name_of (w : World) (i : nat) : option string :=
  (λ s, name (data s)) <$> heap w !! i.

(** The four wiring calls act alike on names and on the registry; [op] is
    [_add_child] or [_add_parent]. *)
Definition wiring_call (op : World → nat → nat → option string → string → World) : Prop :=
  ∀ w self other cid st,
    (∀ i, name_of (op w self other cid st) i = name_of w i) ∧
    _nodes (op w self other cid st) =
      match name_of w other with
      | Some nm => setdefault nm other (_nodes w)
      | None => _nodes w
      end.


(** [w'] has the objects of [w] under the same names and every registry
    entry of [w]. *)
Definition extends (w w' : World) : Prop :=
  (∀ i, name_of w' i = name_of w i) ∧
  (∀ k i, _nodes w !! k = Some i → _nodes w' !! k = Some i).

(** ** Vocabulary of the propagation theorems *)

(** Two objects that differ in their flow rate at most. *)
Definition same_wiring (s s' : Segment) : Prop :=
  name (data s) = name (data s') ∧ volume (data s) = volume (data s') ∧
  _state_ids s = _state_ids s' ∧ _connections s = _connections s'.

(** Two worlds that differ in flow rates at most. *)
Definition rates_only (w w' : World) : Prop :=
  Forall2 same_wiring (heap w) (heap w') ∧
  state_cache w = state_cache w' ∧ _nodes w = _nodes w'.

(** The nodes of the records of [path_elements]. *)
Definition segments (recs : path_elements_t) : list nat := (λ rec, rec.2.1) <$> recs.

(** A pass over [segs] would change nothing: each rate equals the sum of
    the rates of the resolved parents. *)
Definition settled (w : World) (segs : list nat) : Prop :=
  Forall (λ seg, ∃ old_value new_value,
            flow_rate w seg = Return old_value ∧ inflow w seg = Return new_value ∧
            Qeq_bool old_value new_value = true) segs.

(** Every registered node has flow rate 0. *)
Definition rates_reset (w : World) : Prop :=
  ∀ nm i s, _nodes w !! nm = Some i → heap w !! i = Some s →
    _flow_rate (data s) = 0%Q.

(** The object [i], if constructed, has flow rate 0. *)
Definition zero_at (w : World) (i : nat) : Prop :=
  ∀ s, heap w !! i = Some s → _flow_rate (data s) = 0%Q.

(** A stateful computation that writes nothing but flow rates. *)
Definition writes_rates_only {A} (c : action A) : Prop :=
  ∀ w, rates_only w (c w).2.

(** [n] passes of the loop body in a row, whatever their flags: what the
    [while] loop has run when it has made [n] passes. *)
Fixpoint passes (n : nat) (recs : path_elements_t) : action path_elements_t :=
  match n with
  | 0 => unit_action recs
  | S n' => recs' ⇐ passes n' recs; one_pass recs'
  end.


(** * Example networks

    Small networks on which the theorems below are exercised.  [network]
    constructs the listed segments in order, so the first has reference 0. *)

Definition network (segments : list (string * Q)) : World :=
  foldl (λ w nv, (Segment_init w nv.1 nv.2).2) empty_world segments.

(** One segment, wired to nothing. *)
Definition lone : World := network [("X", 7%Q)].

(** A(10) > B(20) > C(30) *)
Definition chain : World :=
  let w := network [("A", 10%Q); ("B", 20%Q); ("C", 30%Q)] in
  let w := connect w 0 [1] None DOWN in
  connect w 1 [2] None DOWN.

(** Two routes from S to T: S > A > T and S > B > T. *)
Definition diamond : World :=
  let w := network [("S", 1%Q); ("A", 2%Q); ("B", 3%Q); ("T", 4%Q)] in
  let w := connect w 0 [1; 2] None DOWN in
  let w := connect w 1 [3] None DOWN in
  connect w 2 [3] None DOWN.

(** a > b, wired under state "s" of group "g"; no state is ever set. *)
Definition gated : World :=
  let w := network [("a", 1%Q); ("b", 2%Q)] in
  connect w 0 [1] (Some (Some "g", "s")) DOWN.

(** S > A > B > T, and B > A while valve "v" is in state "loop":
    in that state A and B are each other's parent. *)
Definition feedback : World :=
  let w := network [("S", 1%Q); ("A", 2%Q); ("B", 3%Q); ("T", 4%Q)] in
  let w := connect w 0 [1] None DOWN in
  let w := connect w 1 [2] None DOWN in
  let w := connect w 2 [3] None DOWN in
  connect w 2 [1] (Some (Some "v", "loop")) DOWN.

(** X > Y > X: X lies on a cycle. *)
Definition ring : World :=
  let w := network [("X", 5%Q); ("Y", 6%Q)] in
  let w := connect w 0 [1] None DOWN in
  connect w 1 [0] None DOWN.

(** Two graphs that reuse the name "A": A(10) > B(20), built first, and
    a second object named "A", A'(30) > D(40). *)
Definition reused_name : World :=
  let w := network [("A", 10%Q); ("B", 20%Q); ("A", 30%Q); ("D", 40%Q)] in
  let w := connect w 0 [1] None DOWN in
  connect w 2 [3] None DOWN.

(** [feedback] with flow rates [s], [a] and [b] on S, A and B. *)
Definition feedback_at (s a b : Q) : World :=
  assign_flow_rate 2 b (assign_flow_rate 1 a (assign_flow_rate 0 s feedback)).

(** The second graph of [reused_name], built on its own: A'(30) > D(40). *)
Definition second_graph_alone : World :=
  let w := network [("A", 30%Q); ("D", 40%Q)] in
  connect w 0 [1] None DOWN.

(** Two objects named "A": A(10) > A'(30). *)
Definition twins : World :=
  let w := network [("A", 10%Q); ("A", 30%Q)] in
  connect w 0 [1] None DOWN.


(** ** Vocabulary of the further properties *)

(** [x] is on side [side] (children or parents) of bucket [st] of [s]. *)
Definition in_bucket (s : Segment) (st : string) (side : EdgeSet → gset nat)
    (x : nat) : Prop :=
  ∃ b, _connections s !! st = Some b ∧ x ∈ side b.

(** Bucket [st] is consulted for [s]: it is CONSISTENT, or the registry
    value of a state-group id that [s] carries. *)
Definition consulted (w : World) (s : Segment) (st : string) : Prop :=
  st = CONSISTENT ∨ ∃ g, g ∈ _state_ids s ∧ state_cache w !! g = Some st.

(** The two additions a wiring call makes to a bucket. *)
Inductive edit :=
| AddChild (x : nat)
| AddParent (x : nat).

Definition run_edit (e : edit) : EdgeSet → EdgeSet :=
  match e with
  | AddChild x => add_to_children x
  | AddParent x => add_to_parents x
  end.

(** What one wiring call writes to the heap: an edit of bucket [st] of
    node [ie.1]. *)
Definition heap_write (cid : option string) (st : string) (h : list Segment)
    (ie : nat * edit) : list Segment :=
  alter (wire (run_edit ie.2) cid st) ie.1 h.

(** The wiring calls of [connect] for one target, in the order the source
    makes them. *)
Definition wiring_of (self target : nat) (direction : Direction) : list (nat * edit) :=
  (if (Direction_value direction <=? 0)%Z
   then [(self, AddChild target); (target, AddParent self)] else []) ++
  (if (Direction_value direction >=? 0)%Z
   then [(self, AddParent target); (target, AddChild self)] else []).

(** [_nodes.setdefault(i.name, i)] with the name [i] has in [w]. *)
Definition register_name (w : World) (i : nat) (r : gmap string nat) : gmap string nat :=
  match name_of w i with
  | Some nm => setdefault nm i r
  | None => r
  end.

(** The two sides of an EdgeSet, indexed by a boolean: [true] for children. *)
Definition side_of (b : bool) : EdgeSet → gset nat := if b then children else parents.

(** What an edit adds to a side. *)
Definition adds (e : edit) (b : bool) (x : nat) : Prop :=
  match e, b with
  | AddChild y, true | AddParent y, false => x = y
  | _, _ => False
  end.

(** [x] is on side [b] of bucket [st] of the object [i] of heap [h]. *)
Definition edge (h : list Segment) (i : nat) (st : string) (b : bool) (x : nat) : Prop :=
  ∃ s, h !! i = Some s ∧ in_bucket s st (side_of b) x.

(** [x] is a child of [i] in bucket [st]. *)
Definition child_in (w : World) (st : string) (i x : nat) : Prop :=
  edge (heap w) i st true x.

(** [x] is a parent of [i] in bucket [st]. *)
Definition parent_in (w : World) (st : string) (i x : nat) : Prop :=
  edge (heap w) i st false x.

(** Every edge is recorded at both ends, in the same bucket. *)
Definition symmetric (w : World) : Prop :=
  ∀ st i j, child_in w st i j ↔ parent_in w st j i.

(** The worlds a Python run can reach: objects are constructed, connected
    to constructed objects, states are set and queries are run. *)
Inductive constructed : World → Prop :=
| constructed_empty : constructed empty_world
| constructed_init w nm vol :
    constructed w → constructed (Segment_init w nm vol).2
| constructed_connect w self targets for_state direction :
    constructed w → valid w self → Forall (valid w) targets →
    constructed (connect w self targets for_state direction)
| constructed_set_state w g st :
    constructed w → constructed (set_state w g st)
| constructed_time_from w self src :
    constructed w → constructed (time_from self src w).2
| constructed_check_flow_stability_from w self critical_flow_ratio src :
    constructed w →
    constructed (check_flow_stability_from self critical_flow_ratio src w).2.

(** Consecutive nodes of [q] are linked by the search step. *)
Definition linked (w : World) (direction : Direction) (ignore_state : bool)
    (q : list nat) : Prop :=
  ∀ k x y, q !! k = Some x → q !! S k = Some y → step w direction ignore_state x y.

(** [q] is a simple path of the search from [self] to [m]. *)
Definition simple_path (w : World) (direction : Direction) (ignore_state : bool)
    (self m : nat) (q : list nat) : Prop :=
  head q = Some self ∧ last q = Some m ∧ NoDup q ∧ linked w direction ignore_state q.

(** What [_traverse] reports when entered at [self] with [visited] and
    [path]: the matches reached by a simple path from [self] that avoids
    [visited], each with [path] extended by that simple path. *)
Definition found (w : World) (target : nat → bool) (direction : Direction)
    (ignore_state : bool) (visited : gset nat) (path : list nat)
    (self m : nat) (q : list nat) : Prop :=
  target m = true ∧
  ∃ q', q = path ++ q' ∧ simple_path w direction ignore_state self m q' ∧
        ∀ x, x ∈ q' → x ∉ visited.

(** The two outputs of the stability check agree: a reported worst ratio
    is at least 1, and a non-empty unstable set comes with a worst ratio
    above the critical one. *)
Definition coherent (critical_flow_ratio : Q) (acc : gset string * Ratio) : Prop :=
  (∀ q, acc.2 = Finite q → (1 <= q)%Q) ∧
  (acc.1 ≠ ∅ → ∃ q, acc.2 = Finite q ∧ (critical_flow_ratio < q)%Q).

(** Some registered source among [names] reaches the target along more
    than one path. *)
Definition ambiguous (w : World) (target_name : string) (names : list string) : Prop :=
  ∃ source_name source rs,
    source_name ∈ names ∧ _nodes w !! source_name = Some source ∧
    traverse w (Some (named w target_name)) DOWN false source = Return rs ∧
    1 < length rs.

(** A node that may enter [path_elements]: it bears a name that is neither
    the target's nor a source's. *)
Definition eligible (w : World) (target_name : string) (sources : list string)
    (seg : nat) : Prop :=
  ∃ nm, name_of w seg = Some nm ∧ nm ≠ target_name ∧ nm ∉ sources.

(** What the second loop of [_build_flow_rates_between] maintains. *)
Definition sound_paths (w : World) (target_name : string) (sources : list string)
    (acc : paths_found) : Prop :=
  Forall (eligible w target_name sources) (segments (path_elements acc)) ∧
  (∀ source, source ∈ valid_sources acc →
     ∃ final path,
       traverse w (Some (named w target_name)) DOWN false source = Return [(final, path)]) ∧
  Forall (Forall (valid w)) (valid_paths acc).

(** The registry maps a name only to a node that bears it. *)
Definition registry_sound (w : World) : Prop :=
  ∀ nm i, _nodes w !! nm = Some i → name_of w i = Some nm.

(** No constructed object has a flow rate of [1e-5] or more: the state of a
    world in which no flow rates have been set. *)
Definition no_flow (w : World) : Prop :=
  Forall (λ s, Qlt_bool (_flow_rate (data s)) (1 # 100000) = true) (heap w).

(** Another node that bears the name of [self] can be reached from [self]
    along a simple path of the search. *)
Definition namesake_reachable (w : World) (direction : Direction) (self : nat) : Prop :=
  ∃ m q nm, m ≠ self ∧ name_of w self = Some nm ∧ name_of w m = Some nm ∧
    simple_path w direction false self m q.
(** Decidable facts about a concrete world are settled by evaluation. *)
Ltac decide_by_computation :=
  refine (bool_decide_unpack _ _); vm_compute; exact I.

(** ** Inversion of the monadic combinators *)

Lemma bind_Return {A B} (c : outcome A) (f : A → outcome B) b :
  c ≫= f = Return b → ∃ a, c = Return a ∧ f a = Return b.
Proof. destruct c; simpl; intros; eauto; discriminate. Qed.

Lemma bind_Raise {A B} (c : outcome A) (f : A → outcome B) e :
  c ≫= f = Raise e → c = Raise e ∨ ∃ a, c = Return a ∧ f a = Raise e.
Proof.
  destruct c as [a| |]; simpl; intros H.
  - right. by exists a.
  - injection H as ->. by left.
  - discriminate.
Qed.

Lemma collect_Return {A B} (f : A → outcome (list B)) l rs :
  collect f l = Return rs →
  ∃ rss, Forall2 (λ x r, f x = Return r) l rss ∧ rs = concat rss.
Proof.
  revert rs. induction l as [|x l IH]; simpl; intros rs H.
  - exists []. split; [constructor | simpl; congruence].
  - apply bind_Return in H as (r & Hr & H).
    apply bind_Return in H as (rs' & Hrs & H).
    destruct (IH _ Hrs) as (rss & HF & ->).
    exists (r :: rss). split; [by constructor | simpl; congruence].
Qed.

Lemma collect_total {A B} (f : A → outcome (list B)) l :
  (∀ x, x ∈ l → ∃ r, f x = Return r) → ∃ rs, collect f l = Return rs.
Proof.
  induction l as [|x l IH]; simpl; intros H; [eauto|].
  destruct (H x) as [r Hr]; [left|]. rewrite Hr. simpl.
  destruct IH as [rs Hrs]; [intros; apply H; by right|].
  rewrite Hrs. simpl. eauto.
Qed.

Lemma collect_ext {A B} (f g : A → outcome (list B)) l :
  (∀ x, x ∈ l → f x = g x) → collect f l = collect g l.
Proof.
  induction l as [|x l IH]; simpl; intros H; [done|].
  rewrite H by left. rewrite IH; [done|]. intros; apply H; by right.
Qed.

Lemma elem_of_concat {A} (x : A) (ls : list (list A)) :
  x ∈ concat ls ↔ ∃ l, x ∈ l ∧ l ∈ ls.
Proof.
  induction ls as [|l ls IH]; simpl.
  - split; [intros H; inversion H | intros (l & _ & H); inversion H].
  - rewrite elem_of_app, IH. split.
    + intros [?|(l' & ? & ?)]; [exists l | exists l']; split; auto; by constructor.
    + intros (l' & ? & [->|?]%elem_of_cons); eauto.
Qed.

Lemma concat_nil_all {A} (ls : list (list A)) :
  (∀ l, l ∈ ls → l = []) → concat ls = [].
Proof.
  induction ls as [|l ls IH]; simpl; intros H; [done|].
  rewrite (H l) by left. simpl. apply IH. intros; apply H; by right.
Qed.

Lemma for_each_Return {A B} (f : A → outcome B) l rs :
  for_each f l = Return rs → Forall2 (λ x r, f x = Return r) l rs.
Proof.
  revert rs. induction l as [|x l IH]; simpl; intros rs H.
  - injection H as <-. constructor.
  - apply bind_Return in H as (r & Hr & H).
    apply bind_Return in H as (rs' & Hrs & H).
    injection H as <-. constructor; auto.
Qed.

Lemma for_each_total {A B} (f : A → outcome B) l :
  (∀ x, x ∈ l → ∃ r, f x = Return r) → ∃ rs, for_each f l = Return rs.
Proof.
  induction l as [|x l IH]; simpl; intros H; [eauto|].
  destruct (H x) as [r Hr]; [left|]. rewrite Hr. simpl.
  destruct IH as [rs Hrs]; [intros; apply H; by right|].
  rewrite Hrs. simpl. eauto.
Qed.

Lemma for_each_ext {A B} (f g : A → outcome B) l :
  (∀ x, x ∈ l → f x = g x) → for_each f l = for_each g l.
Proof.
  induction l as [|x l IH]; simpl; intros H; [done|].
  rewrite H by left. rewrite IH; [done|]. intros; apply H; by right.
Qed.

Lemma accumulate_ext f g acc l :
  (∀ x, x ∈ l → f x = g x) → accumulate f acc l = accumulate g acc l.
Proof.
  revert acc. induction l as [|x l IH]; simpl; intros acc H; [done|].
  rewrite H by left. destruct (g x); simpl; auto.
  apply IH. intros; apply H; by right.
Qed.

Lemma accumulate_total f acc l :
  (∀ x, x ∈ l → ∃ r, f x = Return r) → ∃ q, accumulate f acc l = Return q.
Proof.
  revert acc. induction l as [|x l IH]; simpl; intros acc H; [eauto|].
  destruct (H x) as [r Hr]; [left|]. rewrite Hr. simpl.
  apply IH. intros; apply H; by right.
Qed.

(** ** The two views of a node's connections *)

Lemma EdgeSet_sum_children items start x :
  x ∈ children (EdgeSet_sum items start) ↔
  x ∈ children start ∨ ∃ e, e ∈ items ∧ x ∈ children e.
Proof.
  unfold EdgeSet_sum. revert start.
  induction items as [|e items IH]; simpl; intros start.
  - split; [auto | intros [?|(e & He & _)]; [done | inversion He]].
  - rewrite IH. simpl. rewrite elem_of_union. split.
    + intros [[?|?]|(e' & He' & ?)]; eauto.
      * right. exists e. split; [left | done].
      * right. exists e'. split; [by right | done].
    + intros [?|(e' & He' & ?)]; [auto|].
      apply elem_of_cons in He' as [->|?]; eauto.
Qed.

Lemma EdgeSet_sum_parents items start x :
  x ∈ parents (EdgeSet_sum items start) ↔
  x ∈ parents start ∨ ∃ e, e ∈ items ∧ x ∈ parents e.
Proof.
  unfold EdgeSet_sum. revert start.
  induction items as [|e items IH]; simpl; intros start.
  - split; [auto | intros [?|(e & He & _)]; [done | inversion He]].
  - rewrite IH. simpl. rewrite elem_of_union. split.
    + intros [[?|?]|(e' & He' & ?)]; eauto.
      * right. exists e. split; [left | done].
      * right. exists e'. split; [by right | done].
    + intros [?|(e' & He' & ?)]; [auto|].
      apply elem_of_cons in He' as [->|?]; eauto.
Qed.

Lemma bucket_in_values (s : Segment) st e :
  _connections s !! st = Some e → e ∈ (map_to_list (_connections s)).*2.
Proof.
  intros H. apply list_elem_of_fmap. exists (st, e). split; [done|].
  by apply elem_of_map_to_list.
Qed.

(** Every edge of the resolved view sits in a bucket of the node. *)
Lemma resolved_edges_in_buckets w s e :
  connections_of w s false = Return e →
  (∀ x, x ∈ children e → ∃ st b, _connections s !! st = Some b ∧ x ∈ children b) ∧
  (∀ x, x ∈ parents e → ∃ st b, _connections s !! st = Some b ∧ x ∈ parents b).
Proof.
  unfold connections_of. intros H.
  apply bind_Return in H as (buckets & Hb & H).
  destruct (_connections s !! CONSISTENT) as [start|] eqn:Hc; [|discriminate].
  injection H as <-. apply for_each_Return in Hb.
  assert (Hin : ∀ b, b ∈ buckets →
            b = EdgeSet_init ∨ ∃ st, _connections s !! st = Some b).
  { intros b Hin. apply list_elem_of_lookup in Hin as [i Hi].
    destruct (Forall2_lookup_r _ _ _ _ _ Hb Hi) as (sid & _ & Hsid).
    unfold active_bucket in Hsid.
    destruct (state_cache w !! sid) as [st|]; [|discriminate].
    injection Hsid as <-.
    destruct (_connections s !! st) eqn:E; simpl; eauto. }
  split; intros x Hx.
  - apply EdgeSet_sum_children in Hx as [Hx|(b & Hb' & Hx)]; [eauto|].
    destruct (Hin _ Hb') as [->|[st Hst]]; [|eauto].
    simpl in Hx. set_solver.
  - apply EdgeSet_sum_parents in Hx as [Hx|(b & Hb' & Hx)]; [eauto|].
    destruct (Hin _ Hb') as [->|[st Hst]]; [|eauto].
    simpl in Hx. set_solver.
Qed.

Lemma full_edges_in_buckets (s : Segment) :
  let e := EdgeSet_sum (map_to_list (_connections s)).*2 EdgeSet_init in
  (∀ x, x ∈ children e → ∃ st b, _connections s !! st = Some b ∧ x ∈ children b) ∧
  (∀ x, x ∈ parents e → ∃ st b, _connections s !! st = Some b ∧ x ∈ parents b).
Proof.
  assert (Hin : ∀ b, b ∈ (map_to_list (_connections s)).*2 →
            ∃ st, _connections s !! st = Some b).
  { intros b Hb. apply list_elem_of_fmap in Hb as ([st b'] & -> & Hb).
    exists st. by apply elem_of_map_to_list. }
  split; intros x Hx.
  - apply EdgeSet_sum_children in Hx as [Hx|(b & Hb & Hx)]; [simpl in Hx; set_solver|].
    destruct (Hin _ Hb) as [st Hst]. eauto.
  - apply EdgeSet_sum_parents in Hx as [Hx|(b & Hb & Hx)]; [simpl in Hx; set_solver|].
    destruct (Hin _ Hb) as [st Hst]. eauto.
Qed.

Lemma connections_deref w self ign c :
  connections w self ign = Return c →
  ∃ s, heap w !! self = Some s ∧ connections_of w s ign = Return c.
Proof.
  unfold connections, deref. destruct (heap w !! self) as [s|]; [|discriminate].
  simpl. eauto.
Qed.

(** In a well-formed world [connections] returns, and returns references
    to constructed objects only. *)
Lemma connections_wf w self ign :
  wf w → valid w self → ∃ c, connections w self ign = Return c ∧ wf_EdgeSet w c.
Proof.
  intros [Hheap _] Hv. unfold valid in Hv.
  destruct (lookup_lt_is_Some_2 _ _ Hv) as [s Hs].
  pose proof (Forall_lookup_1 _ _ _ _ Hheap Hs) as (Hc & Hids & Hedges).
  unfold connections, deref. rewrite Hs. simpl.
  assert (Hb : ∀ st b, _connections s !! st = Some b → wf_EdgeSet w b).
  { intros st b Hb. exact (Hedges st b Hb). }
  destruct ign.
  - eexists. split; [reflexivity|].
    destruct (full_edges_in_buckets s) as [H1 H2].
    split; intros x Hx.
    + destruct (H1 x Hx) as (st & b & Hst & Hxb). by apply (proj1 (Hb _ _ Hst)).
    + destruct (H2 x Hx) as (st & b & Hst & Hxb). by apply (proj2 (Hb _ _ Hst)).
  - destruct (for_each_total (active_bucket w s) (elements (_state_ids s))) as [bs Hbs].
    { intros g Hg. apply elem_of_elements in Hg.
      apply Hids, elem_of_dom in Hg as [st Hst].
      unfold active_bucket. rewrite Hst. eauto. }
    destruct Hc as [start Hstart].
    assert (Hr : connections_of w s false = Return (EdgeSet_sum bs start)).
    { unfold connections_of. rewrite Hbs. simpl. by rewrite Hstart. }
    exists (EdgeSet_sum bs start). split; [done|].
    destruct (resolved_edges_in_buckets _ _ _ Hr) as [H1 H2].
    split; intros x Hx.
    + destruct (H1 x Hx) as (st & b & Hst & Hxb). by apply (proj1 (Hb _ _ Hst)).
    + destruct (H2 x Hx) as (st & b & Hst & Hxb). by apply (proj2 (Hb _ _ Hst)).
Qed.

Lemma space_of_wf w direction c :
  wf_EdgeSet w c → set_Forall (valid w) (space_of direction c).
Proof.
  intros [H1 H2] x Hx. unfold space_of in Hx.
  apply elem_of_union in Hx as [Hx|Hx].
  - destruct (_ <=? _)%Z; [by apply H1 | by apply not_elem_of_empty in Hx].
  - destruct (_ >=? _)%Z; [by apply H2 | by apply not_elem_of_empty in Hx].
Qed.

(** ** Traversal *)

Lemma _traverse_Return fuel w target direction ignore_state visited path self rs :
  _traverse (S fuel) w target direction ignore_state visited path self = Return rs →
  ∃ c rss,
    connections w self ignore_state = Return c ∧
    Forall2 (λ subgraph r,
       (if decide (subgraph ∈ visited ∪ {[self]}) then Return []
        else _traverse fuel w target direction ignore_state
               (visited ∪ {[self]}) (path ++ [self]) subgraph) = Return r)
      (elements (space_of direction c)) rss ∧
    rs = (if target self then [(self, path ++ [self])] else []) ++ concat rss.
Proof.
  simpl. intros H.
  apply bind_Return in H as (c & Hc & H).
  apply bind_Return in H as (rest & Hrest & H).
  injection H as <-.
  apply collect_Return in Hrest as (rss & HF & ->).
  eauto.
Qed.

Section traversal.
Context (w : World) (target : nat → bool) (direction : Direction) (ignore_state : bool).

Lemma _traverse_yields (R : nat → Prop) :
  (∀ x y, R x → step w direction ignore_state x y → R y) →
  ∀ fuel visited path self rs,
    _traverse fuel w target direction ignore_state visited path self = Return rs →
    self ∉ visited → R self →
    ∀ m q, (m, q) ∈ rs → yields w target R visited path self m q.
Proof.
  intros Hclosed. induction fuel as [|fuel IH]; [discriminate|].
  intros visited path self rs H Hself HR m q Hin.
  apply _traverse_Return in H as (c & rss & Hc & HF & ->).
  destruct (connections_deref _ _ _ _ Hc) as (s & Hs & _).
  apply elem_of_app in Hin as [Hin|Hin].
  - destruct (target self) eqn:Ht; [|inversion Hin].
    apply list_elem_of_singleton in Hin. injection Hin as -> ->.
    split; [done|]. exists []. repeat split; try done.
    + apply NoDup_singleton.
    + apply list_elem_of_singleton in H. by subst.
    + apply list_elem_of_singleton in H. subst. by eexists.
    + apply list_elem_of_singleton in H. by subst.
  - apply elem_of_concat in Hin as (r & Hin & Hr).
    apply list_elem_of_lookup in Hr as [i Hi].
    destruct (Forall2_lookup_r _ _ _ _ _ HF Hi) as (sub & Hsub & Hcall).
    destruct (decide (sub ∈ visited ∪ {[self]})) as [|Hfresh];
      [injection Hcall as <-; inversion Hin|].
    assert (Hstep : step w direction ignore_state self sub).
    { exists c. split; [done|]. apply elem_of_elements.
      apply list_elem_of_lookup. eauto. }
    destruct (IH _ _ _ _ Hcall Hfresh (Hclosed _ _ HR Hstep) _ _ Hin)
      as (Ht & q' & -> & Hlast & Hnd & Hall).
    split; [done|]. exists (sub :: q'). split; [by rewrite <- app_assoc|].
    split; [done|]. split.
    + apply NoDup_cons. split; [|done].
      intros Hx. destruct (Hall _ Hx) as (Hx' & _).
      apply Hx'. apply elem_of_union. right. by apply elem_of_singleton.
    + intros x Hx. apply elem_of_cons in Hx as [->|Hx].
      * split; [done|]. split; [by eexists | done].
      * destruct (Hall _ Hx) as (Hx' & ? & ?). split; [|done].
        intros Hv. apply Hx'. apply elem_of_union. by left.
Qed.

(** With enough fuel for the nodes not yet visited, [_traverse] returns. *)
Lemma _traverse_total :
  wf w →
  ∀ fuel visited path self,
    set_Forall (valid w) visited → valid w self → self ∉ visited →
    length (heap w) < fuel + size visited →
    ∃ rs, _traverse fuel w target direction ignore_state visited path self = Return rs.
Proof.
  intros Hwf. induction fuel as [|fuel IH]; intros visited path self Hvis Hv Hself Hfuel.
  - exfalso. simpl in Hfuel.
    assert (size (visited ∪ {[self]}) ≤ length (heap w)).
    { rewrite <- (size_set_seq (C:=gset nat) 0 (length (heap w))).
      apply subseteq_size. intros x Hx. apply elem_of_set_seq.
      apply elem_of_union in Hx as [Hx|Hx].
      - specialize (Hvis x Hx). unfold valid in Hvis. lia.
      - apply elem_of_singleton in Hx. subst. unfold valid in Hv. lia. }
    rewrite size_union in H by set_solver. rewrite size_singleton in H. lia.
  - destruct (connections_wf w self ignore_state Hwf Hv) as (c & Hc & Hcwf).
    simpl. rewrite Hc. simpl.
    destruct (collect_total
      (λ subgraph, if decide (subgraph ∈ visited ∪ {[self]}) then Return []
                   else _traverse fuel w target direction ignore_state
                          (visited ∪ {[self]}) (path ++ [self]) subgraph)
      (elements (space_of direction c))) as [rest Hrest].
    { intros sub Hsub. destruct (decide _) as [|Hfresh]; [eauto|].
      apply IH; [| |done|].
      - intros x Hx. apply elem_of_union in Hx as [Hx|Hx]; [by apply Hvis|].
        apply elem_of_singleton in Hx. by subst.
      - apply (space_of_wf w direction c Hcwf). by apply elem_of_elements.
      - rewrite size_union by set_solver. rewrite size_singleton. lia. }
    rewrite Hrest. simpl. eauto.
Qed.
End traversal.

Lemma World_eq w w' :
  heap w = heap w' → state_cache w = state_cache w' → _nodes w = _nodes w' → w = w'.
Proof. destruct w, w'. simpl. by intros -> -> ->. Qed.

Lemma names_unique_inj w i j si sj :
  names_unique w → heap w !! i = Some si → heap w !! j = Some sj →
  name (data si) = name (data sj) → i = j.
Proof.
  intros Hnd Hi Hj Heq.
  eapply (NoDup_lookup _ i j (name (data si)) Hnd);
    rewrite list_lookup_fmap; [by rewrite Hi | by rewrite Hj, Heq].
Qed.

Lemma valid_all_nodes w x : x ∈ all_nodes w ↔ valid w x.
Proof. unfold all_nodes, valid. rewrite elem_of_set_seq. lia. Qed.

Lemma step_valid w direction ignore_state x y :
  wf w → step w direction ignore_state x y → valid w y.
Proof.
  intros Hwf (c & Hc & Hy).
  destruct (connections_deref _ _ _ _ Hc) as (s & Hs & _).
  destruct (connections_wf w x ignore_state Hwf) as (c' & Hc' & Hwfc).
  { apply lookup_lt_is_Some_1. by eexists. }
  rewrite Hc in Hc'. injection Hc' as <-.
  by apply (space_of_wf w direction c Hwfc).
Qed.

Lemma traverse_total w condition direction ignore_state self :
  wf w → valid w self →
  ∃ rs, traverse w condition direction ignore_state self = Return rs.
Proof.
  intros Hwf Hv. unfold traverse.
  apply _traverse_total;
    [done | apply set_Forall_empty | done | apply not_elem_of_empty
    | rewrite size_empty; lia].
Qed.

Lemma traverse_yields w condition direction ignore_state self rs m q :
  traverse w condition direction ignore_state self = Return rs →
  (m, q) ∈ rs →
  yields w (default default_condition condition) (λ _, True) ∅ [] self m q.
Proof.
  intros H Hin. unfold traverse in H.
  exact (_traverse_yields w _ direction ignore_state (λ _, True)
           (λ _ _ _ _, I) _ _ _ _ _ H (not_elem_of_empty self) I m q Hin).
Qed.

Lemma Segment_volume_valid w x :
  is_Some (heap w !! x) → ∃ v, Segment_volume w x = Return v.
Proof. intros [s Hs]. unfold Segment_volume, deref. rewrite Hs. simpl. eauto. Qed.

Lemma duplicate_free_bound (R : gset nat) (q : list nat) :
  NoDup q → (∀ x, x ∈ q → x ∈ R) → length q ≤ size R.
Proof.
  intros Hnd Hsub. rewrite <- (size_list_to_set (C:=gset nat) q Hnd).
  apply subseteq_size. intros x Hx. apply Hsub. by apply elem_of_list_to_set in Hx.
Qed.

(** ** The full view contains the resolved view *)

(** C8.  For every node and any registry contents, whenever the resolved
    view [connections(ignore_state=false)] is returned, the full view
    [connections(ignore_state=true)] is returned too and contains it, on the
    children side and on the parents side. *)
Theorem connections_ignore_state_superset w self resolved :
  connections w self false = Return resolved →
  ∃ full, connections w self true = Return full ∧
    children resolved ⊆ children full ∧ parents resolved ⊆ parents full.
Proof.
  intros H. destruct (connections_deref _ _ _ _ H) as (s & Hs & Hr).
  exists (EdgeSet_sum (map_to_list (_connections s)).*2 EdgeSet_init).
  split; [unfold connections, deref; by rewrite Hs|].
  destruct (resolved_edges_in_buckets _ _ _ Hr) as [H1 H2].
  split; intros x Hx.
  - destruct (H1 x Hx) as (st & b & Hst & Hxb).
    apply EdgeSet_sum_children. right. exists b.
    split; [by eapply bucket_in_values | done].
  - destruct (H2 x Hx) as (st & b & Hst & Hxb).
    apply EdgeSet_sum_parents. right. exists b.
    split; [by eapply bucket_in_values | done].
Qed.

Lemma connections_ignore_state_superset_witness :
  connections feedback 1 false = Return (mkEdgeSet {[2]} {[0; 2]}) ∧
  ∃ full, connections feedback 1 true = Return full ∧
    children (mkEdgeSet {[2]} {[0; 2]}) ⊆ children full ∧
    parents (mkEdgeSet {[2]} {[0; 2]}) ⊆ parents full.
Proof.
  assert (H : connections feedback 1 false = Return (mkEdgeSet {[2]} {[0; 2]}))
    by (vm_compute; reflexivity).
  split; [exact H | exact (connections_ignore_state_superset feedback 1 _ H)].
Defined.

(** ** Named-target queries *)

Lemma along_unique_path_single measure final path :
  (∀ x, x ∈ final :: path → ∃ v, measure x = Return v) →
  ∃ v, along_unique_path measure [(final, path)] = Return (Some v).
Proof.
  intros H. simpl.
  destruct (accumulate_total measure 0%Q path) as [total Ht].
  { intros x Hx. apply H. by right. }
  destruct (H final) as [v Hv]; [left|].
  rewrite Ht. simpl. rewrite Hv. simpl. eauto.
Qed.

Lemma volume_to_by_cases w self target_name direction traversals :
  traverse w (Some (named w target_name)) direction false self = Return traversals →
  match traversals with
  | [] => volume_to w self target_name direction = Return None
  | [_] => ∃ v, volume_to w self target_name direction = Return (Some v)
  | _ :: _ :: _ => volume_to w self target_name direction = Raise RuntimeError
  end.
Proof.
  intros H. unfold volume_to. rewrite H. simpl.
  destruct traversals as [|[final path] [|second other]]; [done| |done].
  apply along_unique_path_single. intros x Hx.
  apply Segment_volume_valid.
  destruct (traverse_yields _ _ _ _ _ _ final path H) as (_ & q' & Hq & Hlast & _ & Hall);
    [left|].
  simpl in Hq. subst path.
  apply elem_of_cons in Hx as [->|Hx]; apply Hall; [|done].
  by apply last_Some_elem_of.
Qed.

(** C5.  In a well-formed world [volume_to] is decided by the number of
    paths the traversal finds: it returns [None] exactly when there is none,
    raises [RuntimeError] (the ambiguous-path fault) exactly when there is
    more than one, and returns a computed volume exactly when there is one;
    so an absent result is never a computed volume. *)
Theorem volume_to_outcomes w self target_name direction :
  wf w → valid w self →
  ∃ traversals,
    traverse w (Some (named w target_name)) direction false self = Return traversals ∧
    (volume_to w self target_name direction = Return None ↔ traversals = []) ∧
    (volume_to w self target_name direction = Raise RuntimeError ↔
       1 < length traversals) ∧
    ((∃ v, volume_to w self target_name direction = Return (Some v)) ↔
       length traversals = 1).
Proof.
  intros Hwf Hv.
  destruct (traverse_total w (Some (named w target_name)) direction false self Hwf Hv)
    as [traversals H].
  exists traversals. split; [done|].
  pose proof (volume_to_by_cases _ _ _ _ _ H) as Hc.
  destruct traversals as [|first [|second other]]; simpl in *.
  - rewrite Hc. repeat split; try done; try lia.
    intros [v Hv']. discriminate.
  - destruct Hc as [v Hc]. rewrite Hc. repeat split; try done; try lia.
    eauto.
  - rewrite Hc. repeat split; try done; try lia.
    intros [v Hv']. discriminate.
Qed.

Lemma volume_to_outcomes_witness :
  (wf diamond ∧ valid diamond 0) ∧
  ∃ traversals,
    traverse diamond (Some (named diamond "T")) DOWN false 0 = Return traversals ∧
    (volume_to diamond 0 "T" DOWN = Return None ↔ traversals = []) ∧
    (volume_to diamond 0 "T" DOWN = Raise RuntimeError ↔ 1 < length traversals) ∧
    ((∃ v, volume_to diamond 0 "T" DOWN = Return (Some v)) ↔ length traversals = 1).
Proof.
  assert (Hwf : wf diamond) by decide_by_computation.
  assert (Hv : valid diamond 0) by (vm_compute; lia).
  split; [by split | exact (volume_to_outcomes diamond 0 "T" DOWN Hwf Hv)].
Defined.

(** ** One traversal call *)

Lemma collect_Forall2 {A B} (f : A → outcome (list B)) l rss :
  Forall2 (λ x r, f x = Return r) l rss → collect f l = Return (concat rss).
Proof.
  induction 1 as [|x r l rss Hx _ IH]; simpl; [done|].
  rewrite Hx. simpl. rewrite IH. done.
Qed.

Lemma filter_concat {A} (f : A → bool) (ls : list (list A)) :
  List.filter f (concat ls) = concat (List.filter f <$> ls).
Proof.
  induction ls as [|l ls IH]; simpl; [done|].
  by rewrite List.filter_app, IH.
Qed.

(** The matches of a condition are the entries of the search that satisfy
    it: [visits] loses nothing of the order in which nodes are entered. *)
Lemma _traverse_filter w target direction ignore_state :
  ∀ fuel visited path self rs,
    _traverse fuel w (λ _, true) direction ignore_state visited path self = Return rs →
    _traverse fuel w target direction ignore_state visited path self =
      Return (List.filter (λ r, target r.1) rs).
Proof.
  induction fuel as [|fuel IH]; [discriminate|].
  intros visited path self rs H.
  apply _traverse_Return in H as (c & rss & Hc & HF & ->).
  simpl. rewrite Hc. simpl.
  rewrite (collect_Forall2 _ _ (List.filter (λ r, target r.1) <$> rss)).
  - simpl. rewrite filter_concat. by destruct (target self).
  - apply Forall2_fmap_r. eapply Forall2_impl; [exact HF|].
    intros sub r Hcall. simpl in Hcall. destruct (decide _); [by injection Hcall as <-|].
    by apply IH.
Qed.

(** C4 (as amended).  Within one [traverse] call no node occurs twice on
    the path being explored: every reported path starts at the start node,
    ends at its match, has no duplicate node and stays within any set [R]
    of nodes that contains the start and is closed under the search step,
    so its length is at most the number of reachable nodes.  (A node may
    still be entered again along a different path.) *)
Theorem traverse_paths_are_simple w condition direction ignore_state self
    (R : gset nat) rs :
  traverse w condition direction ignore_state self = Return rs →
  self ∈ R →
  (∀ x y, x ∈ R → step w direction ignore_state x y → y ∈ R) →
  ∀ m q, (m, q) ∈ rs →
    NoDup q ∧ head q = Some self ∧ last q = Some m ∧
    (∀ x, x ∈ q → x ∈ R) ∧ length q ≤ size R.
Proof.
  intros H Hself Hclosed m q Hin. unfold traverse in H.
  destruct (_traverse_yields w _ direction ignore_state (λ x, x ∈ R) Hclosed
              _ _ _ _ _ H (not_elem_of_empty self) Hself m q Hin)
    as (_ & q' & -> & Hlast & Hnd & Hall).
  simpl. split_and!; try done.
  - intros x Hx. by apply Hall.
  - apply (duplicate_free_bound R (self :: q')); [done|]. intros x Hx. by apply Hall.
Qed.

Lemma traverse_paths_are_simple_witness :
  traverse diamond (Some (named diamond "T")) DOWN false 0 =
    Return [(3, [0; 2; 3]); (3, [0; 1; 3])] ∧
  0 ∈ all_nodes diamond ∧
  NoDup [0; 2; 3] ∧ head [0; 2; 3] = Some 0 ∧ last [0; 2; 3] = Some 3 ∧
  (∀ x, x ∈ [0; 2; 3] → x ∈ all_nodes diamond) ∧
  length [0; 2; 3] ≤ size (all_nodes diamond).
Proof.
  assert (Hwf : wf diamond) by decide_by_computation.
  assert (Hrun : traverse diamond (Some (named diamond "T")) DOWN false 0 =
                 Return [(3, [0; 2; 3]); (3, [0; 1; 3])]) by (vm_compute; reflexivity).
  assert (Hstart : 0 ∈ all_nodes diamond) by (apply valid_all_nodes; vm_compute; lia).
  split; [exact Hrun|]. split; [exact Hstart|].
  apply (traverse_paths_are_simple diamond (Some (named diamond "T")) DOWN false 0
           (all_nodes diamond) _ Hrun Hstart).
  - intros x y _ Hstep. apply valid_all_nodes. by eapply step_valid.
  - left.
Defined.

(** C4 as stated fails: in one call on the diamond, node T (reference 3)
    is entered twice, once along each route. *)
Lemma traverse_revisits_a_node :
  ¬ (∀ vs, visits diamond DOWN false 0 = Return vs → NoDup vs).
Proof.
  intros H. specialize (H [0; 2; 3; 1; 3] ltac:(vm_compute; reflexivity)).
  apply NoDup_cons_1_2, NoDup_cons_1_2, NoDup_cons_1_1 in H.
  apply H. right. left.
Qed.

(** C2 (the code's behaviour).  The default condition is
    [not n.has_children] with the method never called: it is false of every
    node, so [traverse()] without a condition reports nothing at all, leaves
    included. *)
Theorem traverse_default_condition_finds_nothing w direction ignore_state self :
  wf w → valid w self → traverse w None direction ignore_state self = Return [].
Proof.
  intros Hwf Hv.
  destruct (traverse_total w None direction ignore_state self Hwf Hv) as [rs H].
  rewrite H. f_equal. destruct rs as [|[m q] rs]; [done|]. exfalso.
  destruct (traverse_yields _ _ _ _ _ _ m q H) as (Hm & _); [left|].
  discriminate.
Qed.

Lemma traverse_default_condition_finds_nothing_witness :
  (wf lone ∧ valid lone 0) ∧
  has_children lone 0 false = Return 0 ∧
  traverse lone None DOWN false 0 = Return [].
Proof.
  assert (Hwf : wf lone) by decide_by_computation.
  assert (Hv : valid lone 0) by (vm_compute; lia).
  split; [done|]. split; [vm_compute; reflexivity|].
  exact (traverse_default_condition_finds_nothing lone DOWN false 0 Hwf Hv).
Defined.

(** ** Wiring: what [connect] writes *)

Lemma setdefault_lookup `{Countable K} {V} (k : K) (v : V) (m : gmap K V) :
  setdefault k v m !! k = Some (default v (m !! k)).
Proof.
  unfold setdefault. destruct (m !! k) eqn:E; simpl; [done|].
  apply lookup_insert_eq.
Qed.

Lemma setdefault_preserves `{Countable K} {V} (k k' : K) (v v' : V) (m : gmap K V) :
  m !! k' = Some v' → setdefault k v m !! k' = Some v'.
Proof.
  unfold setdefault. intros H'. destruct (m !! k) eqn:E; [done|].
  rewrite lookup_insert_ne; [done|]. intros ->. congruence.
Qed.

Lemma setdefault_idem `{Countable K} {V} (k : K) (v : V) (m : gmap K V) :
  setdefault k v (setdefault k v m) = setdefault k v m.
Proof.
  unfold setdefault at 1. by rewrite setdefault_lookup.
Qed.

Lemma wire_state_ids edit g st n : g ∈ _state_ids (wire edit (Some g) st n).
Proof. simpl. apply elem_of_union. right. by apply elem_of_singleton. Qed.

Lemma wire_bucket edit cid st n :
  _connections (wire edit cid st n) !! st =
    Some (edit (default EdgeSet_init (_connections n !! st))).
Proof. simpl. rewrite lookup_alter_eq, setdefault_lookup. done. Qed.

Lemma wire_name edit cid st n : name (data (wire edit cid st n)) = name (data n).
Proof. done. Qed.

Lemma heap_register_node w other : heap (register_node w other) = heap w.
Proof. unfold register_node. by destruct (heap w !! other). Qed.

Lemma state_cache_register_node w other :
  state_cache (register_node w other) = state_cache w.
Proof. unfold register_node. by destruct (heap w !! other). Qed.

Lemma _nodes_register_node w other :
  _nodes (register_node w other) =
    match name_of w other with
    | Some nm => setdefault nm other (_nodes w)
    | None => _nodes w
    end.
Proof. unfold register_node, name_of. by destruct (heap w !! other). Qed.

Lemma name_of_alter_wire w edit cid st self i :
  (λ s, name (data s)) <$> alter (wire edit cid st) self (heap w) !! i = name_of w i.
Proof.
  unfold name_of. destruct (decide (self = i)) as [->|Hne].
  - rewrite list_lookup_alter_eq. by destruct (heap w !! i).
  - by rewrite list_lookup_alter_ne.
Qed.

Lemma _add_child_wiring : wiring_call _add_child.
Proof.
  intros w self child cid st. unfold _add_child. split.
  - intros i. unfold name_of at 1. rewrite heap_register_node. simpl.
    apply name_of_alter_wire.
  - rewrite _nodes_register_node. unfold name_of at 1. simpl.
    by rewrite name_of_alter_wire.
Qed.

Lemma _add_parent_wiring : wiring_call _add_parent.
Proof.
  intros w self parent cid st. unfold _add_parent. split.
  - intros i. unfold name_of at 1. rewrite heap_register_node. simpl.
    apply name_of_alter_wire.
  - rewrite _nodes_register_node. unfold name_of at 1. simpl.
    by rewrite name_of_alter_wire.
Qed.

(** What one wiring call does to the registry: entries are kept, and the
    name of [other] is an entry afterwards, [other] itself if it was free. *)
Lemma wiring_call_registry op w self other cid st nm :
  wiring_call op → name_of w other = Some nm →
  (∀ k i, _nodes w !! k = Some i → _nodes (op w self other cid st) !! k = Some i) ∧
  _nodes (op w self other cid st) !! nm = Some (default other (_nodes w !! nm)).
Proof.
  intros Hop Hnm. destruct (Hop w self other cid st) as [_ ->]. rewrite Hnm.
  split; [intros k i; apply setdefault_preserves | apply setdefault_lookup].
Qed.

Lemma wiring_call_keeps op w self other cid st k i :
  wiring_call op → _nodes w !! k = Some i →
  _nodes (op w self other cid st) !! k = Some i.
Proof.
  intros Hop Hk. destruct (Hop w self other cid st) as [_ ->].
  destruct (name_of w other); [by apply setdefault_preserves | done].
Qed.

Lemma resolved_contains_active_bucket w n g st b x e :
  g ∈ _state_ids n → state_cache w !! g = Some st →
  _connections n !! st = Some b → x ∈ children b →
  connections_of w n false = Return e → x ∈ children e.
Proof.
  intros Hg Hst Hb Hx H. unfold connections_of in H.
  apply bind_Return in H as (buckets & Hbs & H).
  destruct (_connections n !! CONSISTENT) as [start|]; [|discriminate].
  injection H as <-. apply for_each_Return in Hbs.
  apply elem_of_elements, list_elem_of_lookup in Hg as [i Hi].
  destruct (Forall2_lookup_l _ _ _ _ _ Hbs Hi) as (bi & Hbi & Hact).
  unfold active_bucket in Hact. rewrite Hst, Hb in Hact. injection Hact as <-.
  apply EdgeSet_sum_children. right. exists b. split; [|done].
  apply list_elem_of_lookup. eauto.
Qed.

(** C1 (as amended).  Connecting [n] to a target under [(g, s)] registers
    [g] on [n], files the target in [n]'s bucket [s], and writes the
    registry with [setdefault]: a group that has no value yet gets [s] as
    its active value, a group that has one keeps it.  So without any
    [set_state] call the resolved view of [n] already contains the target,
    through bucket [s]. *)
Theorem connect_for_state_activates_first_state w self target g s n :
  heap w !! self = Some n →
  let w' := connect w self [target] (Some (Some g, s)) DOWN in
  state_cache w' !! g = Some (default s (state_cache w !! g)) ∧
  ∃ n' b, heap w' !! self = Some n' ∧ g ∈ _state_ids n' ∧
          _connections n' !! s = Some b ∧ target ∈ children b ∧
          ∀ resolved, state_cache w !! g = None →
            connections w' self false = Return resolved → target ∈ children resolved.
Proof.
  intros Hn w'.
  assert (Hcache : state_cache w' !! g = Some (default s (state_cache w !! g))).
  { subst w'. unfold connect, connect_one, _add_parent, _add_child. simpl.
    rewrite !state_cache_register_node. simpl.
    rewrite state_cache_register_node. simpl.
    by rewrite setdefault_idem, setdefault_lookup. }
  split; [done|].
  assert (Hheap : heap w' =
            alter (wire (add_to_parents self) (Some g) s) target
              (alter (wire (add_to_children target) (Some g) s) self (heap w))).
  { subst w'. unfold connect, connect_one, _add_parent, _add_child. simpl.
    rewrite !heap_register_node. simpl. by rewrite heap_register_node. }
  assert (Hmid : alter (wire (add_to_children target) (Some g) s) self (heap w) !! self
                 = Some (wire (add_to_children target) (Some g) s n)).
  { rewrite list_lookup_alter_eq, Hn. done. }
  assert (Hnode : ∃ n' b, heap w' !! self = Some n' ∧ g ∈ _state_ids n' ∧
            _connections n' !! s = Some b ∧ target ∈ children b).
  { rewrite Hheap. destruct (decide (target = self)) as [->|Hne].
    - rewrite list_lookup_alter_eq, Hmid. simpl.
      eexists _, _. split; [reflexivity|]. split; [apply wire_state_ids|].
      split; [apply wire_bucket|]. rewrite wire_bucket. simpl.
      apply elem_of_union. right. by apply elem_of_singleton.
    - rewrite list_lookup_alter_ne by done. rewrite Hmid.
      eexists _, _. split; [reflexivity|]. split; [apply wire_state_ids|].
      split; [apply wire_bucket|]. simpl.
      apply elem_of_union. right. by apply elem_of_singleton. }
  destruct Hnode as (n' & b & Hn' & Hg & Hb & Ht).
  exists n', b. split_and!; try done.
  intros resolved Hfree Hres.
  destruct (connections_deref _ _ _ _ Hres) as (n'' & Hn'' & Hof).
  rewrite Hn' in Hn''. injection Hn'' as <-.
  rewrite Hfree in Hcache. simpl in Hcache.
  by eapply resolved_contains_active_bucket.
Qed.

Lemma connect_for_state_activates_first_state_witness :
  heap (network [("a", 1%Q); ("b", 2%Q)]) !! 0 =
    Some (mkSegment (mkVolume "a" 1 0) ∅ {[ CONSISTENT := EdgeSet_init ]}) ∧
  state_cache gated !! "g" = Some "s" ∧
  ∃ n' b, heap gated !! 0 = Some n' ∧ "g" ∈ _state_ids n' ∧
          _connections n' !! "s" = Some b ∧ 1 ∈ children b ∧
          ∀ resolved, state_cache (network [("a", 1%Q); ("b", 2%Q)]) !! "g" = None →
            connections gated 0 false = Return resolved → 1 ∈ children resolved.
Proof.
  assert (H : heap (network [("a", 1%Q); ("b", 2%Q)]) !! 0 =
    Some (mkSegment (mkVolume "a" 1 0) ∅ {[ CONSISTENT := EdgeSet_init ]}))
    by (vm_compute; reflexivity).
  split; [exact H|].
  exact (connect_for_state_activates_first_state
           (network [("a", 1%Q); ("b", 2%Q)]) 0 1 "g" "s" _ H).
Defined.

(** C1 as stated fails: [gated] is built by [connect] alone, no
    [set_state] call is ever made, yet group "g" has the active value "s"
    and the resolved view of node a holds b, which its CONSISTENT bucket
    does not. *)
Lemma connect_alone_activates_the_bucket :
  state_cache gated !! "g" = Some "s" ∧
  ∃ n resolved consistent,
    heap gated !! 0 = Some n ∧
    _connections n !! CONSISTENT = Some consistent ∧
    connections gated 0 false = Return resolved ∧
    1 ∈ children resolved ∧ 1 ∉ children consistent.
Proof.
  split; [vm_compute; reflexivity|].
  eexists _, (mkEdgeSet {[1]} ∅), EdgeSet_init.
  split; [vm_compute; reflexivity|].
  split; [vm_compute; reflexivity|].
  split; [vm_compute; reflexivity|].
  split; simpl; [by apply elem_of_singleton | apply not_elem_of_empty].
Qed.

(** ** The registry *)

Lemma extends_refl w : extends w w.
Proof. by split. Qed.

Lemma extends_trans w1 w2 w3 : extends w1 w2 → extends w2 w3 → extends w1 w3.
Proof.
  intros [H1 H2] [H1' H2']. split.
  - intros i. by rewrite H1', H1.
  - intros k i Hk. by apply H2', H2.
Qed.

Lemma wiring_call_extends op w self other cid st :
  wiring_call op → extends w (op w self other cid st).
Proof.
  intros Hop. split; [apply Hop|].
  intros k i. by apply wiring_call_keeps.
Qed.

(** The two calls [connect] makes for one relation: [other] is registered
    by the first, [self] by the second. *)
Lemma wiring_pair op1 op2 w self target cid st ns nt :
  wiring_call op1 → wiring_call op2 →
  name_of w self = Some ns → name_of w target = Some nt →
  let w' := op2 (op1 w self target cid st) target self cid st in
  extends w w' ∧
  _nodes w' !! nt = Some (default target (_nodes w !! nt)) ∧
  is_Some (_nodes w' !! ns).
Proof.
  intros H1 H2 Hs Ht w'.
  pose proof (wiring_call_extends op1 w self target cid st H1) as E1.
  pose proof (wiring_call_extends op2 (op1 w self target cid st) target self cid st H2) as E2.
  destruct (wiring_call_registry op1 w self target cid st nt H1 Ht) as [_ R1].
  destruct (wiring_call_registry op2 (op1 w self target cid st) target self cid st ns H2)
    as [_ R2]; [by rewrite (proj1 E1)|].
  split; [by eapply extends_trans|]. split.
  - by apply (proj2 E2).
  - subst w'. rewrite R2. by eexists.
Qed.

Lemma connect_one_registry w self target for_state direction ns nt :
  name_of w self = Some ns → name_of w target = Some nt →
  let w' := connect_one w self target for_state direction in
  extends w w' ∧
  _nodes w' !! nt = Some (default target (_nodes w !! nt)) ∧
  is_Some (_nodes w' !! ns).
Proof.
  intros Hs Ht. destruct direction; unfold connect_one; simpl.
  - apply wiring_pair; auto using _add_child_wiring, _add_parent_wiring.
  - apply wiring_pair; auto using _add_child_wiring, _add_parent_wiring.
  - destruct (wiring_pair _add_child _add_parent w self target for_state.1 for_state.2
                ns nt _add_child_wiring _add_parent_wiring Hs Ht) as (E1 & R1 & S1).
    set (w1 := _add_parent (_add_child w self target for_state.1 for_state.2)
                 target self for_state.1 for_state.2) in *.
    destruct (wiring_pair _add_parent _add_child w1 self target for_state.1 for_state.2
                ns nt _add_parent_wiring _add_child_wiring) as (E2 & _ & S2).
    { by rewrite (proj1 E1). }
    { by rewrite (proj1 E1). }
    split; [by eapply extends_trans|]. split; [|done].
    by apply (proj2 E2).
Qed.

Lemma connect_cons w self target targets for_state direction :
  connect w self (target :: targets) for_state direction =
    connect (connect_one w self target (default (None, CONSISTENT) for_state) direction)
      self targets for_state direction.
Proof. done. Qed.

(** [connect] keeps every registry entry and registers both ends of every
    relation it makes. *)
Lemma connect_registry targets : ∀ w self for_state direction ns,
  name_of w self = Some ns → (∀ t, t ∈ targets → is_Some (name_of w t)) →
  let w' := connect w self targets for_state direction in
  extends w w' ∧
  (∀ t nt, t ∈ targets → name_of w t = Some nt → is_Some (_nodes w' !! nt)) ∧
  (targets ≠ [] → is_Some (_nodes w' !! ns)).
Proof.
  induction targets as [|x targets IH]; intros w self for_state direction ns Hs Hts.
  - split; [apply extends_refl|]. split; [|done]. intros t nt Ht. inversion Ht.
  - destruct (Hts x) as [nx Hx]; [left|].
    destruct (connect_one_registry w self x (default (None, CONSISTENT) for_state)
                direction ns nx Hs Hx) as (E1 & R1 & S1).
    set (w1 := connect_one w self x (default (None, CONSISTENT) for_state) direction) in *.
    destruct (IH w1 self for_state direction ns) as (E2 & R2 & _).
    { by rewrite (proj1 E1). }
    { intros t Ht. rewrite (proj1 E1). apply Hts. by right. }
    cbv zeta. rewrite connect_cons. fold w1.
    split; [by eapply extends_trans|]. split.
    + intros t nt Ht Hnt. apply elem_of_cons in Ht as [->|Ht].
      * rewrite Hx in Hnt. injection Hnt as <-.
        apply (proj2 E2) in R1. by eexists.
      * apply (R2 t nt); [done|]. by rewrite (proj1 E1).
    + intros _. destruct S1 as [i Hi]. apply (proj2 E2) in Hi. by eexists.
Qed.

(** ** Flow rates are scratch state: what the queries leave unchanged *)

Lemma same_wiring_refl s : same_wiring s s.
Proof. by repeat split. Qed.

Lemma same_wiring_set_flow_rate q s : same_wiring s (set_flow_rate q s).
Proof. by repeat split. Qed.

Lemma rates_only_refl w : rates_only w w.
Proof.
  split; [|done]. apply Forall2_same_length_lookup. split; [done|].
  intros i s s' H1 H2. rewrite H1 in H2. injection H2 as <-. apply same_wiring_refl.
Qed.

Lemma rates_only_trans w1 w2 w3 : rates_only w1 w2 → rates_only w2 w3 → rates_only w1 w3.
Proof.
  intros (H1 & H2 & H3) (H1' & H2' & H3').
  split; [|split; congruence].
  eapply Forall2_trans; [|exact H1|exact H1'].
  intros s1 s2 s3 (?&?&?&?) (?&?&?&?). repeat split; congruence.
Qed.

Lemma rates_only_assign segment q w : rates_only w (assign_flow_rate segment q w).
Proof.
  split; [|done]. simpl. apply Forall2_same_length_lookup.
  split; [by rewrite length_alter|].
  intros i s s' H1 H2. destruct (decide (segment = i)) as [->|Hne].
  - rewrite list_lookup_alter_eq, H1 in H2. injection H2 as <-.
    apply same_wiring_set_flow_rate.
  - rewrite list_lookup_alter_ne, H1 in H2 by done. injection H2 as <-.
    apply same_wiring_refl.
Qed.

Lemma rates_only_foldl {A} (f : World → A → World) (l : list A) w :
  (∀ w x, rates_only w (f w x)) → rates_only w (foldl f w l).
Proof.
  intros Hf. revert w. induction l as [|x l IH]; simpl; intros w.
  - apply rates_only_refl.
  - eapply rates_only_trans; [apply Hf | apply IH].
Qed.

Lemma rates_only_reset w : rates_only w (reset_flow_rates w).
Proof. apply rates_only_foldl. intros; apply rates_only_assign. Qed.

Lemma rates_only_seed src w : rates_only w (seed_sources src w).
Proof.
  apply rates_only_foldl. intros w' kv.
  destruct (_nodes w' !! kv.1); [apply rates_only_assign | apply rates_only_refl].
Qed.

Lemma rates_only_length w w' : rates_only w w' → length (heap w') = length (heap w).
Proof. intros (H & _). symmetry. by eapply Forall2_length. Qed.

Lemma rates_only_valid w w' i : rates_only w w' → valid w i → valid w' i.
Proof. intros H. unfold valid. by rewrite (rates_only_length _ _ H). Qed.

Lemma rates_only_wf w w' : rates_only w w' → wf w → wf w'.
Proof.
  intros Hr [Hheap Hnodes]. pose proof Hr as (HF & Hc & Hn).
  assert (Hedge : ∀ e, wf_EdgeSet w e → wf_EdgeSet w' e).
  { intros e [H1 H2]. split; intros x Hx; eapply rates_only_valid; eauto. }
  split.
  - apply Forall_lookup_2. intros i s' Hs'.
    destruct (Forall2_lookup_r _ _ _ _ _ HF Hs') as (s & Hs & (_ & _ & Hids & Hconn)).
    destruct (Forall_lookup_1 _ _ _ _ Hheap Hs) as (H1 & H2 & H3).
    unfold wf_Segment. rewrite <- Hids, <- Hconn, <- Hc.
    split; [done|]. split; [done|].
    intros st e He. apply Hedge. exact (H3 st e He).
  - rewrite <- Hn. intros nm i Hi. eapply rates_only_valid; [done|].
    exact (Hnodes nm i Hi).
Qed.

Lemma connections_of_same_wiring w w' s s' ign :
  same_wiring s s' → state_cache w = state_cache w' →
  connections_of w' s' ign = connections_of w s ign.
Proof.
  intros (_ & _ & Hids & Hconn) Hc. unfold connections_of.
  rewrite <- Hids, <- Hconn. destruct ign; [done|].
  rewrite (for_each_ext (active_bucket w' s') (active_bucket w s)); [done|].
  intros g _. unfold active_bucket. by rewrite <- Hc, <- Hconn.
Qed.

Lemma rates_only_connections w w' i ign :
  rates_only w w' → connections w' i ign = connections w i ign.
Proof.
  intros (HF & Hc & _). unfold connections, deref.
  destruct (heap w' !! i) as [s'|] eqn:Hs'.
  - destruct (Forall2_lookup_r _ _ _ _ _ HF Hs') as (s & Hs & Hsame).
    rewrite Hs. simpl. by apply connections_of_same_wiring.
  - destruct (heap w !! i) as [s|] eqn:Hs; [|done].
    destruct (Forall2_lookup_l _ _ _ _ _ HF Hs) as (s' & Hs'' & _). congruence.
Qed.

(** ** The fixed-point loop *)

Lemma flow_rate_valid w seg : valid w seg → ∃ q, flow_rate w seg = Return q.
Proof.
  intros Hv. destruct (lookup_lt_is_Some_2 _ _ Hv) as [s Hs].
  unfold flow_rate, deref. rewrite Hs. simpl. eauto.
Qed.

Lemma inflow_total w seg : wf w → valid w seg → ∃ q, inflow w seg = Return q.
Proof.
  intros Hwf Hv. destruct (connections_wf w seg false Hwf Hv) as (c & Hc & _ & Hp).
  unfold inflow. rewrite Hc. simpl. apply accumulate_total.
  intros x Hx. apply flow_rate_valid, Hp. by apply elem_of_elements.
Qed.

Lemma update_record_spec w nm seg flag old_value new_value :
  flow_rate w seg = Return old_value → inflow w seg = Return new_value →
  update_record (nm, (seg, flag)) w =
    if Qeq_bool old_value new_value then (Return (nm, (seg, false)), w)
    else (Return (nm, (seg, true)), assign_flow_rate seg new_value w).
Proof.
  intros Ho Hn. unfold update_record, and_then, query, update, unit_action. simpl.
  rewrite Ho, Hn. by destruct (Qeq_bool old_value new_value).
Qed.

Lemma one_pass_cons rec recs w :
  one_pass (rec :: recs) w =
    match update_record rec w with
    | (Return rec', w1) =>
      match one_pass recs w1 with
      | (Return rest, w2) => (Return (rec' :: rest), w2)
      | (Raise e, w2) => (Raise e, w2)
      | (Stuck, w2) => (Stuck, w2)
      end
    | (Raise e, w1) => (Raise e, w1)
    | (Stuck, w1) => (Stuck, w1)
    end.
Proof.
  simpl. unfold and_then at 1. destruct (update_record rec w) as [[rec'| |] w1]; [|done..].
  unfold and_then. by destruct (one_pass recs w1) as [[rest| |] w2].
Qed.

(** In a well-formed world a pass runs to its end; it writes flow rates
    only, and if it flags no record it has written nothing. *)
Lemma one_pass_spec recs : ∀ w,
  wf w → Forall (valid w) (segments recs) →
  ∃ recs' w', one_pass recs w = (Return recs', w') ∧ rates_only w w' ∧
    segments recs' = segments recs ∧
    (any_updated recs' = false → w' = w ∧ settled w (segments recs)).
Proof.
  induction recs as [|[nm [seg flag]] recs IH]; intros w Hwf Hv.
  - exists [], w. split; [done|]. split; [apply rates_only_refl|].
    split; [done|]. intros _. split; [done | constructor].
  - apply Forall_cons in Hv as [Hseg Hv]. simpl in Hseg.
    destruct (flow_rate_valid w seg Hseg) as [old_value Ho].
    destruct (inflow_total w seg Hwf Hseg) as [new_value Hn].
    rewrite one_pass_cons, (update_record_spec _ _ _ _ _ _ Ho Hn).
    destruct (Qeq_bool old_value new_value) eqn:Heq.
    + destruct (IH w Hwf Hv) as (rest & w' & Hrest & Hr & Hsegs & Hquiet).
      rewrite Hrest. exists ((nm, (seg, false)) :: rest), w'.
      split; [done|]. split; [done|]. split; [simpl; by rewrite Hsegs|].
      simpl. intros Hq. destruct (Hquiet Hq) as [-> Hs]. split; [done|].
      constructor; [|done]. by exists old_value, new_value.
    + pose proof (rates_only_assign seg new_value w) as Hr1.
      destruct (IH (assign_flow_rate seg new_value w)) as (rest & w' & Hrest & Hr & Hsegs & _).
      { by eapply rates_only_wf. }
      { eapply Forall_impl; [exact Hv|]. intros x. by apply rates_only_valid. }
      rewrite Hrest. exists ((nm, (seg, true)) :: rest), w'.
      split; [done|]. split; [by eapply rates_only_trans|].
      split; [simpl; by rewrite Hsegs|]. simpl. discriminate.
Qed.

Lemma converge_S fuel _iterations recs w :
  converge (S fuel) _iterations recs w =
    match one_pass recs w with
    | (Return recs', w1) =>
      if 1000 <? S _iterations then (Raise TimeoutError, w1)
      else if any_updated recs' then converge fuel (S _iterations) recs' w1
      else (Return (S _iterations), w1)
    | (Raise e, w1) => (Raise e, w1)
    | (Stuck, w1) => (Stuck, w1)
    end.
Proof.
  change (converge (S fuel) _iterations recs w) with
    (and_then (one_pass recs) (λ recs',
       if 1000 <? S _iterations then raise TimeoutError
       else if any_updated recs' then converge fuel (S _iterations) recs'
       else unit_action (S _iterations)) w).
  unfold and_then. destruct (one_pass recs w) as [[recs'| |] w1]; [|done..].
  destruct (1000 <? S _iterations); [done|]. by destruct (any_updated recs').
Qed.


(** ** A feedback loop does not converge *)

Section feedback_loop.
Context (rate : Q) (Hrate : (0 < rate)%Q).

Lemma feedback_seeded :
  seed_sources [("S", rate)] (reset_flow_rates feedback) = feedback_at rate 0 0.
Proof. vm_compute. reflexivity. Qed.

Lemma feedback_paths a b :
  find_paths (feedback_at rate a b) "T" ["S"] ["S"] (mkPaths [] ∅ []) =
    Return (mkPaths [("A", (1, false)); ("B", (2, false))] {[0]} [[0; 1; 2; 3]]).
Proof. vm_compute. reflexivity. Qed.

Lemma feedback_rate_A a b : flow_rate (feedback_at rate a b) 1 = Return a.
Proof. vm_compute. reflexivity. Qed.

Lemma feedback_rate_B a b : flow_rate (feedback_at rate a b) 2 = Return b.
Proof. vm_compute. reflexivity. Qed.

(** A is fed by S and, through the loop, by B. *)
Lemma feedback_inflow_A a b : inflow (feedback_at rate a b) 1 = Return (0 + b + rate)%Q.
Proof. vm_compute. reflexivity. Qed.

Lemma feedback_inflow_B a b : inflow (feedback_at rate a b) 2 = Return (0 + a)%Q.
Proof. vm_compute. reflexivity. Qed.

Lemma feedback_assign_A a b x :
  assign_flow_rate 1 x (feedback_at rate a b) = feedback_at rate x b.
Proof. vm_compute. reflexivity. Qed.

Lemma feedback_assign_B a b x :
  assign_flow_rate 2 x (feedback_at rate a b) = feedback_at rate a x.
Proof. vm_compute. reflexivity. Qed.

Lemma Qeq_bool_false x y : ¬ (x == y)%Q → Qeq_bool x y = false.
Proof.
  intros H. destruct (Qeq_bool x y) eqn:E; [|done].
  by apply Qeq_bool_iff in E.
Qed.

(** While A and B carry equal rates, a pass raises both by [rate]. *)
Lemma feedback_pass a b flagA flagB :
  (a == b)%Q →
  one_pass [("A", (1, flagA)); ("B", (2, flagB))] (feedback_at rate a b) =
    (Return [("A", (1, true)); ("B", (2, true))],
     feedback_at rate (0 + b + rate) (0 + (0 + b + rate))).
Proof.
  intros Hab. rewrite one_pass_cons.
  rewrite (update_record_spec _ _ _ _ _ _ (feedback_rate_A a b) (feedback_inflow_A a b)).
  rewrite Qeq_bool_false by lra. rewrite feedback_assign_A.
  rewrite one_pass_cons.
  rewrite (update_record_spec _ _ _ _ _ _ (feedback_rate_B _ b) (feedback_inflow_B _ b)).
  rewrite Qeq_bool_false by lra. rewrite feedback_assign_B. done.
Qed.

Lemma feedback_diverges : ∀ fuel _iterations a b flagA flagB,
  (a == b)%Q → _iterations ≤ 1000 → 1001 ≤ fuel + _iterations →
  ∃ w', converge fuel _iterations [("A", (1, flagA)); ("B", (2, flagB))]
          (feedback_at rate a b) = (Raise TimeoutError, w').
Proof.
  induction fuel as [|fuel IH]; intros it a b flagA flagB Hab Hit Hfuel; [lia|].
  rewrite converge_S, (feedback_pass a b flagA flagB Hab).
  destruct (1000 <? S it) eqn:Hcap; [eauto|].
  apply Nat.ltb_ge in Hcap. apply IH; [lra | lia | lia].
Qed.

Lemma feedback_build self :
  ∃ w', _build_flow_rates_between self "T" [("S", rate)] feedback =
          (Raise TimeoutError, w').
Proof.
  destruct (feedback_diverges 1001 0 0%Q 0%Q false false) as [w' Hw'];
    [lra | lia | lia |].
  exists w'.
  assert (Hreg : bool_decide (is_Some (_nodes feedback !! "T")) = true)
    by (vm_compute; reflexivity).
  unfold _build_flow_rates_between, and_then, query, update, raise, unit_action.
  rewrite Hreg. change (negb true) with false. cbv beta iota.
  change ([("S", rate)].*1) with ["S"].
  rewrite feedback_seeded, feedback_paths.
  change (path_elements _) with [("A", (1, false)); ("B", (2, false))].
  by rewrite Hw'.
Qed.
End feedback_loop.

(** ** The error path of the queries *)

(** A fault of the propagation other than [LookupError] passes through
    the query untouched, with the world the propagation had reached. *)
Lemma time_from_raises self src w nm e w' :
  Segment_name w self = Return nm →
  _build_flow_rates_between self nm src w = (Raise e, w') →
  is_LookupError e = false →
  time_from self src w = (Raise e, w').
Proof.
  intros Hnm Hbuild He.
  unfold time_from, and_then, query, except_LookupError.
  rewrite Hnm. cbv beta iota. rewrite Hbuild. cbv beta iota. by rewrite He.
Qed.

Lemma check_flow_stability_from_raises self critical_flow_ratio src w nm e w' :
  Segment_name w self = Return nm →
  _build_flow_rates_between self nm src w = (Raise e, w') →
  is_LookupError e = false →
  check_flow_stability_from self critical_flow_ratio src w = (Raise e, w').
Proof.
  intros Hnm Hbuild He.
  unfold check_flow_stability_from, and_then, query, except_LookupError.
  rewrite Hnm. cbv beta iota. rewrite Hbuild. cbv beta iota. by rewrite He.
Qed.

(** The loop counted in passes: started after [it] passes that each
    flagged a change, it stops at the first pass that flags none, or at the
    end of pass 1001. *)
Lemma passes_S n recs w recs1 w1 :
  passes n recs w = (Return recs1, w1) →
  passes (S n) recs w = one_pass recs1 w1.
Proof.
  intros H.
  change (passes (S n) recs w) with
    (and_then (passes n recs) (λ recs', one_pass recs') w).
  unfold and_then. by rewrite H.
Qed.

Lemma converge_counts : ∀ fuel it recs0 w0 recs w,
  it ≤ 1000 → 1001 ≤ fuel + it →
  wf w → Forall (valid w) (segments recs) →
  passes it recs0 w0 = (Return recs, w) →
  (∀ k, 0 < k ≤ it →
     ∃ rk wk, passes k recs0 w0 = (Return rk, wk) ∧ any_updated rk = true) →
  ∃ n recs' w',
    it < n ∧ passes n recs0 w0 = (Return recs', w') ∧ rates_only w w' ∧
    (∀ k, 0 < k < n →
       ∃ rk wk, passes k recs0 w0 = (Return rk, wk) ∧ any_updated rk = true) ∧
    ((n ≤ 1000 ∧ any_updated recs' = false ∧ settled w' (segments recs) ∧
      converge fuel it recs w = (Return n, w')) ∨
     (n = 1001 ∧ converge fuel it recs w = (Raise TimeoutError, w'))).
Proof.
  induction fuel as [|fuel IH]; intros it recs0 w0 recs w Hit Hfuel Hwf Hv Hp Hbefore;
    [lia|].
  destruct (one_pass_spec recs w Hwf Hv) as (recs1 & w1 & Hpass & Hr & Hsegs & Hquiet).
  assert (Hp1 : passes (S it) recs0 w0 = (Return recs1, w1)).
  { by rewrite (passes_S _ _ _ _ _ Hp). }
  rewrite converge_S, Hpass. destruct (1000 <? S it) eqn:Hcap.
  - apply Nat.ltb_lt in Hcap. exists (S it), recs1, w1.
    split_and!; [lia | done | done | |].
    + intros k Hk. apply Hbefore. lia.
    + right. split; [lia | done].
  - apply Nat.ltb_ge in Hcap. destruct (any_updated recs1) eqn:Hup.
    + destruct (IH (S it) recs0 w0 recs1 w1) as (n & recs' & w' & Hn & Hpn & Hr' & Hall & Hend);
        [lia | lia | by eapply rates_only_wf | | done | |].
      { rewrite Hsegs. eapply Forall_impl; [exact Hv|].
        intros x. by apply rates_only_valid. }
      { intros k Hk. destruct (decide (k = S it)) as [->|Hne]; [eauto|].
        apply Hbefore. lia. }
      exists n, recs', w'. split_and!; [lia | done | by eapply rates_only_trans | done |].
      rewrite <- Hsegs. exact Hend.
    + destruct (Hquiet eq_refl) as [-> Hs]. exists (S it), recs1, w.
      split_and!; [lia | done | done | |].
      * intros k Hk. apply Hbefore. lia.
      * left. split_and!; [lia | done | done | done].
Qed.

Lemma inject_Z_pos z : (0 < z)%Z → (0 < inject_Z z)%Q.
Proof. intros H. unfold Qlt, inject_Z. simpl. lia. Qed.

(** C6 (as amended).  The fixed-point loop always terminates, and after at
    most 1001 passes.  In a well-formed world, on records of constructed
    nodes, the loop as [_build_flow_rates_between] runs it makes [n] passes
    and writes flow rates only; each pass before the last changes a rate;
    either [n] is at most 1000, the last pass changes nothing and the loop
    returns, in a world where a further pass would change no rate, or [n] is
    1001 and the loop raises [TimeoutError] (the non-convergence fault) at
    the end of that pass.  The feedback network, whose nodes A and B lie
    between the source S and the target T and are each other's parent while
    valve "v" is in state "loop", raises [TimeoutError] from [time_from] and
    from [check_flow_stability_from] for every integer rate from 1 to 2^32
    fed at S (rates on which the sums of the loop are exact in binary64
    too). *)
Theorem propagation_loop_terminates w recs :
  wf w → Forall (valid w) (segments recs) →
  (∃ n recs' w',
     0 < n ∧ passes n recs w = (Return recs', w') ∧ rates_only w w' ∧
     (∀ k, 0 < k < n →
        ∃ rk wk, passes k recs w = (Return rk, wk) ∧ any_updated rk = true) ∧
     ((n ≤ 1000 ∧ any_updated recs' = false ∧ settled w' (segments recs) ∧
       converge 1001 0 recs w = (Return n, w')) ∨
      (n = 1001 ∧ converge 1001 0 recs w = (Raise TimeoutError, w')))) ∧
  (∀ rate critical_flow_ratio, (0 < rate)%Z → (rate ≤ 2 ^ 32)%Z →
     (time_from 3 [("S", inject_Z rate)] feedback).1 = Raise TimeoutError ∧
     (check_flow_stability_from 3 critical_flow_ratio [("S", inject_Z rate)] feedback).1 =
       Raise TimeoutError).
Proof.
  intros Hwf Hv. split.
  - apply (converge_counts 1001 0 recs w recs w); [lia | lia | done | done | done |].
    intros k Hk. lia.
  - intros rate critical_flow_ratio Hpos _.
    destruct (feedback_build (inject_Z rate) (inject_Z_pos rate Hpos) 3) as [w' Hbuild].
    assert (Hnm : Segment_name feedback 3 = Return "T") by (vm_compute; reflexivity).
    split.
    + by rewrite (time_from_raises 3 _ feedback "T" TimeoutError w' Hnm Hbuild).
    + by rewrite (check_flow_stability_from_raises 3 _ _ feedback "T" TimeoutError w'
                    Hnm Hbuild).
Qed.

Lemma propagation_loop_terminates_witness :
  (wf chain ∧ Forall (valid chain) (segments [("B", (1, false))])) ∧
  (∃ n recs' w',
     0 < n ∧ passes n [("B", (1, false))] chain = (Return recs', w') ∧
     rates_only chain w' ∧
     (∀ k, 0 < k < n →
        ∃ rk wk, passes k [("B", (1, false))] chain = (Return rk, wk) ∧
                 any_updated rk = true) ∧
     ((n ≤ 1000 ∧ any_updated recs' = false ∧
       settled w' (segments [("B", (1, false))]) ∧
       converge 1001 0 [("B", (1, false))] chain = (Return n, w')) ∨
      (n = 1001 ∧
       converge 1001 0 [("B", (1, false))] chain = (Raise TimeoutError, w')))) ∧
  (time_from 3 [("S", inject_Z 5)] feedback).1 = Raise TimeoutError.
Proof.
  assert (Hwf : wf chain) by decide_by_computation.
  assert (Hv : Forall (valid chain) (segments [("B", (1, false))]))
    by decide_by_computation.
  split; [done|].
  destruct (propagation_loop_terminates chain [("B", (1, false))] Hwf Hv) as [H1 H2].
  split; [exact H1|].
  assert (Hlo : (0 < 5)%Z) by lia. assert (Hhi : (5 ≤ 2 ^ 32)%Z) by lia.
  exact (proj1 (H2 5%Z 10%Q Hlo Hhi)).
Defined.

(** C6 as stated fails in its last part: a loop in the active parent
    relation, fed by a positive rate, need not raise.  In the feedback
    network A and B are each other's parent, yet the query at B and the
    query at A, with rate 5 fed at S, return: the target's rate is never
    propagated, so a loop through the target is never followed. *)
Lemma loop_through_the_target_converges :
  connections feedback 1 false = Return (mkEdgeSet {[2]} {[0; 2]}) ∧
  connections feedback 2 false = Return (mkEdgeSet {[1; 3]} {[1]}) ∧
  (time_from 2 [("S", 5%Q)] feedback).1 = Return (Some (0 + 1 / 5 + 2 / 5 + 0 - 0)%Q) ∧
  (time_from 1 [("S", 5%Q)] feedback).1 = Return (Some (0 + 1 / 5 + 0 - 0)%Q).
Proof. split_and!; vm_compute; reflexivity. Qed.

(** With the valve turned to "open" the loop edge is inactive and the same
    query converges. *)
Example feedback_open_converges :
  (time_from 3 [("S", 5%Q)] (set_state feedback "v" "open")).1 =
    Return (Some ((0 + 1 / 5 + 2 / 5 + 3 / 5 + 0 - 0))%Q).
Proof. vm_compute. reflexivity. Qed.

(** ** Resetting the flow rates *)

Lemma zero_at_assign_same w i : zero_at (assign_flow_rate i 0%Q w) i.
Proof.
  intros s Hs. simpl in Hs. rewrite list_lookup_alter_eq in Hs.
  destruct (heap w !! i); [|discriminate]. by injection Hs as <-.
Qed.

Lemma zero_at_assign_other w i j :
  zero_at w i → zero_at (assign_flow_rate j 0%Q w) i.
Proof.
  intros H. destruct (decide (j = i)) as [->|Hne]; [apply zero_at_assign_same|].
  intros s Hs. simpl in Hs. rewrite list_lookup_alter_ne in Hs by done. by apply H.
Qed.

Lemma zero_at_foldl (l : list nat) : ∀ w i,
  i ∈ l ∨ zero_at w i →
  zero_at (foldl (λ w rfr_segment, assign_flow_rate rfr_segment 0%Q w) w l) i.
Proof.
  induction l as [|x l IH]; simpl; intros w i H.
  - destruct H as [H|H]; [inversion H | done].
  - apply IH. destruct H as [[->|H]%elem_of_cons|H]; [|by left|].
    + right. apply zero_at_assign_same.
    + right. by apply zero_at_assign_other.
Qed.

Lemma reset_flow_rates_registry w : _nodes (reset_flow_rates w) = _nodes w.
Proof. by destruct (rates_only_reset w) as (_ & _ & <-). Qed.

(** After [reset_flow_rates] every registered node has flow rate 0. *)
Lemma reset_flow_rates_resets w : rates_reset (reset_flow_rates w).
Proof.
  intros nm i s Hi Hs. rewrite reset_flow_rates_registry in Hi.
  eapply (zero_at_foldl _ w i); [|exact Hs]. left.
  apply list_elem_of_fmap. exists (nm, i). split; [done|].
  by apply elem_of_map_to_list.
Qed.






Lemma _build_flow_rates_between_unregistered self target_name src w :
  _nodes w !! target_name = None →
  _build_flow_rates_between self target_name src w = (Raise LookupError, w).
Proof.
  intros H. unfold _build_flow_rates_between, and_then, query, raise.
  cbv beta iota. rewrite H. by rewrite bool_decide_eq_false_2 by (by intros [? ?]).
Qed.




Lemma check_flow_stability_from_eq self critical_flow_ratio src w :
  check_flow_stability_from self critical_flow_ratio src w =
    match Segment_name w self with
    | Return nm =>
      match _build_flow_rates_between self nm src w with
      | (Return built, w1) =>
        match inspect_all critical_flow_ratio w1 (∅, NegInf) (concat built.2) with
        | Return result => (Return (Some result), reset_flow_rates w1)
        | Raise e => (Raise e, w1)
        | Stuck => (Stuck, w1)
        end
      | (Raise e, w1) => if is_LookupError e then (Return None, w1) else (Raise e, w1)
      | (Stuck, w1) => (Stuck, w1)
      end
    | Raise e => (Raise e, w)
    | Stuck => (Stuck, w)
    end.
Proof.
  unfold check_flow_stability_from, and_then, query, update, unit_action,
    except_LookupError.
  destruct (Segment_name w self) as [nm| |]; [|done..].
  destruct (_build_flow_rates_between self nm src w) as [[[vs ps]|e|] w1]; [|by destruct (is_LookupError e)|done].
  simpl. by destruct (inspect_all _ _ _ _).
Qed.













(** ** The queries write flow rates only *)

Lemma wro_and_then {A B} (c : action A) (f : A → action B) :
  writes_rates_only c → (∀ a, writes_rates_only (f a)) →
  writes_rates_only (and_then c f).
Proof.
  intros Hc Hf w. unfold and_then. specialize (Hc w).
  destruct (c w) as [[a|e|] w1]; simpl in *; [|done..].
  eapply rates_only_trans; [exact Hc | apply Hf].
Qed.

Lemma wro_query {A} (q : World → outcome A) : writes_rates_only (query q).
Proof. intros w. apply rates_only_refl. Qed.

Lemma wro_unit_action {A} (a : A) : writes_rates_only (unit_action a).
Proof. intros w. apply rates_only_refl. Qed.

Lemma wro_raise {A} e : writes_rates_only (@raise A e).
Proof. intros w. apply rates_only_refl. Qed.

Lemma wro_update f : (∀ w, rates_only w (f w)) → writes_rates_only (update f).
Proof. intros Hf w. apply Hf. Qed.

Lemma wro_except_LookupError {A} (body handler : action A) :
  writes_rates_only body → writes_rates_only handler →
  writes_rates_only (except_LookupError body handler).
Proof.
  intros Hb Hh w. unfold except_LookupError. specialize (Hb w).
  destruct (body w) as [[a|e|] w1]; simpl in *; [done| |done].
  destruct (is_LookupError e); [|done].
  eapply rates_only_trans; [exact Hb | apply Hh].
Qed.

Lemma wro_update_record rec : writes_rates_only (update_record rec).
Proof.
  unfold update_record.
  apply wro_and_then; [apply wro_query|]. intros old_value.
  apply wro_and_then; [apply wro_query|]. intros new_value.
  destruct (negb _); [|apply wro_unit_action].
  apply wro_and_then; [|intros; apply wro_unit_action].
  apply wro_update. intros w. apply rates_only_assign.
Qed.

Lemma wro_one_pass recs : writes_rates_only (one_pass recs).
Proof.
  induction recs as [|rec recs IH]; [apply wro_unit_action|].
  change (one_pass (rec :: recs)) with
    (and_then (update_record rec) (λ rec',
       and_then (one_pass recs) (λ rest, unit_action (rec' :: rest)))).
  apply wro_and_then; [apply wro_update_record|]. intros rec'.
  apply wro_and_then; [exact IH|]. intros; apply wro_unit_action.
Qed.

Lemma wro_converge fuel : ∀ _iterations recs,
  writes_rates_only (converge fuel _iterations recs).
Proof.
  induction fuel as [|fuel IH]; intros it recs; [intros w; apply rates_only_refl|].
  change (converge (S fuel) it recs) with
    (and_then (one_pass recs) (λ recs',
       if 1000 <? S it then raise TimeoutError
       else if any_updated recs' then converge fuel (S it) recs'
       else unit_action (S it))).
  apply wro_and_then; [apply wro_one_pass|]. intros recs'.
  destruct (1000 <? S it); [apply wro_raise|].
  destruct (any_updated recs'); [apply IH | apply wro_unit_action].
Qed.

Lemma wro__build_flow_rates_between self target_name src :
  writes_rates_only (_build_flow_rates_between self target_name src).
Proof.
  unfold _build_flow_rates_between.
  apply wro_and_then; [apply wro_query|]. intros registered.
  destruct (negb registered); [apply wro_raise|].
  apply wro_and_then; [apply wro_update, rates_only_reset|]. intros _.
  apply wro_and_then; [apply wro_update; intros w; apply rates_only_seed|]. intros _.
  apply wro_and_then; [apply wro_query|]. intros found.
  apply wro_and_then; [apply wro_converge|]. intros; apply wro_unit_action.
Qed.

Lemma wro_time_from self src : writes_rates_only (time_from self src).
Proof.
  unfold time_from.
  apply wro_and_then; [apply wro_query|]. intros self_name.
  apply wro_and_then.
  - apply wro_except_LookupError; [|apply wro_unit_action].
    apply wro_and_then; [apply wro__build_flow_rates_between|].
    intros; apply wro_unit_action.
  - intros [[vs ps]|]; [|apply wro_unit_action].
    apply wro_and_then; [apply wro_query|]. intros durations.
    apply wro_and_then; [apply wro_update, rates_only_reset|].
    intros; apply wro_unit_action.
Qed.

Lemma wro_check_flow_stability_from self critical_flow_ratio src :
  writes_rates_only (check_flow_stability_from self critical_flow_ratio src).
Proof.
  unfold check_flow_stability_from.
  apply wro_and_then; [apply wro_query|]. intros self_name.
  apply wro_and_then.
  - apply wro_except_LookupError; [|apply wro_unit_action].
    apply wro_and_then; [apply wro__build_flow_rates_between|].
    intros; apply wro_unit_action.
  - intros [[vs ps]|]; [|apply wro_unit_action].
    apply wro_and_then; [apply wro_query|]. intros result.
    apply wro_and_then; [apply wro_update, rates_only_reset|].
    intros; apply wro_unit_action.
Qed.

(** ** Stability check: a node with a single inlet *)

Lemma inspect_segment_single_inlet critical_flow_ratio w unstable largest segment r nm :
  inlet_rates w segment = Return [r] → Segment_name w segment = Return nm →
  inspect_segment critical_flow_ratio w (unstable, largest) segment =
    Return (if Qlt_bool critical_flow_ratio (r / r) then unstable ∪ {[nm]} else unstable,
            Ratio_max largest (r / r)).
Proof.
  intros Hr Hnm. unfold inspect_segment. rewrite Hr. simpl.
  destruct (Qlt_bool critical_flow_ratio (r / r)); [|done]. by rewrite Hnm.
Qed.

(** C7 (the code's behaviour).  A node with exactly one parent of
    positive rate is not skipped: its ratio is rate/rate, which replaces the
    initial [-Inf] as worst ratio and, for a critical ratio below 1, puts
    the node in the unstable set.  On the chain A > B > C fed at A with 60,
    queried at B: B has the single inlet A, the reported worst ratio is
    60/60 instead of [-Inf], and with critical ratio 1/2 B is reported
    unstable. *)
Theorem single_inlet_node_is_reported :
  inlet_rates (seed_sources [("A", 60%Q)] (reset_flow_rates chain)) 1 = Return [60%Q] ∧
  (check_flow_stability_from 1 10 [("A", 60%Q)] chain).1 =
    Return (Some (∅, Finite (60 / 60))) ∧
  (check_flow_stability_from 1 (1 # 2) [("A", 60%Q)] chain).1 =
    Return (Some ({["B"]}, Finite (60 / 60))).
Proof.
  split; [vm_compute; reflexivity|].
  split; vm_compute; reflexivity.
Qed.

(** ** One registry for all segments *)

Lemma Segment_init_fresh w nm vol k :
  wf w → _nodes (Segment_init w nm vol).2 !! k ≠ Some (Segment_init w nm vol).1.
Proof.
  intros [_ Hn] Hk. simpl in Hk. specialize (Hn k _ Hk). unfold valid in Hn. lia.
Qed.

(** C10.  The name-to-node registry is one mapping of the world, shared by
    every Segment.  Constructing a Segment leaves it unchanged, and the new
    object is not in it; [connect] keeps its entries and leaves both ends of
    every relation it makes registered under their names; [set_state] and
    the queries do not change it.  Whichever Segment asks, the propagation
    consults this one mapping: the answer does not depend on the asker, an
    unregistered target name is a [LookupError], and a source name is
    resolved to the node registered under it.  So graphs built independently
    share it: in [reused_name] the name "A" stays with the first graph's
    node, and the query at D of the second graph, fed at "A", finds no path
    (result 0) where the second graph alone gives 30/60. *)
Theorem registry_is_shared_by_all_segments w self targets for_state direction ns :
  wf w → name_of w self = Some ns →
  (∀ t, t ∈ targets → is_Some (name_of w t)) → targets ≠ [] →
  let w' := connect w self targets for_state direction in
  (∀ nm vol, _nodes (Segment_init w nm vol).2 = _nodes w ∧
             ∀ k, _nodes (Segment_init w nm vol).2 !! k ≠ Some (Segment_init w nm vol).1) ∧
  is_Some (_nodes w' !! ns) ∧
  (∀ t nt, t ∈ targets → name_of w t = Some nt → is_Some (_nodes w' !! nt)) ∧
  (∀ k i, _nodes w !! k = Some i → _nodes w' !! k = Some i) ∧
  (∀ asker asker' target_name src,
     _build_flow_rates_between asker target_name src w' =
     _build_flow_rates_between asker' target_name src w') ∧
  (∀ asker target_name src, _nodes w' !! target_name = None →
     _build_flow_rates_between asker target_name src w' = (Raise LookupError, w')) ∧
  (∀ source_name source q, _nodes w' !! source_name = Some source →
     seed_sources [(source_name, q)] w' = assign_flow_rate source q w') ∧
  (∀ asker critical_flow_ratio src g s,
     _nodes (time_from asker src w').2 = _nodes w' ∧
     _nodes (check_flow_stability_from asker critical_flow_ratio src w').2 = _nodes w' ∧
     _nodes (set_state w' g s) = _nodes w') ∧
  _nodes reused_name !! "A" = Some 0 ∧
  (time_from 3 [("A", 60%Q)] reused_name).1 = Return (Some 0%Q) ∧
  (time_from 1 [("A", 60%Q)] second_graph_alone).1 =
    Return (Some (0 + 30 / 60 + 0 - 0)%Q).
Proof.
  intros Hwf Hs Hts Hne w'.
  destruct (connect_registry targets w self for_state direction ns Hs Hts)
    as ((_ & Hkeep) & Htargets & Hself).
  split_and!.
  - intros nm vol. split; [done|]. intros k. by apply Segment_init_fresh.
  - by apply Hself.
  - exact Htargets.
  - exact Hkeep.
  - done.
  - intros asker target_name src. apply _build_flow_rates_between_unregistered.
  - intros source_name source q Hsrc. unfold seed_sources. simpl. by rewrite Hsrc.
  - intros asker critical_flow_ratio src g s. split_and!.
    + by destruct (wro_time_from asker src w') as (_ & _ & <-).
    + by destruct (wro_check_flow_stability_from asker critical_flow_ratio src w')
        as (_ & _ & <-).
    + done.
  - vm_compute. reflexivity.
  - vm_compute. reflexivity.
  - vm_compute. reflexivity.
Qed.

Lemma registry_is_shared_by_all_segments_witness :
  (wf (network [("P", 1%Q); ("Q", 2%Q)]) ∧
   name_of (network [("P", 1%Q); ("Q", 2%Q)]) 0 = Some "P" ∧
   (∀ t, t ∈ [1] → is_Some (name_of (network [("P", 1%Q); ("Q", 2%Q)]) t)) ∧
   [1] ≠ []) ∧
  is_Some (_nodes (connect (network [("P", 1%Q); ("Q", 2%Q)]) 0 [1] None DOWN) !! "P") ∧
  _nodes (network [("P", 1%Q); ("Q", 2%Q)]) !! "P" = None.
Proof.
  assert (Hwf : wf (network [("P", 1%Q); ("Q", 2%Q)])) by decide_by_computation.
  assert (Hs : name_of (network [("P", 1%Q); ("Q", 2%Q)]) 0 = Some "P")
    by (vm_compute; reflexivity).
  assert (Hts : ∀ t, t ∈ [1] → is_Some (name_of (network [("P", 1%Q); ("Q", 2%Q)]) t)).
  { intros t Ht. apply list_elem_of_singleton in Ht as ->. by exists "Q". }
  assert (Hne : [1] ≠ @nil nat) by discriminate.
  split; [done|]. split; [|vm_compute; reflexivity].
  exact (proj1 (proj2 (registry_is_shared_by_all_segments
           (network [("P", 1%Q); ("Q", 2%Q)]) 0 [1] None DOWN "P" Hwf Hs Hts Hne))).
Defined.

(** ** The constructors build well-formed worlds *)

Lemma wf_empty_world : wf empty_world.
Proof. split; [constructor | apply map_Forall_empty]. Qed.

Lemma wf_EdgeSet_mono w w' e :
  length (heap w) ≤ length (heap w') → wf_EdgeSet w e → wf_EdgeSet w' e.
Proof.
  intros Hlen [H1 H2]. unfold valid in *.
  split; intros x Hx; [specialize (H1 x Hx) | specialize (H2 x Hx)];
    unfold valid in *; simpl in *; lia.
Qed.

Lemma wf_Segment_mono w w' s :
  length (heap w) ≤ length (heap w') →
  dom (state_cache w) ⊆ dom (state_cache w') →
  wf_Segment w s → wf_Segment w' s.
Proof.
  intros Hlen Hdom (H1 & H2 & H3). split; [done|]. split.
  - intros g Hg. by apply Hdom, H2.
  - intros st e He. eapply wf_EdgeSet_mono; [done|]. exact (H3 st e He).
Qed.

Lemma wf_Segment_init w nm vol : wf w → wf (Segment_init w nm vol).2.
Proof.
  intros [Hheap Hnodes]. split; simpl.
  - apply Forall_app. split.
    + eapply Forall_impl; [exact Hheap|]. intros s.
      apply wf_Segment_mono; simpl; [rewrite length_app; lia | done].
    + apply Forall_singleton. split; [|split]; simpl.
      * rewrite lookup_singleton_eq. by eexists.
      * intros g Hg. by apply not_elem_of_empty in Hg.
      * intros st e He. apply lookup_singleton_Some in He as [_ <-].
        split; intros x Hx; by apply not_elem_of_empty in Hx.
  - intros k i Hi. specialize (Hnodes k i Hi). unfold valid in *. simpl.
    rewrite length_app. simpl. lia.
Qed.

Lemma wf_set_state w g s : wf w → wf (set_state w g s).
Proof.
  intros [Hheap Hnodes]. split; simpl; [|done].
  eapply Forall_impl; [exact Hheap|]. intros x.
  apply wf_Segment_mono; simpl; [done|]. rewrite dom_insert_L.
  intros y Hy. apply elem_of_union. by right.
Qed.

Lemma register_state_dom cid st cache :
  dom cache ⊆ dom (register_state cid st cache) ∧
  (∀ g, cid = Some g → g ∈ dom (register_state cid st cache)).
Proof.
  destruct cid as [g|]; simpl; [|by split].
  split.
  - intros x Hx. apply elem_of_dom in Hx as [v Hv]. apply elem_of_dom.
    exists v. by apply setdefault_preserves.
  - intros g' [= <-]. apply elem_of_dom. rewrite setdefault_lookup. by eexists.
Qed.

(** The part of a wiring call that [GenericStatefulGraph] does. *)
Lemma wf_wired w self edit cid st :
  wf w → (∀ e, wf_EdgeSet w e → wf_EdgeSet w (edit e)) →
  wf (mkWorld (alter (wire edit cid st) self (heap w))
        (register_state cid st (state_cache w)) (_nodes w)).
Proof.
  intros [Hheap Hnodes] Hedit.
  destruct (register_state_dom cid st (state_cache w)) as [Hdom Hcid].
  set (w' := mkWorld _ _ _).
  assert (Hlen : length (heap w') = length (heap w)) by (simpl; apply length_alter).
  assert (Hmono : ∀ s, wf_Segment w s → wf_Segment w' s).
  { intros s. apply wf_Segment_mono; [lia | done]. }
  split.
  - apply Forall_lookup_2. intros i s' Hs'. simpl in Hs'.
    destruct (decide (self = i)) as [->|Hne].
    + rewrite list_lookup_alter_eq in Hs'.
      destruct (heap w !! i) as [s|] eqn:Hs; [|discriminate].
      injection Hs' as <-.
      destruct (Forall_lookup_1 _ _ _ _ Hheap Hs) as (H1 & H2 & H3).
      split; [|split].
      * simpl. apply lookup_alter_is_Some. destruct H1 as [c Hc].
        exists c. by apply setdefault_preserves.
      * simpl. destruct cid as [g|]; [|intros x Hx; by apply Hdom, H2].
        intros x Hx. apply elem_of_union in Hx as [Hx|Hx]; [by apply Hdom, H2|].
        apply elem_of_singleton in Hx as ->. by apply Hcid.
      * intros st' e He. apply (wf_EdgeSet_mono w); [lia|].
        destruct (decide (st = st')) as [<-|Hst].
        -- rewrite wire_bucket in He. injection He as <-. apply Hedit.
           destruct (_connections s !! st) as [b|] eqn:Hb; simpl.
           ++ exact (H3 st b Hb).
           ++ split; intros x Hx; by apply not_elem_of_empty in Hx.
        -- simpl in He. rewrite lookup_alter_ne in He by done.
           unfold setdefault in He. destruct (_connections s !! st) eqn:Hb.
           ++ exact (H3 st' e He).
           ++ rewrite lookup_insert_ne in He by done. exact (H3 st' e He).
    + rewrite list_lookup_alter_ne in Hs' by done.
      apply Hmono. exact (Forall_lookup_1 _ _ _ _ Hheap Hs').
  - intros k i Hi. specialize (Hnodes k i Hi). unfold valid in *. lia.
Qed.

Lemma wf_register_node w other : wf w → wf (register_node w other).
Proof.
  intros [Hheap Hnodes]. unfold register_node.
  destruct (heap w !! other) as [s|] eqn:Hs; [|done].
  split; [done|]. simpl. intros k i Hi. unfold setdefault in Hi.
  destruct (_nodes w !! name (data s)) eqn:Hk; [exact (Hnodes k i Hi)|].
  apply lookup_insert_Some in Hi as [[_ <-]|[_ Hi]]; [|exact (Hnodes k i Hi)].
  unfold valid. simpl. apply lookup_lt_is_Some_1. by eexists.
Qed.

Lemma wf_add_to_children w child e :
  valid w child → wf_EdgeSet w e → wf_EdgeSet w (add_to_children child e).
Proof.
  intros Hv [H1 H2]. split; [|done]. simpl. intros x Hx.
  apply elem_of_union in Hx as [Hx|Hx]; [by apply H1|].
  by apply elem_of_singleton in Hx as ->.
Qed.

Lemma wf_add_to_parents w parent e :
  valid w parent → wf_EdgeSet w e → wf_EdgeSet w (add_to_parents parent e).
Proof.
  intros Hv [H1 H2]. split; [done|]. simpl. intros x Hx.
  apply elem_of_union in Hx as [Hx|Hx]; [by apply H2|].
  by apply elem_of_singleton in Hx as ->.
Qed.

Lemma wf__add_child w self child cid st :
  wf w → valid w child → wf (_add_child w self child cid st) ∧
  length (heap (_add_child w self child cid st)) = length (heap w).
Proof.
  intros Hwf Hv. unfold _add_child. split.
  - apply wf_register_node. apply wf_wired; [done|].
    intros e. by apply wf_add_to_children.
  - rewrite heap_register_node. simpl. apply length_alter.
Qed.

Lemma wf__add_parent w self parent cid st :
  wf w → valid w parent → wf (_add_parent w self parent cid st) ∧
  length (heap (_add_parent w self parent cid st)) = length (heap w).
Proof.
  intros Hwf Hv. unfold _add_parent. split.
  - apply wf_register_node. apply wf_wired; [done|].
    intros e. by apply wf_add_to_parents.
  - rewrite heap_register_node. simpl. apply length_alter.
Qed.

Lemma wf_connect_one w self target for_state direction :
  wf w → valid w self → valid w target →
  wf (connect_one w self target for_state direction) ∧
  length (heap (connect_one w self target for_state direction)) = length (heap w).
Proof.
  intros Hwf Hs Ht. unfold connect_one.
  assert (H1 : ∀ w1, wf w1 → length (heap w1) = length (heap w) →
            wf (_add_parent (_add_child w1 self target for_state.1 for_state.2)
                  target self for_state.1 for_state.2) ∧
            length (heap (_add_parent (_add_child w1 self target for_state.1 for_state.2)
                  target self for_state.1 for_state.2)) = length (heap w)).
  { intros w1 Hw1 Hl.
    destruct (wf__add_child w1 self target for_state.1 for_state.2 Hw1) as [Ha La];
      [unfold valid in *; lia|].
    destruct (wf__add_parent _ target self for_state.1 for_state.2 Ha) as [Hb Lb];
      [unfold valid in *; lia|].
    split; [done | lia]. }
  assert (H2 : ∀ w1, wf w1 → length (heap w1) = length (heap w) →
            wf (_add_child (_add_parent w1 self target for_state.1 for_state.2)
                  target self for_state.1 for_state.2) ∧
            length (heap (_add_child (_add_parent w1 self target for_state.1 for_state.2)
                  target self for_state.1 for_state.2)) = length (heap w)).
  { intros w1 Hw1 Hl.
    destruct (wf__add_parent w1 self target for_state.1 for_state.2 Hw1) as [Ha La];
      [unfold valid in *; lia|].
    destruct (wf__add_child _ target self for_state.1 for_state.2 Ha) as [Hb Lb];
      [unfold valid in *; lia|].
    split; [done | lia]. }
  destruct direction; simpl.
  - by apply H1.
  - by apply H2.
  - destruct (H1 w Hwf eq_refl) as [Ha La]. by apply H2.
Qed.

(** [connect] between constructed objects keeps the world well-formed. *)
Lemma wf_connect targets : ∀ w self for_state direction,
  wf w → valid w self → Forall (valid w) targets →
  wf (connect w self targets for_state direction).
Proof.
  induction targets as [|t targets IH]; intros w self for_state direction Hwf Hs Hts;
    [done|].
  apply Forall_cons in Hts as [Ht Hts]. rewrite connect_cons.
  destruct (wf_connect_one w self t (default (None, CONSISTENT) for_state) direction
              Hwf Hs Ht) as [Hw1 Hl].
  apply IH; [done | unfold valid in *; lia |].
  eapply Forall_impl; [exact Hts|]. intros x. unfold valid. lia.
Qed.

(** The queries keep the world well-formed. *)
Lemma wf_writes_rates_only {A} (c : action A) w :
  writes_rates_only c → wf w → wf (c w).2.
Proof. intros Hc. apply rates_only_wf, Hc. Qed.

(** * Further properties of the engine *)

(** ** The two views, bucket by bucket *)

Lemma EdgeSet_sum_side (side : EdgeSet → gset nat) items start x :
  (∀ a b, side (EdgeSet_add a b) = side a ∪ side b) →
  x ∈ side (EdgeSet_sum items start) ↔ x ∈ side start ∨ ∃ e, e ∈ items ∧ x ∈ side e.
Proof.
  intros Hadd. unfold EdgeSet_sum. revert start.
  induction items as [|e items IH]; simpl; intros start.
  - split; [auto | intros [?|(e & He & _)]; [done | inversion He]].
  - rewrite IH, Hadd, elem_of_union. split.
    + intros [[?|?]|(e' & He' & ?)]; eauto.
      * right. exists e. split; [left | done].
      * right. exists e'. split; [by right | done].
    + intros [?|(e' & He' & ?)]; [auto|].
      apply elem_of_cons in He' as [->|?]; eauto.
Qed.

Lemma resolved_side (side : EdgeSet → gset nat) w s e x :
  (∀ a b, side (EdgeSet_add a b) = side a ∪ side b) → side EdgeSet_init = ∅ →
  connections_of w s false = Return e →
  x ∈ side e ↔ ∃ st, consulted w s st ∧ in_bucket s st side x.
Proof.
  intros Hadd Hinit H. unfold connections_of in H.
  apply bind_Return in H as (buckets & Hbs & H).
  destruct (_connections s !! CONSISTENT) as [start|] eqn:Hc; [|discriminate].
  injection H as <-. apply for_each_Return in Hbs.
  rewrite (EdgeSet_sum_side side) by done. split.
  - intros [Hx|(b & Hb & Hx)].
    + exists CONSISTENT. split; [by left|]. by exists start.
    + apply list_elem_of_lookup in Hb as [i Hi].
      destruct (Forall2_lookup_r _ _ _ _ _ Hbs Hi) as (g & Hg & Hact).
      unfold active_bucket in Hact.
      destruct (state_cache w !! g) as [st|] eqn:Hst; [|discriminate].
      injection Hact as <-.
      destruct (_connections s !! st) as [b|] eqn:Hb; simpl in Hx;
        [|rewrite Hinit in Hx; by apply not_elem_of_empty in Hx].
      exists st. split; [|by exists b]. right. exists g. split; [|done].
      apply elem_of_elements, list_elem_of_lookup. eauto.
  - intros (st & [->|(g & Hg & Hst)] & b & Hb & Hx).
    + left. rewrite Hc in Hb. by injection Hb as <-.
    + right. exists b. split; [|done].
      apply elem_of_elements, list_elem_of_lookup in Hg as [i Hi].
      destruct (Forall2_lookup_l _ _ _ _ _ Hbs Hi) as (bi & Hbi & Hact).
      unfold active_bucket in Hact. rewrite Hst, Hb in Hact. injection Hact as <-.
      apply list_elem_of_lookup. eauto.
Qed.

Lemma full_side (side : EdgeSet → gset nat) (s : Segment) x :
  (∀ a b, side (EdgeSet_add a b) = side a ∪ side b) → side EdgeSet_init = ∅ →
  x ∈ side (EdgeSet_sum (map_to_list (_connections s)).*2 EdgeSet_init) ↔
  ∃ st, in_bucket s st side x.
Proof.
  intros Hadd Hinit. rewrite (EdgeSet_sum_side side) by done. rewrite Hinit. split.
  - intros [Hx|(b & Hb & Hx)]; [by apply not_elem_of_empty in Hx|].
    apply list_elem_of_fmap in Hb as ([st b'] & -> & Hb).
    exists st, b'. split; [by apply elem_of_map_to_list | done].
  - intros (st & b & Hb & Hx). right. exists b. split; [|done].
    by eapply bucket_in_values.
Qed.

(** X1.  The resolved view is the CONSISTENT bucket together with the
    buckets named by the registry values of the node's own state-group
    ids, and nothing else: a node is a resolved child (parent) exactly when
    it is a child (parent) in a consulted bucket. *)
Theorem resolved_view_by_buckets w self s resolved :
  heap w !! self = Some s → connections w self false = Return resolved →
  ∀ x, (x ∈ children resolved ↔ ∃ st, consulted w s st ∧ in_bucket s st children x) ∧
       (x ∈ parents resolved ↔ ∃ st, consulted w s st ∧ in_bucket s st parents x).
Proof.
  intros Hs H x. destruct (connections_deref _ _ _ _ H) as (s' & Hs' & Hr).
  rewrite Hs in Hs'. injection Hs' as <-.
  split; by apply resolved_side.
Qed.

Lemma resolved_view_by_buckets_witness :
  (heap feedback !! 1 = Some (mkSegment (mkVolume "A" 2 0) {["v"]}
     (<["loop" := mkEdgeSet ∅ {[2]}]> {[CONSISTENT := mkEdgeSet {[2]} {[0]}]})) ∧
   connections feedback 1 false = Return (mkEdgeSet {[2]} {[0; 2]})) ∧
  (2 ∈ parents (mkEdgeSet {[2]} ({[0; 2]} : gset nat)) ↔
   ∃ st, consulted feedback (mkSegment (mkVolume "A" 2 0) {["v"]}
           (<["loop" := mkEdgeSet ∅ {[2]}]> {[CONSISTENT := mkEdgeSet {[2]} {[0]}]})) st ∧
         in_bucket (mkSegment (mkVolume "A" 2 0) {["v"]}
           (<["loop" := mkEdgeSet ∅ {[2]}]> {[CONSISTENT := mkEdgeSet {[2]} {[0]}]}))
           st parents 2).
Proof.
  assert (Hs : heap feedback !! 1 = Some (mkSegment (mkVolume "A" 2 0) {["v"]}
     (<["loop" := mkEdgeSet ∅ {[2]}]> {[CONSISTENT := mkEdgeSet {[2]} {[0]}]})))
    by (vm_compute; reflexivity).
  assert (Hr : connections feedback 1 false = Return (mkEdgeSet {[2]} {[0; 2]}))
    by (vm_compute; reflexivity).
  split; [done|].
  exact (proj2 (resolved_view_by_buckets feedback 1 _ _ Hs Hr 2)).
Defined.

(** X2.  The full view ([ignore_state=True]) is the union of all buckets of
    the node: it always returns, and a node is in it exactly when it is in
    some bucket. *)
Theorem full_view_by_buckets w self s :
  heap w !! self = Some s →
  ∃ full, connections w self true = Return full ∧
    ∀ x, (x ∈ children full ↔ ∃ st, in_bucket s st children x) ∧
         (x ∈ parents full ↔ ∃ st, in_bucket s st parents x).
Proof.
  intros Hs. eexists. split; [unfold connections, deref; by rewrite Hs|].
  intros x. split; by apply full_side.
Qed.

Lemma full_view_by_buckets_witness :
  heap feedback !! 1 =
    Some (mkSegment (mkVolume "A" 2 0) {["v"]}
            (<["loop" := mkEdgeSet ∅ {[2]}]> {[CONSISTENT := mkEdgeSet {[2]} {[0]}]})) ∧
  connections feedback 1 true = Return (mkEdgeSet {[2]} {[0; 2]}) ∧
  ∃ full, connections feedback 1 true = Return full ∧
    ∀ x, (x ∈ children full ↔
            ∃ st, in_bucket
                    (mkSegment (mkVolume "A" 2 0) {["v"]}
                       (<["loop" := mkEdgeSet ∅ {[2]}]>
                          {[CONSISTENT := mkEdgeSet {[2]} {[0]}]}))
                    st children x) ∧
         (x ∈ parents full ↔
            ∃ st, in_bucket
                    (mkSegment (mkVolume "A" 2 0) {["v"]}
                       (<["loop" := mkEdgeSet ∅ {[2]}]>
                          {[CONSISTENT := mkEdgeSet {[2]} {[0]}]}))
                    st parents x).
Proof.
  assert (Hs : heap feedback !! 1 =
    Some (mkSegment (mkVolume "A" 2 0) {["v"]}
            (<["loop" := mkEdgeSet ∅ {[2]}]> {[CONSISTENT := mkEdgeSet {[2]} {[0]}]})))
    by (vm_compute; reflexivity).
  assert (Hc : connections feedback 1 true = Return (mkEdgeSet {[2]} {[0; 2]}))
    by (vm_compute; reflexivity).
  split; [exact Hs|]. split; [exact Hc|]. exact (full_view_by_buckets feedback 1 _ Hs).
Defined.

(** X3.  Counting is monotone in [ignore_state]: whenever
    [has_children()] and [has_parents()] return, the counts of the full view
    are at least as large. *)
Theorem has_children_ignore_state_monotone w self n_children n_parents :
  has_children w self false = Return n_children →
  has_parents w self false = Return n_parents →
  ∃ all_children all_parents,
    has_children w self true = Return all_children ∧
    has_parents w self true = Return all_parents ∧
    n_children ≤ all_children ∧ n_parents ≤ all_parents.
Proof.
  unfold has_children, has_parents. intros Hc Hp.
  apply bind_Return in Hc as (c & Hc & [= <-]).
  apply bind_Return in Hp as (c' & Hc' & [= <-]).
  rewrite Hc in Hc'. injection Hc' as <-.
  destruct (connections_deref _ _ _ _ Hc) as (s & Hs & Hr).
  assert (Hfull : connections w self true =
            Return (EdgeSet_sum (map_to_list (_connections s)).*2 EdgeSet_init))
    by (unfold connections, deref; by rewrite Hs).
  rewrite Hfull. simpl. eexists _, _. split; [done|]. split; [done|].
  split; apply subseteq_size; intros x Hx.
  - apply (full_side children); [done..|].
    apply (resolved_side children w s c x) in Hx as (st & _ & Hb); eauto.
  - apply (full_side parents); [done..|].
    apply (resolved_side parents w s c x) in Hx as (st & _ & Hb); eauto.
Qed.

Lemma has_children_ignore_state_monotone_witness :
  (has_children (set_state feedback "v" "open") 2 false = Return 1 ∧
   has_parents (set_state feedback "v" "open") 2 false = Return 1) ∧
  ∃ all_children all_parents,
    has_children (set_state feedback "v" "open") 2 true = Return all_children ∧
    has_parents (set_state feedback "v" "open") 2 true = Return all_parents ∧
    1 ≤ all_children ∧ 1 ≤ all_parents.
Proof.
  assert (Hc : has_children (set_state feedback "v" "open") 2 false = Return 1)
    by (vm_compute; reflexivity).
  assert (Hp : has_parents (set_state feedback "v" "open") 2 false = Return 1)
    by (vm_compute; reflexivity).
  split; [done|].
  exact (has_children_ignore_state_monotone _ 2 1 1 Hc Hp).
Defined.

(** ** Setting a state *)

Lemma _traverse_ext w w' target target' direction ignore_state :
  (∀ i, connections w i ignore_state = connections w' i ignore_state) →
  (∀ i, target i = target' i) →
  ∀ fuel visited path self,
    _traverse fuel w target direction ignore_state visited path self =
    _traverse fuel w' target' direction ignore_state visited path self.
Proof.
  intros Hc Ht. induction fuel as [|fuel IH]; intros visited path self; [done|].
  simpl. rewrite Hc, Ht. destruct (connections w' self ignore_state); simpl; [|done..].
  erewrite collect_ext; [reflexivity|].
  intros sub _. simpl. destruct (decide _); [done | apply IH].
Qed.

(** X4.  [set_state] reaches only the nodes wired under the group: for
    every node that does not carry [g], the resolved view is what it was;
    and, whether or not any node carries [g], the full view of every node
    and every traversal with [ignore_state=True] are what they were: they
    do not read the registry of states at all. *)
Theorem set_state_leaves_other_nodes_alone w g st :
  (∀ self s, heap w !! self = Some s → g ∉ _state_ids s →
     connections (set_state w g st) self false = connections w self false) ∧
  (∀ node, connections (set_state w g st) node true = connections w node true) ∧
  (∀ condition direction start,
     traverse (set_state w g st) condition direction true start =
     traverse w condition direction true start).
Proof.
  split; [|split].
  - intros self s Hs Hg.
    unfold connections, deref. simpl. rewrite Hs. simpl. unfold connections_of.
    rewrite (for_each_ext (active_bucket (set_state w g st) s) (active_bucket w s));
      [done|].
    intros g' Hg'. apply elem_of_elements in Hg'. unfold active_bucket. simpl.
    rewrite lookup_insert_ne; [done|]. by intros ->.
  - done.
  - intros condition direction start. unfold traverse.
    change (heap (set_state w g st)) with (heap w). by apply _traverse_ext.
Qed.

Lemma set_state_leaves_other_nodes_alone_witness :
  (heap feedback !! 0 = Some (mkSegment (mkVolume "S" 1 0) ∅
      {[CONSISTENT := mkEdgeSet {[1]} ∅]}) ∧ "v" ∉ (∅ : gset string)) ∧
  connections (set_state feedback "v" "open") 0 false = connections feedback 0 false ∧
  connections (set_state gated "g" "t") 0 true = connections gated 0 true ∧
  traverse (set_state gated "g" "t") (Some (named gated "b")) DOWN true 0 =
    traverse gated (Some (named gated "b")) DOWN true 0.
Proof.
  assert (Hs : heap feedback !! 0 = Some (mkSegment (mkVolume "S" 1 0) ∅
      {[CONSISTENT := mkEdgeSet {[1]} ∅]})) by (vm_compute; reflexivity).
  assert (Hg : "v" ∉ (∅ : gset string)) by apply not_elem_of_empty.
  split; [done|]. split; [|split].
  - exact (proj1 (set_state_leaves_other_nodes_alone feedback "v" "open") 0 _ Hs Hg).
  - exact (proj1 (proj2 (set_state_leaves_other_nodes_alone gated "g" "t")) 0).
  - exact (proj2 (proj2 (set_state_leaves_other_nodes_alone gated "g" "t"))
             (Some (named gated "b")) DOWN 0).
Defined.

(** X5.  [set_state] takes effect at once and the last value wins: for a
    node that carries [g], the resolved view after [set_state(g, st)] is
    CONSISTENT, bucket [st], and the buckets named by the values of the
    node's other groups; the value [g] had before plays no part. *)
Theorem set_state_takes_effect_immediately w self s g st resolved :
  heap w !! self = Some s → g ∈ _state_ids s →
  connections (set_state w g st) self false = Return resolved →
  ∀ x, (x ∈ children resolved ↔
          ∃ st', (st' = CONSISTENT ∨ st' = st ∨
                  ∃ g', g' ≠ g ∧ g' ∈ _state_ids s ∧ state_cache w !! g' = Some st') ∧
                 in_bucket s st' children x) ∧
       (x ∈ parents resolved ↔
          ∃ st', (st' = CONSISTENT ∨ st' = st ∨
                  ∃ g', g' ≠ g ∧ g' ∈ _state_ids s ∧ state_cache w !! g' = Some st') ∧
                 in_bucket s st' parents x).
Proof.
  intros Hs Hg H x.
  assert (Hcons : ∀ st', consulted (set_state w g st) s st' ↔
            (st' = CONSISTENT ∨ st' = st ∨
             ∃ g', g' ≠ g ∧ g' ∈ _state_ids s ∧ state_cache w !! g' = Some st')).
  { intros st'. unfold consulted. simpl. split.
    - intros [->|(g' & Hg' & Hst')]; [by left|]. right.
      destruct (decide (g' = g)) as [->|Hne].
      + rewrite lookup_insert_eq in Hst'. left. congruence.
      + rewrite lookup_insert_ne in Hst' by done. right. by exists g'.
    - intros [->|[->|(g' & Hne & Hg' & Hst')]]; [by left| |].
      + right. exists g. split; [done|]. apply lookup_insert_eq.
      + right. exists g'. split; [done|]. by rewrite lookup_insert_ne. }
  destruct (connections_deref _ _ _ _ H) as (s' & Hs' & Hr).
  simpl in Hs'. rewrite Hs in Hs'. injection Hs' as <-.
  pose proof (resolved_side children _ s resolved x
                (λ _ _, eq_refl) eq_refl Hr) as Hc.
  pose proof (resolved_side parents _ s resolved x
                (λ _ _, eq_refl) eq_refl Hr) as Hp.
  split.
  - rewrite Hc. split; intros (st' & Hst' & Hb); exists st'; split; try done;
      by apply Hcons.
  - rewrite Hp. split; intros (st' & Hst' & Hb); exists st'; split; try done;
      by apply Hcons.
Qed.

Lemma set_state_takes_effect_immediately_witness :
  (heap feedback !! 1 = Some (mkSegment (mkVolume "A" 2 0) {["v"]}
     (<["loop" := mkEdgeSet ∅ {[2]}]> {[CONSISTENT := mkEdgeSet {[2]} {[0]}]})) ∧
   "v" ∈ ({["v"]} : gset string) ∧
   connections (set_state feedback "v" "open") 1 false = Return (mkEdgeSet {[2]} {[0]})) ∧
  (2 ∈ parents (mkEdgeSet {[2]} ({[0]} : gset nat)) ↔
     ∃ st', (st' = CONSISTENT ∨ st' = "open" ∨
             ∃ g', g' ≠ "v" ∧ g' ∈ ({["v"]} : gset string) ∧
                   state_cache feedback !! g' = Some st') ∧
            in_bucket (mkSegment (mkVolume "A" 2 0) {["v"]}
              (<["loop" := mkEdgeSet ∅ {[2]}]> {[CONSISTENT := mkEdgeSet {[2]} {[0]}]}))
              st' parents 2).
Proof.
  assert (Hs : heap feedback !! 1 = Some (mkSegment (mkVolume "A" 2 0) {["v"]}
     (<["loop" := mkEdgeSet ∅ {[2]}]> {[CONSISTENT := mkEdgeSet {[2]} {[0]}]})))
    by (vm_compute; reflexivity).
  assert (Hg : "v" ∈ ({["v"]} : gset string)) by by apply elem_of_singleton.
  assert (Hr : connections (set_state feedback "v" "open") 1 false =
               Return (mkEdgeSet {[2]} {[0]})) by (vm_compute; reflexivity).
  split; [done|].
  exact (proj2 (set_state_takes_effect_immediately feedback 1 _ "v" "open" _ Hs Hg Hr 2)).
Defined.

(** ** [connect] as a composition of commuting, idempotent writes *)


Lemma setdefault_lookup_ne `{Countable K} {V} (k k' : K) (v : V) (m : gmap K V) :
  k ≠ k' → setdefault k v m !! k' = m !! k'.
Proof.
  intros Hne. unfold setdefault. destruct (m !! k); [done|]. by rewrite lookup_insert_ne.
Qed.

Lemma setdefault_id `{Countable K} {V} (k : K) (v : V) (m : gmap K V) :
  is_Some (m !! k) → setdefault k v m = m.
Proof. intros [x Hx]. unfold setdefault. by rewrite Hx. Qed.

Lemma setdefault_commute `{Countable K} {V} (k k' : K) (v v' : V) (m : gmap K V) :
  k ≠ k' → setdefault k v (setdefault k' v' m) = setdefault k' v' (setdefault k v m).
Proof.
  intros Hne. apply map_eq. intros j.
  destruct (decide (j = k)) as [->|Hk].
  - rewrite setdefault_lookup, !setdefault_lookup_ne by done. by rewrite setdefault_lookup.
  - rewrite (setdefault_lookup_ne k j) by done.
    destruct (decide (j = k')) as [->|Hk'].
    + rewrite !setdefault_lookup. by rewrite setdefault_lookup_ne.
    + by rewrite !setdefault_lookup_ne.
Qed.

Lemma wire_wire e1 e2 cid st s :
  wire e1 cid st (wire e2 cid st s) = wire (e1 ∘ e2) cid st s.
Proof.
  unfold wire. simpl. f_equal.
  - destruct cid as [g|]; [|done]. apply set_eq. intros x.
    rewrite !elem_of_union. tauto.
  - apply map_eq. intros k. destruct (decide (k = st)) as [->|Hne].
    + rewrite !lookup_alter_eq, !setdefault_lookup, lookup_alter_eq, setdefault_lookup.
      done.
    + rewrite !lookup_alter_ne, !setdefault_lookup_ne, lookup_alter_ne,
        setdefault_lookup_ne by done. done.
Qed.

Lemma wire_ext e e' cid st s :
  (∀ b, e b = e' b) → wire e cid st s = wire e' cid st s.
Proof.
  intros He. unfold wire. f_equal. apply map_eq. intros k.
  destruct (decide (k = st)) as [->|Hne].
  - rewrite !lookup_alter_eq. destruct (setdefault st EdgeSet_init (_connections s) !! st);
      simpl; [by rewrite He | done].
  - by rewrite !lookup_alter_ne.
Qed.

Lemma run_edit_commute e e' b : run_edit e (run_edit e' b) = run_edit e' (run_edit e b).
Proof.
  destruct e, e'; unfold run_edit, add_to_children, add_to_parents; simpl; f_equal;
    apply set_eq; intros y; rewrite !elem_of_union; tauto.
Qed.

Lemma run_edit_idem e b : run_edit e (run_edit e b) = run_edit e b.
Proof.
  destruct e; unfold run_edit, add_to_children, add_to_parents; simpl; f_equal;
    apply set_eq; intros y; rewrite !elem_of_union; tauto.
Qed.

Lemma heap_write_commute cid st ie ie' h :
  heap_write cid st (heap_write cid st h ie') ie =
  heap_write cid st (heap_write cid st h ie) ie'.
Proof.
  unfold heap_write. destruct (decide (ie.1 = ie'.1)) as [Heq|Hne].
  - rewrite Heq, !list_alter_alter_eq. apply list_alter_ext; [|done].
    intros s _. simpl. rewrite !wire_wire. apply wire_ext. intros b. simpl.
    apply run_edit_commute.
  - by apply list_alter_alter_ne.
Qed.

Lemma heap_write_idem cid st ie h :
  heap_write cid st (heap_write cid st h ie) ie = heap_write cid st h ie.
Proof.
  unfold heap_write. rewrite list_alter_alter_eq. apply list_alter_ext; [|done].
  intros s _. simpl. rewrite wire_wire. apply wire_ext. intros b. simpl.
  apply run_edit_idem.
Qed.

Lemma heap_writes_commute cid st ies : ∀ ie h,
  heap_write cid st (foldl (heap_write cid st) h ies) ie =
  foldl (heap_write cid st) (heap_write cid st h ie) ies.
Proof.
  induction ies as [|ie' ies IH]; intros ie h; simpl; [done|].
  rewrite IH. by rewrite heap_write_commute.
Qed.

(** Making the same writes a second time changes nothing. *)
Lemma heap_writes_idem cid st ies : ∀ h,
  foldl (heap_write cid st) (foldl (heap_write cid st) h ies) ies =
  foldl (heap_write cid st) h ies.
Proof.
  induction ies as [|ie ies IH]; intros h; simpl; [done|].
  rewrite heap_writes_commute, heap_write_idem. apply IH.
Qed.

Lemma heap__add_child w self child cid st :
  heap (_add_child w self child cid st) =
    heap_write cid st (heap w) (self, AddChild child).
Proof. unfold _add_child. by rewrite heap_register_node. Qed.

Lemma heap__add_parent w self parent cid st :
  heap (_add_parent w self parent cid st) =
    heap_write cid st (heap w) (self, AddParent parent).
Proof. unfold _add_parent. by rewrite heap_register_node. Qed.

Lemma state_cache__add_child w self child cid st :
  state_cache (_add_child w self child cid st) = register_state cid st (state_cache w).
Proof. unfold _add_child. by rewrite state_cache_register_node. Qed.

Lemma state_cache__add_parent w self parent cid st :
  state_cache (_add_parent w self parent cid st) = register_state cid st (state_cache w).
Proof. unfold _add_parent. by rewrite state_cache_register_node. Qed.

Lemma register_state_idem cid st cache :
  register_state cid st (register_state cid st cache) = register_state cid st cache.
Proof. destruct cid; simpl; [apply setdefault_idem | done]. Qed.

Lemma connect_one_DOWN w self target for_state :
  connect_one w self target for_state DOWN =
    _add_parent (_add_child w self target for_state.1 for_state.2)
      target self for_state.1 for_state.2.
Proof. done. Qed.

Lemma connect_one_UP w self target for_state :
  connect_one w self target for_state UP =
    _add_child (_add_parent w self target for_state.1 for_state.2)
      target self for_state.1 for_state.2.
Proof. done. Qed.

Lemma connect_one_BOTH w self target for_state :
  connect_one w self target for_state BOTH =
    _add_child (_add_parent
      (_add_parent (_add_child w self target for_state.1 for_state.2)
         target self for_state.1 for_state.2)
      self target for_state.1 for_state.2) target self for_state.1 for_state.2.
Proof. done. Qed.

Ltac by_direction direction :=
  destruct direction;
  [rewrite connect_one_DOWN | rewrite connect_one_UP | rewrite connect_one_BOTH].

Lemma heap_connect_one w self target for_state direction :
  heap (connect_one w self target for_state direction) =
    foldl (heap_write for_state.1 for_state.2) (heap w) (wiring_of self target direction).
Proof.
  by_direction direction;
    repeat (rewrite heap__add_child || rewrite heap__add_parent); done.
Qed.

Lemma state_cache_connect_one w self target for_state direction :
  state_cache (connect_one w self target for_state direction) =
    register_state for_state.1 for_state.2 (state_cache w).
Proof.
  by_direction direction;
    repeat (rewrite state_cache__add_child || rewrite state_cache__add_parent);
    by rewrite ?register_state_idem.
Qed.

Lemma register_name_ext w w' i r :
  (∀ j, name_of w' j = name_of w j) → register_name w' i r = register_name w i r.
Proof. intros H. unfold register_name. by rewrite H. Qed.

Lemma _nodes__add_child w self child cid st :
  _nodes (_add_child w self child cid st) = register_name w child (_nodes w).
Proof. by destruct (_add_child_wiring w self child cid st) as [_ ->]. Qed.

Lemma _nodes__add_parent w self parent cid st :
  _nodes (_add_parent w self parent cid st) = register_name w parent (_nodes w).
Proof. by destruct (_add_parent_wiring w self parent cid st) as [_ ->]. Qed.

Lemma register_name_registered w i r :
  ∀ nm, name_of w i = Some nm → is_Some (register_name w i r !! nm).
Proof.
  intros nm Hnm. unfold register_name. rewrite Hnm, setdefault_lookup. by eexists.
Qed.

Lemma register_name_keeps w i r k :
  is_Some (r !! k) → is_Some (register_name w i r !! k).
Proof.
  intros [x Hx]. unfold register_name. destruct (name_of w i); [|by eexists].
  exists x. by apply setdefault_preserves.
Qed.

Lemma register_name_noop w i r :
  (∀ nm, name_of w i = Some nm → is_Some (r !! nm)) → register_name w i r = r.
Proof.
  intros H. unfold register_name. destruct (name_of w i) as [nm|]; [|done].
  by apply setdefault_id, H.
Qed.

(** Registering the two ends a second time changes nothing. *)
Lemma register_name_twice w a b r :
  register_name w a (register_name w b (register_name w a (register_name w b r))) =
  register_name w a (register_name w b r).
Proof.
  rewrite (register_name_noop w b (register_name w a (register_name w b r))).
  - apply register_name_noop. intros nm Hnm. by apply register_name_registered.
  - intros nm Hnm. by apply register_name_keeps, register_name_registered.
Qed.

Lemma _nodes_connect_one w self target for_state direction :
  _nodes (connect_one w self target for_state direction) =
    register_name w self (register_name w target (_nodes w)).
Proof.
  assert (Hc : ∀ w1 a b, (∀ j, name_of w1 j = name_of w j) →
            (∀ j, name_of (_add_child w1 a b for_state.1 for_state.2) j = name_of w j) ∧
            _nodes (_add_child w1 a b for_state.1 for_state.2) =
              register_name w b (_nodes w1)).
  { intros w1 a b H. split.
    - intros j. by rewrite (proj1 (_add_child_wiring w1 a b _ _)).
    - rewrite _nodes__add_child. by apply register_name_ext. }
  assert (Hp : ∀ w1 a b, (∀ j, name_of w1 j = name_of w j) →
            (∀ j, name_of (_add_parent w1 a b for_state.1 for_state.2) j = name_of w j) ∧
            _nodes (_add_parent w1 a b for_state.1 for_state.2) =
              register_name w b (_nodes w1)).
  { intros w1 a b H. split.
    - intros j. by rewrite (proj1 (_add_parent_wiring w1 a b _ _)).
    - rewrite _nodes__add_parent. by apply register_name_ext. }
  by_direction direction.
  - destruct (Hc w self target (λ _, eq_refl)) as [N1 R1].
    destruct (Hp _ target self N1) as [N2 R2]. by rewrite R2, R1.
  - destruct (Hp w self target (λ _, eq_refl)) as [N1 R1].
    destruct (Hc _ target self N1) as [N2 R2]. by rewrite R2, R1.
  - destruct (Hc w self target (λ _, eq_refl)) as [N1 R1].
    destruct (Hp _ target self N1) as [N2 R2].
    destruct (Hp _ self target N2) as [N3 R3].
    destruct (Hc _ target self N3) as [N4 R4].
    rewrite R4, R3, R2, R1. apply register_name_twice.
Qed.

Lemma name_of_connect_one w self target for_state direction j :
  name_of (connect_one w self target for_state direction) j = name_of w j.
Proof.
  by_direction direction;
    repeat (rewrite (proj1 (_add_child_wiring _ _ _ _ _)) ||
            rewrite (proj1 (_add_parent_wiring _ _ _ _ _))); done.
Qed.

(** X6.  DOWN is the mirror of UP: connecting A to B downwards and
    connecting B to A upwards give the same world, under any state
    constraint, provided the two segments do not share a name (or are the
    same object), since the registry keeps the first of two same-named
    objects. *)
Theorem connect_down_mirrors_up w a b for_state :
  name_of w a ≠ name_of w b ∨ a = b →
  connect w a [b] for_state DOWN = connect w b [a] for_state UP.
Proof.
  intros Hnames. unfold connect. simpl. apply World_eq.
  - rewrite !heap_connect_one. unfold wiring_of. simpl.
    apply heap_write_commute.
  - by rewrite !state_cache_connect_one.
  - rewrite !_nodes_connect_one. destruct Hnames as [Hne| ->]; [|done].
    unfold register_name.
    destruct (name_of w a) as [na|], (name_of w b) as [nb|]; try done.
    apply setdefault_commute. congruence.
Qed.

Lemma connect_down_mirrors_up_witness :
  (name_of (network [("A", 1%Q); ("B", 2%Q)]) 0 ≠
   name_of (network [("A", 1%Q); ("B", 2%Q)]) 1 ∨ 0 = 1) ∧
  connect (network [("A", 1%Q); ("B", 2%Q)]) 0 [1] (Some (Some "g", "s")) DOWN =
  connect (network [("A", 1%Q); ("B", 2%Q)]) 1 [0] (Some (Some "g", "s")) UP.
Proof.
  assert (H : name_of (network [("A", 1%Q); ("B", 2%Q)]) 0 ≠
              name_of (network [("A", 1%Q); ("B", 2%Q)]) 1 ∨ 0 = 1)
    by (left; vm_compute; discriminate).
  split; [exact H|].
  exact (connect_down_mirrors_up (network [("A", 1%Q); ("B", 2%Q)]) 0 1 _ H).
Defined.

(** X7.  [connect] is idempotent: making the same connection a second
    time (same ends, same state constraint, same direction) leaves the
    world exactly as the first left it. *)
Theorem connect_twice_is_connect_once w self target for_state direction :
  connect (connect w self [target] for_state direction) self [target] for_state direction =
  connect w self [target] for_state direction.
Proof.
  unfold connect. simpl. apply World_eq.
  - rewrite !heap_connect_one. apply heap_writes_idem.
  - rewrite !state_cache_connect_one. apply register_state_idem.
  - rewrite (_nodes_connect_one (connect_one _ _ _ _ _)).
    rewrite !(register_name_ext w (connect_one w _ _ _ _))
      by (intros; apply name_of_connect_one).
    rewrite _nodes_connect_one.
    rewrite (register_name_noop w target).
    + apply register_name_noop. intros nm Hnm. by apply register_name_registered.
    + intros nm Hnm. by apply register_name_keeps, register_name_registered.
Qed.

(** ** The edges [connect] writes *)

Lemma run_edit_side e b d x :
  x ∈ side_of b (run_edit e d) ↔ x ∈ side_of b d ∨ adds e b x.
Proof.
  destruct e as [y|y], b; simpl; rewrite ?elem_of_union, ?elem_of_singleton; tauto.
Qed.

Lemma wire_bucket_ne edit cid st st' n :
  st ≠ st' → _connections (wire edit cid st n) !! st' = _connections n !! st'.
Proof.
  intros Hne. simpl. by rewrite lookup_alter_ne, setdefault_lookup_ne.
Qed.

Lemma in_bucket_wire e cid st s st' b x :
  in_bucket (wire (run_edit e) cid st s) st' (side_of b) x ↔
  in_bucket s st' (side_of b) x ∨ (st' = st ∧ adds e b x).
Proof.
  unfold in_bucket. destruct (decide (st = st')) as [<-|Hne].
  - rewrite wire_bucket. split.
    + intros (d & [= <-] & Hx). apply run_edit_side in Hx as [Hx|Hx]; [|by right].
      destruct (_connections s !! st) as [d|]; simpl in Hx; [left; eauto|].
      destruct b; by apply not_elem_of_empty in Hx.
    + intros [(d & Hd & Hx)|(_ & Hx)]; eexists; (split; [done|]);
        apply run_edit_side; [left; by rewrite Hd | by right].
  - rewrite wire_bucket_ne by done. split; [by left|].
    intros [H|(-> & _)]; done.
Qed.

Lemma length_heap_write cid st h ie : length (heap_write cid st h ie) = length h.
Proof. apply length_alter. Qed.

Lemma length_heap_writes cid st ies : ∀ h,
  length (foldl (heap_write cid st) h ies) = length h.
Proof.
  induction ies as [|ie ies IH]; intros h; simpl; [done|].
  by rewrite IH, length_heap_write.
Qed.

Lemma edge_heap_write cid st h a e i st' b x :
  edge (heap_write cid st h (a, e)) i st' b x ↔
  edge h i st' b x ∨ (i = a ∧ st' = st ∧ a < length h ∧ adds e b x).
Proof.
  unfold edge, heap_write. simpl. destruct (decide (a = i)) as [->|Hne].
  - rewrite list_lookup_alter_eq. destruct (h !! i) as [s|] eqn:Hs; simpl.
    + split.
      * intros (s' & [= <-] & Hb). apply in_bucket_wire in Hb as [Hb|(-> & Hx)].
        -- left. eauto.
        -- right. split_and!; try done. apply lookup_lt_is_Some_1. by eexists.
      * intros [(s' & [= <-] & Hb)|(_ & -> & _ & Hx)]; eexists; (split; [done|]);
          apply in_bucket_wire; [by left | by right].
    + split; [intros (s' & Hs' & _); discriminate|].
      intros [(s' & Hs' & _)|(_ & _ & Hlt & _)]; [discriminate|].
      apply lookup_lt_is_Some_2 in Hlt as [s' Hs']. congruence.
  - rewrite list_lookup_alter_ne by done. split; [by left|].
    intros [H|(-> & _)]; done.
Qed.

Lemma edge_heap_writes cid st ies : ∀ h i st' b x,
  edge (foldl (heap_write cid st) h ies) i st' b x ↔
  edge h i st' b x ∨ (st' = st ∧ i < length h ∧ ∃ e, (i, e) ∈ ies ∧ adds e b x).
Proof.
  induction ies as [|[a e] ies IH]; intros h i st' b x; simpl.
  - split; [by left|]. intros [H|(_ & _ & e & He & _)]; [done | inversion He].
  - rewrite IH, edge_heap_write, length_heap_write. split.
    + intros [[H|(-> & -> & Hlt & Hx)]|(-> & Hlt & e' & He' & Hx)].
      * by left.
      * right. split_and!; try done. exists e. split; [left | done].
      * right. split_and!; try done. exists e'. split; [by right | done].
    + intros [H|(-> & Hlt & e' & He' & Hx)]; [by left; left|].
      apply elem_of_cons in He' as [[= -> ->]|He'].
      * left. right. done.
      * right. split_and!; try done. eauto.
Qed.

(** X8.  [connect] writes exactly the edges of its direction, at both
    ends and in the one bucket named by the state constraint (CONSISTENT
    without one), and removes none: DOWN and BOTH make the target a child of
    [self] and [self] a parent of the target, UP and BOTH the reverse. *)
Theorem connect_writes_exactly_its_edges w self target for_state direction :
  valid w self → valid w target →
  let w' := connect w self [target] for_state direction in
  let bucket := (default (None, CONSISTENT) for_state).2 in
  ∀ st i x,
    (child_in w' st i x ↔
       child_in w st i x ∨
       (st = bucket ∧
        (((Direction_value direction ≤ 0)%Z ∧ i = self ∧ x = target) ∨
         ((0 ≤ Direction_value direction)%Z ∧ i = target ∧ x = self)))) ∧
    (parent_in w' st i x ↔
       parent_in w st i x ∨
       (st = bucket ∧
        (((Direction_value direction ≤ 0)%Z ∧ i = target ∧ x = self) ∨
         ((0 ≤ Direction_value direction)%Z ∧ i = self ∧ x = target)))).
Proof.
  intros Hs Ht w' bucket st i x. unfold child_in, parent_in, w', connect. simpl.
  rewrite heap_connect_one, !edge_heap_writes. fold bucket. unfold valid in *.
  split; (split; (intros [H|(-> & Hrest)]; [by left|right; split; [done|]])).
  - destruct Hrest as (_ & e & He & Hx).
    destruct direction; unfold wiring_of in He; simpl in He;
      repeat (apply elem_of_cons in He as [[= -> ->]|He]); simpl in Hx;
      try done; try (by inversion He); subst; simpl; (by left; split; [lia|]) ||
      (by right; split; [lia|]).
  - destruct Hrest as [(Hd & -> & ->)|(Hd & -> & ->)]; (split; [done|]).
    + exists (AddChild target). split; [|done].
      destruct direction; simpl in Hd; try lia; unfold wiring_of; simpl; left.
    + exists (AddChild self). split; [|done].
      destruct direction; simpl in Hd; try lia; unfold wiring_of; simpl;
        repeat ((by left) || right).
  - destruct Hrest as (_ & e & He & Hx).
    destruct direction; unfold wiring_of in He; simpl in He;
      repeat (apply elem_of_cons in He as [[= -> ->]|He]); simpl in Hx;
      try done; try (by inversion He); subst; simpl; (by left; split; [lia|]) ||
      (by right; split; [lia|]).
  - destruct Hrest as [(Hd & -> & ->)|(Hd & -> & ->)]; (split; [done|]).
    + exists (AddParent self). split; [|done].
      destruct direction; simpl in Hd; try lia; unfold wiring_of; simpl;
        repeat ((by left) || right).
    + exists (AddParent target). split; [|done].
      destruct direction; simpl in Hd; try lia; unfold wiring_of; simpl;
        repeat ((by left) || right).
Qed.

Lemma connect_writes_exactly_its_edges_witness :
  (valid (network [("A", 1%Q); ("B", 2%Q)]) 0 ∧
   valid (network [("A", 1%Q); ("B", 2%Q)]) 1) ∧
  (child_in (connect (network [("A", 1%Q); ("B", 2%Q)]) 0 [1] None BOTH) "consistent" 1 0 ↔
     child_in (network [("A", 1%Q); ("B", 2%Q)]) "consistent" 1 0 ∨
     ("consistent" = CONSISTENT ∧
      (((Direction_value BOTH ≤ 0)%Z ∧ 1 = 0 ∧ 0 = 1) ∨
       ((0 ≤ Direction_value BOTH)%Z ∧ 1 = 1 ∧ 0 = 0)))).
Proof.
  assert (H0 : valid (network [("A", 1%Q); ("B", 2%Q)]) 0) by (vm_compute; lia).
  assert (H1 : valid (network [("A", 1%Q); ("B", 2%Q)]) 1) by (vm_compute; lia).
  split; [done|].
  exact (proj1 (connect_writes_exactly_its_edges
                  (network [("A", 1%Q); ("B", 2%Q)]) 0 1 None BOTH H0 H1
                  "consistent" 1 0)).
Defined.

(** ** Invariants of every reachable world *)

Lemma symmetric_empty_world : symmetric empty_world.
Proof.
  intros st i j. unfold child_in, parent_in, edge. simpl.
  split; intros (s & Hs & _); by rewrite lookup_nil in Hs.
Qed.

Lemma edge_Segment_init w nm vol i st b x :
  edge (heap (Segment_init w nm vol).2) i st b x ↔ edge (heap w) i st b x.
Proof.
  unfold edge. simpl. split; intros (s & Hs & Hb).
  - apply lookup_app_Some in Hs as [Hs|[_ Hs]]; [eauto|].
    apply list_lookup_singleton_Some in Hs as [_ <-].
    destruct Hb as (d & Hd & Hx). simpl in Hd.
    apply lookup_singleton_Some in Hd as [_ <-].
    destruct b; by apply not_elem_of_empty in Hx.
  - exists s. split; [|done]. by apply lookup_app_l_Some.
Qed.

Lemma rates_only_edge w w' i st b x :
  rates_only w w' → edge (heap w') i st b x ↔ edge (heap w) i st b x.
Proof.
  intros (HF & _). unfold edge, in_bucket. split; intros (s & Hs & Hb).
  - destruct (Forall2_lookup_r _ _ _ _ _ HF Hs) as (s0 & Hs0 & (_ & _ & _ & Hc)).
    exists s0. by rewrite Hc.
  - destruct (Forall2_lookup_l _ _ _ _ _ HF Hs) as (s0 & Hs0 & (_ & _ & _ & Hc)).
    exists s0. by rewrite <- Hc.
Qed.

Lemma symmetric_connect_one w self target for_state direction :
  symmetric w → valid w self → valid w target →
  symmetric (connect_one w self target for_state direction).
Proof.
  intros Hsym Hs Ht st i j. unfold child_in, parent_in.
  rewrite heap_connect_one, !edge_heap_writes. unfold valid in *.
  specialize (Hsym st i j). unfold child_in, parent_in in Hsym. rewrite Hsym.
  split; (intros [H|(-> & Hlt & e & He & Hx)]; [by left|right; split; [done|]]).
  - destruct direction; unfold wiring_of in He; simpl in He;
      repeat (apply elem_of_cons in He as [[= -> ->]|He]); simpl in Hx;
      try done; try (by inversion He); subst; (split; [done|]);
      eexists (AddParent _); (split; [|done]); unfold wiring_of; simpl;
      repeat ((by left) || right).
  - destruct direction; unfold wiring_of in He; simpl in He;
      repeat (apply elem_of_cons in He as [[= -> ->]|He]); simpl in Hx;
      try done; try (by inversion He); subst; (split; [done|]);
      eexists (AddChild _); (split; [|done]); unfold wiring_of; simpl;
      repeat ((by left) || right).
Qed.

Lemma symmetric_connect targets : ∀ w self for_state direction,
  symmetric w → valid w self → Forall (valid w) targets →
  symmetric (connect w self targets for_state direction).
Proof.
  induction targets as [|t targets IH]; intros w self for_state direction Hsym Hs Hts;
    [done|].
  apply Forall_cons in Hts as [Ht Hts]. rewrite connect_cons.
  assert (Hlen : length (heap (connect_one w self t (default (None, CONSISTENT) for_state)
                                 direction)) = length (heap w))
    by (rewrite heap_connect_one; apply length_heap_writes).
  apply IH.
  - by apply symmetric_connect_one.
  - unfold valid in *. lia.
  - eapply Forall_impl; [exact Hts|]. intros y. unfold valid. lia.
Qed.

Lemma symmetric_rates_only w w' : rates_only w w' → symmetric w → symmetric w'.
Proof.
  intros Hr Hsym st i j. unfold child_in, parent_in.
  rewrite !(rates_only_edge w w') by done. apply Hsym.
Qed.

Lemma constructed_invariants w : constructed w → wf w ∧ symmetric w.
Proof.
  induction 1 as [|w nm vol _ [Hwf Hsym]|w self targets fs dir _ [Hwf Hsym] Hs Hts
                  |w g st _ [Hwf Hsym]|w self src _ [Hwf Hsym]
                  |w self crit src _ [Hwf Hsym]].
  - split; [apply wf_empty_world | apply symmetric_empty_world].
  - split; [by apply wf_Segment_init|].
    intros st i j. unfold child_in, parent_in. rewrite !edge_Segment_init. apply Hsym.
  - split; [by apply wf_connect | by apply symmetric_connect].
  - split; [by apply wf_set_state | exact Hsym].
  - split; [apply wf_writes_rates_only; [apply wro_time_from | done]|].
    eapply symmetric_rates_only; [apply wro_time_from | done].
  - split; [apply wf_writes_rates_only; [apply wro_check_flow_stability_from | done]|].
    eapply symmetric_rates_only; [apply wro_check_flow_stability_from | done].
Qed.

(** X9.  No reachable world makes a lookup fail: in every world built by
    constructing segments, connecting them, setting states and running
    queries, [connections] returns in both views for every constructed
    node (the unguarded [state_cache[state_id]] never raises KeyError), and
    [traverse] returns from every constructed node, for every condition,
    direction and view. *)
Theorem reachable_worlds_never_fail_a_lookup w self :
  constructed w → valid w self →
  (∀ ignore_state, ∃ c, connections w self ignore_state = Return c) ∧
  (∀ condition direction ignore_state,
     ∃ rs, traverse w condition direction ignore_state self = Return rs).
Proof.
  intros Hc Hv. destruct (constructed_invariants w Hc) as [Hwf _]. split.
  - intros ign. destruct (connections_wf w self ign Hwf Hv) as (c & H & _). eauto.
  - intros. by apply traverse_total.
Qed.

Lemma constructed_network segments : constructed (network segments).
Proof.
  unfold network. generalize constructed_empty. generalize empty_world.
  induction segments as [|nv segments IH]; intros w Hw; simpl; [done|].
  apply IH. by apply constructed_init.
Qed.

Ltac constructed_by_connect :=
  repeat (lazymatch goal with
          | |- constructed (connect _ _ _ _ _) =>
            apply constructed_connect;
            [| unfold valid; vm_compute; lia
             | repeat (apply Forall_cons_2 || apply Forall_nil_2);
               unfold valid; vm_compute; lia]
          end);
  apply constructed_network.

Lemma constructed_feedback : constructed feedback.
Proof. unfold feedback. cbv zeta. constructed_by_connect. Qed.

Lemma reachable_worlds_never_fail_a_lookup_witness :
  (constructed feedback ∧ valid feedback 1) ∧
  (∀ ignore_state, ∃ c, connections feedback 1 ignore_state = Return c) ∧
  (∀ condition direction ignore_state,
     ∃ rs, traverse feedback condition direction ignore_state 1 = Return rs).
Proof.
  assert (Hv : valid feedback 1) by (vm_compute; lia).
  split; [split; [exact constructed_feedback | exact Hv]|].
  exact (reachable_worlds_never_fail_a_lookup feedback 1 constructed_feedback Hv).
Defined.

(** X10.  Every edge is recorded at both ends: in every reachable world,
    [j] is a child of [i] in a bucket exactly when [i] is a parent of [j] in
    the bucket of the same name; hence, in the full view, [j] is a child of
    [i] exactly when [i] is a parent of [j]. *)
Theorem reachable_worlds_record_edges_at_both_ends w i j ci cj :
  constructed w →
  connections w i true = Return ci → connections w j true = Return cj →
  (∀ st, child_in w st i j ↔ parent_in w st j i) ∧
  (j ∈ children ci ↔ i ∈ parents cj).
Proof.
  intros Hc Hi Hj. destruct (constructed_invariants w Hc) as [_ Hsym].
  split; [intros st; apply Hsym|].
  apply connections_deref in Hi as (si & Hsi & Hi).
  apply connections_deref in Hj as (sj & Hsj & Hj).
  injection Hi as <-. injection Hj as <-.
  rewrite (full_side children), (full_side parents) by done.
  split; intros (st & Hb); exists st.
  - assert (H : child_in w st i j) by (exists si; by split).
    apply Hsym in H as (s & Hs & Hb'). rewrite Hsj in Hs. by injection Hs as <-.
  - assert (H : parent_in w st j i) by (exists sj; by split).
    apply Hsym in H as (s & Hs & Hb'). rewrite Hsi in Hs. by injection Hs as <-.
Qed.

Lemma reachable_worlds_record_edges_at_both_ends_witness :
  (constructed feedback ∧
   connections feedback 2 true = Return (mkEdgeSet {[1; 3]} {[1]}) ∧
   connections feedback 1 true = Return (mkEdgeSet {[2]} {[0; 2]})) ∧
  (∀ st, child_in feedback st 2 1 ↔ parent_in feedback st 1 2) ∧
  (1 ∈ children (mkEdgeSet {[1; 3]} ({[1]} : gset nat)) ↔
   2 ∈ parents (mkEdgeSet {[2]} ({[0; 2]} : gset nat))).
Proof.
  assert (H2 : connections feedback 2 true = Return (mkEdgeSet {[1; 3]} {[1]}))
    by (vm_compute; reflexivity).
  assert (H1 : connections feedback 1 true = Return (mkEdgeSet {[2]} {[0; 2]}))
    by (vm_compute; reflexivity).
  split; [exact (conj constructed_feedback (conj H2 H1))|].
  exact (reachable_worlds_record_edges_at_both_ends feedback 2 1 _ _
           constructed_feedback H2 H1).
Defined.

(** ** What a traversal reports, exactly *)

Lemma NoDup_concat_keyed {A K} (key : A → option K) ks rss :
  Forall2 (λ k r, NoDup r ∧ ∀ x, x ∈ r → key x = Some k) ks rss →
  NoDup ks → NoDup (concat rss).
Proof.
  induction 1 as [|k r ks rss [Hr Hk] HF IH]; simpl; intros Hnd; [constructor|].
  apply NoDup_cons in Hnd as [Hk' Hnd]. apply NoDup_app. split; [done|].
  split; [|by apply IH].
  intros x Hx Hx'. apply elem_of_concat in Hx' as (r' & Hxr' & Hr').
  apply list_elem_of_lookup in Hr' as [i Hi].
  destruct (Forall2_lookup_r _ _ _ _ _ HF Hi) as (k' & Hki & _ & Hkey).
  specialize (Hk x Hx). specialize (Hkey x Hxr'). rewrite Hk in Hkey.
  injection Hkey as <-. apply Hk'. apply list_elem_of_lookup. eauto.
Qed.

Lemma linked_cons w direction ignore_state x y q :
  linked w direction ignore_state (x :: y :: q) ↔
  step w direction ignore_state x y ∧ linked w direction ignore_state (y :: q).
Proof.
  unfold linked. split.
  - intros H. split; [by apply (H 0)|]. intros k a b Ha Hb. by apply (H (S k)).
  - intros [Hs H] [|k] a b Ha Hb; simpl in *.
    + by injection Ha as <-; injection Hb as <-.
    + by apply (H k).
Qed.

Lemma linked_singleton w direction ignore_state x : linked w direction ignore_state [x].
Proof. intros [|k] a b Ha Hb; simpl in *; discriminate. Qed.

Section exact.
Context (w : World) (target : nat → bool) (direction : Direction) (ignore_state : bool).

Lemma found_here visited path self m q :
  self ∉ visited →
  (m, q) ∈ (if target self then [(self, path ++ [self])] else []) →
  found w target direction ignore_state visited path self m q.
Proof.
  intros Hself Hin. destruct (target self) eqn:Ht; [|inversion Hin].
  apply list_elem_of_singleton in Hin. injection Hin as -> ->.
  split; [done|]. exists [self]. split; [done|]. split.
  - split_and!; [done | done | apply NoDup_singleton | apply linked_singleton].
  - intros x Hx. apply list_elem_of_singleton in Hx. by subst.
Qed.

Lemma found_below visited path self sub m q :
  self ∉ visited → step w direction ignore_state self sub →
  found w target direction ignore_state (visited ∪ {[self]}) (path ++ [self]) sub m q →
  found w target direction ignore_state visited path self m q.
Proof.
  intros Hself Hstep (Ht & q' & -> & (Hhead & Hlast & Hnd & Hch) & Havoid).
  split; [done|]. exists (self :: q'). split; [by rewrite <- app_assoc|].
  destruct q' as [|y q']; [discriminate|]. injection Hhead as ->.
  split.
  - split_and!; [done | done | | by apply linked_cons].
    apply NoDup_cons. split; [|done]. intros Hx. apply (Havoid _ Hx).
    apply elem_of_union. right. by apply elem_of_singleton.
  - intros x Hx. apply elem_of_cons in Hx as [->|Hx]; [done|].
    intros Hv. apply (Havoid _ Hx). apply elem_of_union. by left.
Qed.

Lemma found_inv visited path self m q :
  found w target direction ignore_state visited path self m q →
  (m = self ∧ q = path ++ [self] ∧ target self = true) ∨
  ∃ sub, step w direction ignore_state self sub ∧ (sub ∉ visited ∪ {[self]}) ∧
    found w target direction ignore_state (visited ∪ {[self]}) (path ++ [self]) sub m q.
Proof.
  intros (Ht & q' & -> & (Hhead & Hlast & Hnd & Hch) & Havoid).
  destruct q' as [|x q']; [discriminate|]. injection Hhead as ->.
  destruct q' as [|sub q'].
  - left. injection Hlast as <-. done.
  - right. exists sub. apply linked_cons in Hch as [Hstep Hch].
    apply NoDup_cons in Hnd as [Hne Hnd].
    assert (Hfresh : ∀ x, x ∈ sub :: q' → x ∉ visited ∪ {[self]}).
    { intros x Hx Hv. apply elem_of_union in Hv as [Hv|Hv].
      - apply (Havoid x); [by right | done].
      - apply elem_of_singleton in Hv. by subst. }
    split; [done|]. split; [apply Hfresh; left|].
    split; [done|]. exists (sub :: q'). split; [by rewrite <- app_assoc|].
    split; [|done]. split_and!; done.
Qed.

Lemma found_key visited path self m q :
  found w target direction ignore_state visited path self m q →
  q !! length path = Some self ∧ length path < length q.
Proof.
  intros (_ & q' & -> & (Hhead & _) & _).
  destruct q' as [|x q']; [discriminate|]. injection Hhead as ->.
  split; [by rewrite list_lookup_middle | rewrite length_app; simpl; lia].
Qed.

Lemma _traverse_exact : ∀ fuel visited path self rs,
  _traverse fuel w target direction ignore_state visited path self = Return rs →
  self ∉ visited →
  NoDup rs ∧
  ∀ m q, (m, q) ∈ rs ↔ found w target direction ignore_state visited path self m q.
Proof.
  induction fuel as [|fuel IH]; [discriminate|].
  intros visited path self rs H Hself.
  apply _traverse_Return in H as (c & rss & Hc & HF & ->).
  assert (Hsub : ∀ i sub r, elements (space_of direction c) !! i = Some sub →
            rss !! i = Some r →
            step w direction ignore_state self sub ∧
            NoDup r ∧
            ∀ m q, (m, q) ∈ r ↔
              (sub ∉ visited ∪ {[self]}) ∧
              found w target direction ignore_state (visited ∪ {[self]})
                (path ++ [self]) sub m q).
  { intros i sub r Hi Hr.
    destruct (Forall2_lookup_l _ _ _ _ _ HF Hi) as (r' & Hr' & Hcall).
    rewrite Hr in Hr'. injection Hr' as <-.
    split.
    { exists c. split; [done|]. apply elem_of_elements, list_elem_of_lookup. eauto. }
    destruct (decide (sub ∈ visited ∪ {[self]})) as [Hin|Hfresh].
    - injection Hcall as <-. split; [constructor|].
      intros m q. split; [intros Hx; inversion Hx | by intros [? _]].
    - destruct (IH _ _ _ _ Hcall Hfresh) as [Hnd Hiff]. split; [done|].
      intros m q. rewrite Hiff. tauto. }
  split.
  - apply NoDup_app. split_and!.
    + destruct (target self); [apply NoDup_singleton | constructor].
    + intros [m q] Hhere Hbelow.
      assert (q = path ++ [self]) as ->.
      { destruct (target self); [|inversion Hhere].
        apply list_elem_of_singleton in Hhere. by injection Hhere. }
      apply elem_of_concat in Hbelow as (r & Hin & Hr).
      apply list_elem_of_lookup in Hr as [i Hi].
      destruct (Forall2_lookup_r _ _ _ _ _ HF Hi) as (sub & Hsubi & _).
      destruct (Hsub i sub r Hsubi Hi) as (_ & _ & Hiff).
      apply Hiff in Hin as [_ Hin]. apply found_key in Hin as [_ Hlen]. lia.
    + apply (NoDup_concat_keyed (λ x, x.2 !! length (path ++ [self]))
               (elements (space_of direction c))); [|apply NoDup_elements].
      apply Forall2_same_length_lookup_2; [by eapply Forall2_length|].
      intros i sub r Hi Hr. destruct (Hsub i sub r Hi Hr) as (_ & Hnd & Hiff).
      split; [done|]. intros [m q] Hin. apply Hiff in Hin as [_ Hin].
      by apply found_key in Hin as [Hkey _].
  - intros m q. rewrite elem_of_app. split.
    + intros [Hhere|Hbelow]; [by apply found_here|].
      apply elem_of_concat in Hbelow as (r & Hin & Hr).
      apply list_elem_of_lookup in Hr as [i Hi].
      destruct (Forall2_lookup_r _ _ _ _ _ HF Hi) as (sub & Hsubi & _).
      destruct (Hsub i sub r Hsubi Hi) as (Hstep & _ & Hiff).
      apply Hiff in Hin as [_ Hin]. by eapply found_below.
    + intros Hf. apply found_inv in Hf as [(-> & -> & Ht)|(sub & Hstep & Hfresh & Hf)].
      * left. rewrite Ht. by apply list_elem_of_singleton.
      * right. destruct Hstep as (c' & Hc' & Hin). rewrite Hc in Hc'.
        injection Hc' as <-.
        apply elem_of_elements, list_elem_of_lookup in Hin as [i Hi].
        destruct (Forall2_lookup_l _ _ _ _ _ HF Hi) as (r & Hr & _).
        destruct (Hsub i sub r Hi Hr) as (_ & _ & Hiff).
        apply elem_of_concat. exists r. split; [by apply Hiff|].
        apply list_elem_of_lookup. eauto.
Qed.
End exact.

(** X11.  A traversal reports exactly the simple paths of the search: a
    pair (match, path) is in the result if and only if the match satisfies
    the condition and the path is a duplicate-free walk along search steps
    from the start to the match; and no pair is reported twice. *)
Theorem traverse_reports_each_simple_path_once w condition direction ignore_state
    self rs :
  traverse w condition direction ignore_state self = Return rs →
  NoDup rs ∧
  ∀ m q, (m, q) ∈ rs ↔
    default default_condition condition m = true ∧
    simple_path w direction ignore_state self m q.
Proof.
  intros H. unfold traverse in H.
  destruct (_traverse_exact w _ direction ignore_state _ _ _ _ _ H
              (not_elem_of_empty self)) as [Hnd Hiff].
  split; [done|]. intros m q. rewrite Hiff. unfold found. split.
  - intros (Ht & q' & -> & Hp & _). done.
  - intros (Ht & Hp). split; [done|]. exists q. split; [done|]. split; [done|].
    intros x _. apply not_elem_of_empty.
Qed.

Lemma traverse_reports_each_simple_path_once_witness :
  traverse diamond (Some (named diamond "T")) DOWN false 0 =
    Return [(3, [0; 2; 3]); (3, [0; 1; 3])] ∧
  NoDup [(3, [0; 2; 3]); (3, [0; 1; 3])] ∧
  ((3, [0; 1; 3]) ∈ [(3, [0; 2; 3]); (3, [0; 1; 3])] ↔
     named diamond "T" 3 = true ∧ simple_path diamond DOWN false 0 3 [0; 1; 3]).
Proof.
  assert (H : traverse diamond (Some (named diamond "T")) DOWN false 0 =
              Return [(3, [0; 2; 3]); (3, [0; 1; 3])]) by (vm_compute; reflexivity).
  split; [exact H|].
  destruct (traverse_reports_each_simple_path_once diamond _ DOWN false 0 _ H)
    as [Hnd Hiff].
  split; [exact Hnd | exact (Hiff 3 [0; 1; 3])].
Defined.

(** X12.  [volume_to] by paths: in a well-formed world it returns [None]
    exactly when no simple path leads from the start to a segment of the
    target name, and raises [RuntimeError] exactly when two different ones
    do. *)
Theorem volume_to_by_simple_paths w self target_name direction :
  wf w → valid w self →
  (volume_to w self target_name direction = Return None ↔
     ∀ m q, named w target_name m = true → ¬ simple_path w direction false self m q) ∧
  (volume_to w self target_name direction = Raise RuntimeError ↔
     ∃ m q m' q', (m, q) ≠ (m', q') ∧
       named w target_name m = true ∧ simple_path w direction false self m q ∧
       named w target_name m' = true ∧ simple_path w direction false self m' q').
Proof.
  intros Hwf Hv.
  destruct (traverse_total w (Some (named w target_name)) direction false self Hwf Hv)
    as [rs H].
  pose proof (volume_to_by_cases _ _ _ _ _ H) as Hc.
  unfold traverse in H.
  destruct (_traverse_exact w _ direction false _ _ _ _ _ H (not_elem_of_empty self))
    as [Hnd Hiff].
  assert (Hin : ∀ m q, (m, q) ∈ rs ↔
            named w target_name m = true ∧ simple_path w direction false self m q).
  { intros m q. rewrite Hiff. unfold found. simpl. split.
    - by intros (Ht & q' & -> & Hp & _).
    - intros (Ht & Hp). split; [done|]. exists q. split; [done|]. split; [done|].
      intros x _. apply not_elem_of_empty. }
  destruct rs as [|[m1 q1] [|[m2 q2] rs]].
  - rewrite Hc. split.
    + split; [|done]. intros _ m q Ht Hp.
      assert (Hx : (m, q) ∈ @nil (nat * list nat)) by by apply Hin. inversion Hx.
    + split; [discriminate|]. intros (m & q & _ & _ & _ & Ht & Hp & _).
      assert (Hx : (m, q) ∈ @nil (nat * list nat)) by by apply Hin. inversion Hx.
  - destruct Hc as [v Hc]. rewrite Hc. split.
    + split; [discriminate|]. intros Hno. exfalso.
      destruct (proj1 (Hin m1 q1)) as [Ht Hp]; [left|]. by apply (Hno m1 q1).
    + split; [discriminate|]. intros (m & q & m' & q' & Hne & Ht & Hp & Ht' & Hp').
      exfalso. apply Hne.
      assert (Hx : (m, q) ∈ [(m1, q1)]) by by apply Hin.
      assert (Hx' : (m', q') ∈ [(m1, q1)]) by by apply Hin.
      apply list_elem_of_singleton in Hx, Hx'. congruence.
  - rewrite Hc. split.
    + split; [discriminate|]. intros Hno. exfalso.
      destruct (proj1 (Hin m1 q1)) as [Ht Hp]; [left|]. by apply (Hno m1 q1).
    + split; [|done]. intros _. exists m1, q1, m2, q2.
      destruct (proj1 (Hin m1 q1)) as [Ht1 Hp1]; [left|].
      destruct (proj1 (Hin m2 q2)) as [Ht2 Hp2]; [right; left|].
      split_and!; try done. intros Heq.
      apply NoDup_cons in Hnd as [Hnotin _]. apply Hnotin. rewrite Heq. left.
Qed.

Lemma volume_to_by_simple_paths_witness :
  (wf diamond ∧ valid diamond 0) ∧
  (volume_to diamond 0 "T" DOWN = Raise RuntimeError ↔
     ∃ m q m' q', (m, q) ≠ (m', q') ∧
       named diamond "T" m = true ∧ simple_path diamond DOWN false 0 m q ∧
       named diamond "T" m' = true ∧ simple_path diamond DOWN false 0 m' q').
Proof.
  assert (Hwf : wf diamond) by decide_by_computation.
  assert (Hv : valid diamond 0) by (vm_compute; lia).
  split; [exact (conj Hwf Hv)|].
  exact (proj2 (volume_to_by_simple_paths diamond 0 "T" DOWN Hwf Hv)).
Defined.

Lemma accumulate_snoc f acc l x total v :
  accumulate f acc l = Return total → f x = Return v →
  accumulate f acc (l ++ [x]) = Return (total + v)%Q.
Proof.
  revert acc. induction l as [|y l IH]; simpl; intros acc Ht Hv.
  - injection Ht as <-. by rewrite Hv.
  - destruct (f y) as [vy| |]; simpl in *; [|done..]. by apply IH.
Qed.

(** X13.  How [volume_to] leaves the target out: when the traversal finds
    a single path, the match is the last node of it, and the value returned
    is the running sum of the path's volumes, the match's volume added last,
    with the match's volume then subtracted:
    ((0.0 + the volumes of the nodes before the match) + final.volume)
    - final.volume.  The start's volume is counted.  (The theorem gives the
    expression the code evaluates; that the subtraction cancels the last
    addition is a fact of exact arithmetic and is not claimed.) *)
Theorem volume_to_excludes_the_target w self target_name direction final path :
  traverse w (Some (named w target_name)) direction false self = Return [(final, path)] →
  ∃ before total vf,
    path = before ++ [final] ∧
    accumulate (Segment_volume w) 0%Q before = Return total ∧
    Segment_volume w final = Return vf ∧
    volume_to w self target_name direction = Return (Some (total + vf - vf)%Q) ∧
    (before ≠ [] → head before = Some self).
Proof.
  intros H.
  destruct (traverse_yields _ _ _ _ _ _ final path H) as (_ & q' & Hq & Hlast & _ & Hall);
    [left|].
  simpl in Hq. rewrite <- Hq in Hlast, Hall.
  pose proof Hlast as Hl. apply last_Some in Hl as [before Hb].
  destruct (Segment_volume_valid w final) as [vf Hvf].
  { apply Hall. by apply last_Some_elem_of. }
  destruct (accumulate_total (Segment_volume w) 0%Q before) as [total Ht].
  { intros x Hx. apply Segment_volume_valid, Hall. rewrite Hb.
    apply elem_of_app. by left. }
  exists before, total, vf. split_and!; try done.
  - unfold volume_to. rewrite H. simpl. rewrite Hb.
    rewrite (accumulate_snoc _ _ _ _ _ _ Ht Hvf). simpl. by rewrite Hvf.
  - intros Hne. rewrite Hq in Hb. destruct before as [|x before]; [done|].
    simpl in Hb. by injection Hb as <- _.
Qed.

Lemma volume_to_excludes_the_target_witness :
  traverse chain (Some (named chain "C")) DOWN false 0 = Return [(2, [0; 1; 2])] ∧
  volume_to chain 0 "C" DOWN = Return (Some (0 + 10 + 20 + 30 - 30)%Q) ∧
  ∃ before total vf,
    [0; 1; 2] = before ++ [2] ∧
    accumulate (Segment_volume chain) 0%Q before = Return total ∧
    Segment_volume chain 2 = Return vf ∧
    volume_to chain 0 "C" DOWN = Return (Some (total + vf - vf)%Q) ∧
    (before ≠ [] → head before = Some 0).
Proof.
  assert (H : traverse chain (Some (named chain "C")) DOWN false 0 =
              Return [(2, [0; 1; 2])]) by (vm_compute; reflexivity).
  assert (Hv : volume_to chain 0 "C" DOWN = Return (Some (0 + 10 + 20 + 30 - 30)%Q))
    by (vm_compute; reflexivity).
  split; [exact H|]. split; [exact Hv|].
  exact (volume_to_excludes_the_target chain 0 "C" DOWN 2 [0; 1; 2] H).
Defined.

(** ** Queries and the topology *)

Lemma rates_only_named w w' target_name n :
  rates_only w w' → named w' target_name n = named w target_name n.
Proof.
  intros (HF & _). unfold named.
  destruct (heap w' !! n) as [s'|] eqn:Hs'.
  - destruct (Forall2_lookup_r _ _ _ _ _ HF Hs') as (s & Hs & (Hn & _)).
    by rewrite Hs, Hn.
  - destruct (heap w !! n) as [s|] eqn:Hs; [|done].
    destruct (Forall2_lookup_l _ _ _ _ _ HF Hs) as (s' & Hs'' & _). congruence.
Qed.

Lemma rates_only_Segment_volume w w' i :
  rates_only w w' → Segment_volume w' i = Segment_volume w i.
Proof.
  intros (HF & _). unfold Segment_volume, deref.
  destruct (heap w' !! i) as [s'|] eqn:Hs'.
  - destruct (Forall2_lookup_r _ _ _ _ _ HF Hs') as (s & Hs & (_ & Hv & _)).
    rewrite Hs. simpl. by rewrite Hv.
  - destruct (heap w !! i) as [s|] eqn:Hs; [|done].
    destruct (Forall2_lookup_l _ _ _ _ _ HF Hs) as (s' & Hs'' & _). congruence.
Qed.

Lemma rates_only_traverse w w' condition condition' direction ignore_state self :
  rates_only w w' →
  (∀ n, default default_condition condition' n = default default_condition condition n) →
  traverse w' condition' direction ignore_state self =
  traverse w condition direction ignore_state self.
Proof.
  intros Hr Hc. unfold traverse. rewrite (rates_only_length _ _ Hr).
  apply _traverse_ext; [|done]. intros i. by apply rates_only_connections.
Qed.

Lemma rates_only_volume_to w w' self target_name direction :
  rates_only w w' →
  volume_to w' self target_name direction = volume_to w self target_name direction.
Proof.
  intros Hr. unfold volume_to.
  rewrite (rates_only_traverse w w' (Some (named w target_name))
             (Some (named w' target_name))); [|done|].
  - destruct (traverse w _ direction false self) as [rs| |]; simpl; [|done..].
    destruct rs as [|[final path] [|? ?]]; [done| |done]. simpl.
    rewrite (accumulate_ext (Segment_volume w') (Segment_volume w));
      [|intros; by apply rates_only_Segment_volume].
    by rewrite (rates_only_Segment_volume _ _ _ Hr).
  - intros n. simpl. by apply rates_only_named.
Qed.

(** X14.  Flow rates are the only thing a propagation query writes:
    whether [time_from] or [check_flow_stability_from] returns or raises,
    the world it leaves has the same registry, the same connections in both
    views, and gives the same answers to [traverse] and [volume_to]. *)
Theorem queries_leave_the_topology_alone self critical_flow_ratio src w w' :
  w' = (time_from self src w).2 ∨
  w' = (check_flow_stability_from self critical_flow_ratio src w).2 →
  _nodes w' = _nodes w ∧ state_cache w' = state_cache w ∧
  (∀ node ignore_state, connections w' node ignore_state = connections w node ignore_state) ∧
  (∀ condition direction ignore_state start,
     traverse w' condition direction ignore_state start =
     traverse w condition direction ignore_state start) ∧
  (∀ start target_name direction,
     volume_to w' start target_name direction = volume_to w start target_name direction).
Proof.
  intros H.
  assert (Hr : rates_only w w').
  { destruct H as [-> | ->];
      [apply wro_time_from | apply wro_check_flow_stability_from]. }
  pose proof Hr as (_ & Hc & Hn). split_and!; try done.
  - intros. by apply rates_only_connections.
  - intros. by apply rates_only_traverse.
  - intros. by apply rates_only_volume_to.
Qed.

Lemma queries_leave_the_topology_alone_witness :
  ((time_from 3 [("S", 5%Q)] diamond).2 = (time_from 3 [("S", 5%Q)] diamond).2 ∨
   (time_from 3 [("S", 5%Q)] diamond).2 =
     (check_flow_stability_from 3 10 [("S", 5%Q)] diamond).2) ∧
  _nodes (time_from 3 [("S", 5%Q)] diamond).2 = _nodes diamond.
Proof.
  split; [by left|].
  exact (proj1 (queries_leave_the_topology_alone 3 10 [("S", 5%Q)] diamond _
                  (or_introl eq_refl))).
Defined.

(** ** Queries on the edge of the registry *)








(** ** The two outputs of the stability check *)

Lemma Qlt_bool_iff x y : Qlt_bool x y = true ↔ (x < y)%Q.
Proof.
  unfold Qlt_bool. rewrite negb_true_iff. split.
  - intros H. apply Qnot_le_lt. intros Hle. apply Qle_bool_iff in Hle. congruence.
  - intros H. destruct (Qle_bool y x) eqn:E; [|done]. apply Qle_bool_iff in E. lra.
Qed.

Lemma Qlt_bool_false x y : Qlt_bool x y = false ↔ (y <= x)%Q.
Proof.
  split.
  - intros H. apply Qnot_lt_le. intros Hlt. apply Qlt_bool_iff in Hlt. congruence.
  - intros H. destruct (Qlt_bool x y) eqn:E; [|done]. apply Qlt_bool_iff in E. lra.
Qed.

Lemma Q_max_list_ge others : ∀ first, (first <= Q_max_list first others)%Q.
Proof.
  unfold Q_max_list. induction others as [|x others IH]; intros first; simpl; [lra|].
  destruct (Qlt_bool first x) eqn:E.
  - apply Qlt_bool_iff in E. specialize (IH x). lra.
  - apply IH.
Qed.

Lemma Q_min_list_le others : ∀ first, (Q_min_list first others <= first)%Q.
Proof.
  unfold Q_min_list. induction others as [|x others IH]; intros first; simpl; [lra|].
  destruct (Qlt_bool x first) eqn:E.
  - apply Qlt_bool_iff in E. specialize (IH x). lra.
  - apply IH.
Qed.

Lemma Q_min_list_pos others : ∀ first,
  (0 < first)%Q → Forall (λ r, (0 < r)%Q) others → (0 < Q_min_list first others)%Q.
Proof.
  unfold Q_min_list. induction others as [|x others IH]; intros first Hf Ho; simpl;
    [done|].
  apply Forall_cons in Ho as [Hx Ho]. destruct (Qlt_bool x first); by apply IH.
Qed.

Lemma inlet_rates_positive w segment rates :
  inlet_rates w segment = Return rates → Forall (λ r, (0 < r)%Q) rates.
Proof.
  unfold inlet_rates. intros H.
  apply bind_Return in H as (c & _ & H). apply bind_Return in H as (all & _ & [= <-]).
  induction all as [|r all IH]; simpl; [constructor|].
  destruct (Qlt_bool 0 r) eqn:E; [|done].
  constructor; [by apply Qlt_bool_iff | done].
Qed.

Lemma flow_ratio_at_least_1 r rs :
  (0 < r)%Q → Forall (λ r, (0 < r)%Q) rs →
  (1 <= Q_max_list r rs / Q_min_list r rs)%Q.
Proof.
  intros Hr Hrs. apply Qle_shift_div_l; [by apply Q_min_list_pos|].
  pose proof (Q_max_list_ge rs r). pose proof (Q_min_list_le rs r). lra.
Qed.

Lemma Ratio_max_spec largest flow_ratio :
  ∃ q, Ratio_max largest flow_ratio = Finite q ∧ (flow_ratio <= q)%Q ∧
       (∀ l, largest = Finite l → (l <= q)%Q) ∧
       (q = flow_ratio ∨ largest = Finite q).
Proof.
  destruct largest as [|l]; simpl.
  - exists flow_ratio. split_and!; [done | lra | discriminate | by left].
  - destruct (Qlt_bool l flow_ratio) eqn:E.
    + apply Qlt_bool_iff in E. exists flow_ratio.
      split_and!; [done | lra | | by left]. intros l' [= ->]. lra.
    + apply Qlt_bool_false in E. exists l.
      split_and!; [done | done | | by right]. intros l' [= ->]. lra.
Qed.

Lemma inspect_segment_coherent critical_flow_ratio w acc segment acc' :
  coherent critical_flow_ratio acc →
  inspect_segment critical_flow_ratio w acc segment = Return acc' →
  coherent critical_flow_ratio acc'.
Proof.
  intros [Hone Hcrit] H. unfold inspect_segment in H.
  apply bind_Return in H as (rates & Hrates & H).
  destruct rates as [|r rs]; [by injection H as <-|].
  apply inlet_rates_positive in Hrates. apply Forall_cons in Hrates as [Hr Hrs].
  pose proof (flow_ratio_at_least_1 r rs Hr Hrs) as Hge.
  set (flow_ratio := (Q_max_list r rs / Q_min_list r rs)%Q) in *.
  destruct (Ratio_max_spec acc.2 flow_ratio) as (q & Hq & Hfq & Hlq & Hwhich).
  assert (Hone' : ∀ q', Finite q = Finite q' → (1 <= q')%Q).
  { intros q' [= <-]. lra. }
  destruct (Qlt_bool critical_flow_ratio flow_ratio) eqn:E.
  - apply Qlt_bool_iff in E. apply bind_Return in H as (nm & _ & [= <-]). simpl.
    rewrite Hq. split; [done|]. intros _. exists q. split; [done | lra].
  - injection H as <-. simpl. rewrite Hq. split; [done|].
    intros Hne. destruct (Hcrit Hne) as (l & Hl & Hlt). exists q. split; [done|].
    specialize (Hlq l Hl). lra.
Qed.

Lemma inspect_all_coherent critical_flow_ratio w segments : ∀ acc acc',
  coherent critical_flow_ratio acc →
  inspect_all critical_flow_ratio w acc segments = Return acc' →
  coherent critical_flow_ratio acc'.
Proof.
  induction segments as [|segment segments IH]; simpl; intros acc acc' Hc H.
  - by injection H as <-.
  - apply bind_Return in H as (acc1 & H1 & H). eapply IH; [|exact H].
    by eapply inspect_segment_coherent.
Qed.

(** X17.  The two outputs of [check_flow_stability_from] agree: a finite
    worst ratio is at least 1 (it is a largest over a smallest positive
    rate), and whenever the unstable set is not empty the worst ratio is
    finite and exceeds the critical ratio; with worst ratio -Inf the set is
    empty. *)
Theorem stability_outputs_agree self critical_flow_ratio src w unstable largest w' :
  check_flow_stability_from self critical_flow_ratio src w =
    (Return (Some (unstable, largest)), w') →
  (∀ q, largest = Finite q → (1 <= q)%Q) ∧
  (unstable ≠ ∅ → ∃ q, largest = Finite q ∧ (critical_flow_ratio < q)%Q) ∧
  (largest = NegInf → unstable = ∅).
Proof.
  rewrite check_flow_stability_from_eq. intros H.
  destruct (Segment_name w self) as [nm| |]; [|done..].
  destruct (_build_flow_rates_between self nm src w) as [[built|e|] w1]; [| |done].
  - destruct (inspect_all _ _ _ _) as [result| |] eqn:Hall; [|done..].
    injection H as -> _.
    assert (Hinit : coherent critical_flow_ratio (∅, NegInf)).
    { split; [discriminate | done]. }
    destruct (inspect_all_coherent _ _ _ _ _ Hinit Hall) as [H1 H2].
    split_and!; [done | done |]. simpl in *.
    intros ->. destruct (decide (unstable = ∅)) as [|Hne]; [done|].
    destruct (H2 Hne) as (q & Hq & _). discriminate.
  - destruct (is_LookupError e); done.
Qed.

Lemma stability_outputs_agree_witness :
  check_flow_stability_from 1 (1 # 2) [("A", 60%Q)] chain =
    (Return (Some ({["B"]}, Finite (60 / 60))), chain) ∧
  (∀ q, Finite (60 / 60) = Finite q → (1 <= q)%Q) ∧
  (({["B"]} : gset string) ≠ ∅ → ∃ q, Finite (60 / 60) = Finite q ∧ (1 # 2 < q)%Q) ∧
  (Finite (60 / 60) = NegInf → ({["B"]} : gset string) = ∅).
Proof.
  assert (H : check_flow_stability_from 1 (1 # 2) [("A", 60%Q)] chain =
              (Return (Some ({["B"]}, Finite (60 / 60))), chain))
    by (vm_compute; reflexivity).
  split; [exact H|].
  exact (stability_outputs_agree 1 (1 # 2) _ chain _ _ _ H).
Defined.

(** ** The outcomes of the propagation queries *)

Lemma _build_flow_rates_between_registered self target_name src w :
  is_Some (_nodes w !! target_name) →
  _build_flow_rates_between self target_name src w =
    match find_paths (seed_sources src (reset_flow_rates w)) target_name src.*1 src.*1
            (mkPaths [] ∅ []) with
    | Return found =>
      match converge 1001 0 (path_elements found)
              (seed_sources src (reset_flow_rates w)) with
      | (Return _, w3) => (Return (valid_sources found, valid_paths found), w3)
      | (Raise e, w3) => (Raise e, w3)
      | (Stuck, w3) => (Stuck, w3)
      end
    | Raise e => (Raise e, seed_sources src (reset_flow_rates w))
    | Stuck => (Stuck, seed_sources src (reset_flow_rates w))
    end.
Proof.
  intros H. unfold _build_flow_rates_between, and_then, query, update, raise, unit_action.
  cbv beta iota. rewrite bool_decide_eq_true_2 by done.
  change (negb true) with false. cbv beta iota.
  destruct (find_paths _ _ _ _ _) as [found| |]; [|done..].
  by destruct (converge 1001 0 (path_elements found) _) as [[?| |] ?].
Qed.

Lemma traverse_constructed w condition direction ignore_state self rs m q :
  traverse w condition direction ignore_state self = Return rs → (m, q) ∈ rs →
  ∀ x, x ∈ m :: q → valid w x.
Proof.
  intros H Hin.
  destruct (traverse_yields _ _ _ _ _ _ _ _ H Hin) as (_ & q' & -> & Hlast & _ & Hall).
  simpl. intros x Hx. apply lookup_lt_is_Some.
  apply elem_of_cons in Hx as [->|Hx].
  - apply Hall. by apply last_Some_elem_of.
  - by apply Hall.
Qed.


Lemma segments_assoc_setdefault nm seg elems x :
  x ∈ segments (assoc_setdefault nm (seg, false) elems) → x ∈ segments elems ∨ x = seg.
Proof.
  unfold assoc_setdefault. case_bool_decide; [by left|].
  unfold segments. rewrite fmap_app. intros Hx.
  apply elem_of_app in Hx as [Hx|Hx]; [by left|right].
  by apply list_elem_of_singleton in Hx.
Qed.

Lemma add_path_elements_spec w target_name sources path : ∀ elems,
  Forall (valid w) path →
  Forall (eligible w target_name sources) (segments elems) →
  ∃ elems', add_path_elements w target_name sources path elems = Return elems' ∧
    Forall (eligible w target_name sources) (segments elems').
Proof.
  induction path as [|seg path IH]; intros elems Hp He; simpl.
  - by eexists.
  - apply Forall_cons in Hp as [Hseg Hp].
    apply lookup_lt_is_Some in Hseg as [s Hs].
    unfold Segment_name, deref. rewrite Hs. simpl.
    destruct (bool_decide (name (data s) = target_name)
              || bool_decide (name (data s) ∈ sources)) eqn:E.
    + by apply IH.
    + apply IH; [done|]. apply orb_false_iff in E as [E1 E2].
      apply bool_decide_eq_false in E1, E2.
      apply Forall_forall. intros x Hx.
      apply segments_assoc_setdefault in Hx as [Hx| ->].
      * rewrite Forall_forall in He. by apply He.
      * exists (name (data s)). unfold name_of. by rewrite Hs.
Qed.

Lemma ambiguous_cons w target_name nm todo :
  ambiguous w target_name (nm :: todo) ↔
  (∃ source rs, _nodes w !! nm = Some source ∧
     traverse w (Some (named w target_name)) DOWN false source = Return rs ∧
     1 < length rs) ∨
  ambiguous w target_name todo.
Proof.
  unfold ambiguous. split.
  - intros (k & source & rs & Hk & Hreg & Hrs & Hlen).
    apply elem_of_cons in Hk as [->|Hk]; [left; eauto|right; eauto 10].
  - intros [(source & rs & Hreg & Hrs & Hlen)|(k & source & rs & Hk & H)].
    + exists nm, source, rs. split; [left|done].
    + exists k, source, rs. split; [by right|done].
Qed.

Lemma ambiguous_nil w target_name : ¬ ambiguous w target_name [].
Proof. intros (k & _ & _ & Hk & _). by apply elem_of_nil in Hk. Qed.

Lemma find_paths_spec w target_name sources todo : ∀ acc,
  wf w → sound_paths w target_name sources acc →
  (∃ found, find_paths w target_name sources todo acc = Return found ∧
     sound_paths w target_name sources found ∧ ¬ ambiguous w target_name todo) ∨
  (find_paths w target_name sources todo acc = Raise RuntimeError ∧
     ambiguous w target_name todo).
Proof.
  induction todo as [|nm todo IH]; intros acc Hwf Hacc; simpl.
  - left. exists acc. split_and!; [done | done | apply ambiguous_nil].
  - destruct (_nodes w !! nm) as [source|] eqn:Hreg.
    + assert (Hv : valid w source) by (by apply (proj2 Hwf nm)).
      destruct (traverse_total w (Some (named w target_name)) DOWN false source Hwf Hv)
        as [rs Hrs].
      rewrite Hrs. simpl. destruct rs as [|[final path] [|second rest]].
      * destruct (IH acc Hwf Hacc) as [(found & Hf & Hs & Hna)|[Hf Ha]].
        -- left. exists found. split_and!; [done..|].
           rewrite ambiguous_cons. intros [(s' & rs' & Hreg' & Hrs' & Hlen)|Ha]; [|done].
           rewrite Hreg in Hreg'. injection Hreg' as <-. rewrite Hrs in Hrs'.
           injection Hrs' as <-. simpl in Hlen. lia.
        -- right. split; [done|]. rewrite ambiguous_cons. by right.
      * assert (Hpath : Forall (valid w) path).
        { apply Forall_forall. intros x Hx.
          apply (traverse_constructed _ _ _ _ _ _ final path Hrs); [left | by right]. }
        destruct Hacc as (He & Hsrc & Hps).
        destruct (add_path_elements_spec w target_name sources path _ Hpath He)
          as (elems & Helems & He').
        rewrite Helems. simpl.
        destruct (IH (mkPaths elems (valid_sources acc ∪ {[source]})
                        (valid_paths acc ++ [path])) Hwf)
          as [(found & Hf & Hs & Hna)|[Hf Ha]].
        -- split_and!; simpl; [done| |].
           ++ intros s' Hs'. apply elem_of_union in Hs' as [Hs'|Hs']; [by apply Hsrc|].
              apply elem_of_singleton in Hs' as ->. eauto.
           ++ apply Forall_app. split; [done|]. by apply Forall_singleton.
        -- left. exists found. split_and!; [done..|].
           rewrite ambiguous_cons. intros [(s' & rs' & Hreg' & Hrs' & Hlen)|Ha]; [|done].
           rewrite Hreg in Hreg'. injection Hreg' as <-. rewrite Hrs in Hrs'.
           injection Hrs' as <-. simpl in Hlen. lia.
        -- right. split; [done|]. rewrite ambiguous_cons. by right.
      * right. split; [done|]. rewrite ambiguous_cons. left.
        exists source, ((final, path) :: second :: rest). split_and!; [done..|simpl; lia].
    + destruct (IH acc Hwf Hacc) as [(found & Hf & Hs & Hna)|[Hf Ha]].
      * left. exists found. split_and!; [done..|].
        rewrite ambiguous_cons. intros [(s' & rs' & Hreg' & _)|Ha]; [congruence|done].
      * right. split; [done|]. rewrite ambiguous_cons. by right.
Qed.

Lemma rates_only_sym w w' : rates_only w w' → rates_only w' w.
Proof.
  intros (HF & Hs & Hn). split_and!; [|done..].
  apply Forall2_flip. eapply Forall2_impl; [exact HF|].
  intros s s' (H1 & H2 & H3 & H4). by split_and!.
Qed.




Lemma duration_valid w x : valid w x → ∃ v, duration w x = Return v.
Proof.
  intros Hv. apply lookup_lt_is_Some in Hv as [s Hs]. unfold duration, deref.
  rewrite Hs. simpl. destruct (Qlt_bool _ _); eauto.
Qed.










(** ** The registry names its nodes *)

Lemma register_name_lookup w i r nm j :
  register_name w i r !! nm = Some j →
  r !! nm = Some j ∨ (j = i ∧ name_of w i = Some nm).
Proof.
  unfold register_name. destruct (name_of w i) as [k|] eqn:Hk; [|by left].
  destruct (decide (k = nm)) as [->|Hne].
  - rewrite setdefault_lookup. destruct (r !! nm) as [x|]; simpl; intros [= <-];
      [by left | by right].
  - rewrite setdefault_lookup_ne by done. by left.
Qed.

Lemma registry_sound_connect_one w self target for_state direction :
  registry_sound w → registry_sound (connect_one w self target for_state direction).
Proof.
  intros Hs nm i. rewrite _nodes_connect_one, name_of_connect_one. intros H.
  apply register_name_lookup in H as [H|[-> H]]; [|done].
  apply register_name_lookup in H as [H|[-> H]]; [by apply Hs | done].
Qed.

Lemma registry_sound_connect targets : ∀ w self for_state direction,
  registry_sound w → registry_sound (connect w self targets for_state direction).
Proof.
  induction targets as [|t targets IH]; intros w self for_state direction Hs; [done|].
  rewrite connect_cons. by apply IH, registry_sound_connect_one.
Qed.

Lemma rates_only_name_of w w' i : rates_only w w' → name_of w' i = name_of w i.
Proof.
  intros (HF & _). unfold name_of.
  destruct (heap w' !! i) as [s'|] eqn:Hs'.
  - destruct (Forall2_lookup_r _ _ _ _ _ HF Hs') as (s & Hs & (Hn & _)).
    rewrite Hs. simpl. by rewrite Hn.
  - destruct (heap w !! i) as [s|] eqn:Hs; [|done].
    destruct (Forall2_lookup_l _ _ _ _ _ HF Hs) as (s' & Hs'' & _). congruence.
Qed.

Lemma registry_sound_rates_only w w' :
  rates_only w w' → registry_sound w → registry_sound w'.
Proof.
  intros Hr Hs nm i. rewrite <- (proj2 (proj2 Hr)), (rates_only_name_of w w') by done.
  apply Hs.
Qed.

Lemma registry_sound_constructed w : constructed w → registry_sound w.
Proof.
  induction 1 as [|w nm vol Hc IH|w self targets fs dir _ IH Hs Hts
                  |w g st _ IH|w self src _ IH|w self crit src _ IH].
  - intros nm i H. simpl in H. by apply lookup_empty_Some in H.
  - intros k i H. simpl in H. unfold name_of. simpl.
    destruct (constructed_invariants w Hc) as [[_ Hreg] _].
    pose proof (Hreg k i H) as Hv. apply lookup_lt_is_Some in Hv as [s Hs].
    rewrite (lookup_app_l_Some _ _ _ _ Hs). specialize (IH k i H).
    unfold name_of in IH. by rewrite Hs in IH.
  - by apply registry_sound_connect.
  - exact IH.
  - eapply registry_sound_rates_only; [apply wro_time_from | done].
  - eapply registry_sound_rates_only; [apply wro_check_flow_stability_from | done].
Qed.

(** X20.  The registry names its nodes: in every reachable world a name is
    registered only to a node that bears it, so no node is registered under
    two names and a registered node is always a constructed one. *)
Theorem registry_names_its_nodes w nm i :
  constructed w → _nodes w !! nm = Some i →
  Segment_name w i = Return nm ∧
  (∀ nm', _nodes w !! nm' = Some i → nm' = nm).
Proof.
  intros Hc H. pose proof (registry_sound_constructed w Hc) as Hs.
  pose proof (Hs nm i H) as Hnm. split.
  - unfold name_of in Hnm. unfold Segment_name, deref.
    destruct (heap w !! i) as [s|]; [|done]. simpl in *. by injection Hnm as ->.
  - intros nm' H'. specialize (Hs nm' i H'). congruence.
Qed.

Lemma registry_names_its_nodes_witness :
  (constructed feedback ∧ _nodes feedback !! "B" = Some 2) ∧
  Segment_name feedback 2 = Return "B" ∧
  (∀ nm', _nodes feedback !! nm' = Some 2 → nm' = "B").
Proof.
  assert (H : _nodes feedback !! "B" = Some 2) by (vm_compute; reflexivity).
  split; [exact (conj constructed_feedback H)|].
  exact (registry_names_its_nodes feedback "B" 2 constructed_feedback H).
Defined.

(** ** What the propagation leaves alone *)

Lemma flow_rate_heap w w' i :
  heap w' !! i = heap w !! i → flow_rate w' i = flow_rate w i.
Proof. intros H. unfold flow_rate, deref. by rewrite H. Qed.

Lemma update_record_frame rec w i :
  i ≠ rec.2.1 → heap (update_record rec w).2 !! i = heap w !! i.
Proof.
  intros Hne. unfold update_record, and_then, query, update, unit_action. simpl.
  destruct (flow_rate w rec.2.1) as [old_value| |]; [|done..].
  destruct (inflow w rec.2.1) as [new_value| |]; [|done..].
  destruct (Qeq_bool old_value new_value); simpl; [done|].
  by apply list_lookup_alter_ne.
Qed.

Lemma update_record_segment rec w rec' w' :
  update_record rec w = (Return rec', w') → rec'.2.1 = rec.2.1.
Proof.
  unfold update_record, and_then, query, update, unit_action. simpl.
  destruct (flow_rate w rec.2.1) as [old_value| |]; [|done..].
  destruct (inflow w rec.2.1) as [new_value| |]; [|done..].
  destruct (Qeq_bool old_value new_value); simpl; by intros [= <- _].
Qed.

Lemma one_pass_segments recs : ∀ w recs' w',
  one_pass recs w = (Return recs', w') → segments recs' = segments recs.
Proof.
  induction recs as [|rec recs IH]; intros w recs' w'.
  - by intros [= <- _].
  - rewrite one_pass_cons.
    destruct (update_record rec w) as [[rec1| |] w1] eqn:E1; [|done..].
    destruct (one_pass recs w1) as [[rest| |] w2] eqn:E2; [|done..].
    intros [= <- _]. simpl.
    by rewrite (update_record_segment _ _ _ _ E1), (IH _ _ _ E2).
Qed.

Lemma one_pass_frame recs : ∀ w i,
  i ∉ segments recs → heap (one_pass recs w).2 !! i = heap w !! i.
Proof.
  induction recs as [|rec recs IH]; intros w i Hi; [done|].
  simpl in Hi. apply not_elem_of_cons in Hi as [Hne Hi].
  pose proof (update_record_frame rec w i Hne) as H1.
  rewrite one_pass_cons.
  destruct (update_record rec w) as [[rec1| |] w1]; simpl in H1; [|done..].
  specialize (IH w1 i Hi).
  destruct (one_pass recs w1) as [[rest| |] w2]; simpl in *; congruence.
Qed.

Lemma converge_frame fuel : ∀ _iterations recs w i,
  i ∉ segments recs → heap (converge fuel _iterations recs w).2 !! i = heap w !! i.
Proof.
  induction fuel as [|fuel IH]; intros it recs w i Hi; [done|].
  rewrite converge_S. pose proof (one_pass_frame recs w i Hi) as H1.
  destruct (one_pass recs w) as [[recs'| |] w1] eqn:E; simpl in H1; [|done..].
  destruct (1000 <? S it); [done|].
  destruct (any_updated recs'); [|done].
  rewrite IH; [done|]. by rewrite (one_pass_segments _ _ _ _ E).
Qed.

Lemma seed_sources_cons kv src w :
  seed_sources (kv :: src) w =
    seed_sources src (match _nodes w !! kv.1 with
                      | None => w
                      | Some source => assign_flow_rate source kv.2 w
                      end).
Proof. done. Qed.

Lemma seed_sources_registry src w : _nodes (seed_sources src w) = _nodes w.
Proof. symmetry. apply (rates_only_seed src w). Qed.

Lemma seed_sources_other src : ∀ w i,
  (∀ kv, kv ∈ src → _nodes w !! kv.1 ≠ Some i) →
  heap (seed_sources src w) !! i = heap w !! i.
Proof.
  induction src as [|kv src IH]; intros w i H; [done|].
  rewrite seed_sources_cons.
  destruct (_nodes w !! kv.1) as [source|] eqn:Hreg.
  - rewrite IH.
    + simpl. apply list_lookup_alter_ne. intros ->. by apply (H kv); [left|].
    + intros kv' Hkv'. simpl. apply H. by right.
  - apply IH. intros kv' Hkv'. apply H. by right.
Qed.

Lemma seed_sources_rate src : ∀ w nm q i,
  NoDup src.*1 → (nm, q) ∈ src → _nodes w !! nm = Some i →
  (∀ nm', _nodes w !! nm' = Some i → nm' = nm) → valid w i →
  flow_rate (seed_sources src w) i = Return q.
Proof.
  induction src as [|[k v] src IH]; intros w nm q i Hnd Hin Hreg Hinj Hv.
  - by apply elem_of_nil in Hin.
  - simpl in Hnd. apply NoDup_cons in Hnd as [Hk Hnd]. rewrite seed_sources_cons. simpl.
    apply elem_of_cons in Hin as [[= <- <-]|Hin].
    + rewrite Hreg. erewrite flow_rate_heap.
      2:{ apply seed_sources_other. intros kv Hkv. simpl. intros Hkv'.
          apply Hinj in Hkv'. apply Hk. rewrite <- Hkv'.
          apply list_elem_of_fmap. by exists kv. }
      apply lookup_lt_is_Some in Hv as [s Hs]. unfold flow_rate, deref. simpl.
      by rewrite list_lookup_alter_eq, Hs.
    + assert (Hne : k ≠ nm).
      { intros ->. apply Hk. apply list_elem_of_fmap. by exists (nm, q). }
      destruct (_nodes w !! k) as [source|] eqn:Hsrc.
      * apply (IH _ nm); [done | done | done | done |].
        unfold valid, assign_flow_rate. simpl. by rewrite length_alter.
      * by apply (IH _ nm).
Qed.

Lemma eligible_rates_only w w' target_name sources seg :
  rates_only w w' → eligible w' target_name sources seg → eligible w target_name sources seg.
Proof.
  intros Hr (nm & Hnm & H). exists nm. by rewrite <- (rates_only_name_of w w').
Qed.

Lemma converge_world {A} fuel _iterations recs w (r : A) :
  (match converge fuel _iterations recs w with
   | (Return _, w3) => (Return r, w3)
   | (Raise e, w3) => (Raise e, w3)
   | (Stuck, w3) => (Stuck, w3)
   end).2 = (converge fuel _iterations recs w).2.
Proof. by destruct (converge fuel _iterations recs w) as [[?| |] ?]. Qed.

(** The nodes the propagation loop may write bear neither the target's
    name nor a source's. *)
Lemma _build_flow_rates_between_frame self target_name src w i nm :
  wf w → is_Some (_nodes w !! target_name) →
  name_of w i = Some nm → nm = target_name ∨ nm ∈ src.*1 →
  heap (_build_flow_rates_between self target_name src w).2 !! i =
  heap (seed_sources src (reset_flow_rates w)) !! i.
Proof.
  intros Hwf Hreg Hnm Hex. rewrite _build_flow_rates_between_registered by done.
  set (w2 := seed_sources src (reset_flow_rates w)).
  assert (Hr2 : rates_only w w2).
  { eapply rates_only_trans; [apply rates_only_reset | apply rates_only_seed]. }
  assert (Hwf2 : wf w2) by (by eapply rates_only_wf).
  assert (Hinit : sound_paths w2 target_name src.*1 (mkPaths [] ∅ [])).
  { split_and!; simpl; [constructor | set_solver | constructor]. }
  destruct (find_paths_spec w2 target_name src.*1 src.*1 _ Hwf2 Hinit)
    as [(found & Hf & (He & _) & _)|[Hf _]]; rewrite Hf; [|done].
  rewrite converge_world. apply converge_frame. intros Hi.
  rewrite Forall_forall in He. destruct (He i Hi) as (k & Hk & Hkt & Hks).
  rewrite (rates_only_name_of w w2) in Hk by done.
  rewrite Hnm in Hk. injection Hk as <-. by destruct Hex.
Qed.

(** X21.  The supplied rates are boundary conditions of the propagation:
    whatever way [_build_flow_rates_between] ends for a registered target
    (it returns, or raises RuntimeError or TimeoutError), the world it
    leaves has every registered source at the rate supplied for it, and the
    target, when it is not itself a source, at rate 0: the loop never
    computes the flow rate of the node that was asked about. *)
Theorem propagation_keeps_the_supplied_rates self target_name src w :
  constructed w → NoDup src.*1 → is_Some (_nodes w !! target_name) →
  (∀ source_name q source,
     (source_name, q) ∈ src → _nodes w !! source_name = Some source →
     flow_rate (_build_flow_rates_between self target_name src w).2 source = Return q) ∧
  (∀ target, _nodes w !! target_name = Some target → target_name ∉ src.*1 →
     flow_rate (_build_flow_rates_between self target_name src w).2 target =
       Return 0%Q).
Proof.
  intros Hc Hnd Hreg.
  destruct (constructed_invariants w Hc) as [Hwf _].
  pose proof (registry_sound_constructed w Hc) as Hsound.
  pose proof (rates_only_reset w) as Hr1.
  split.
  - intros nm q i Hin Hi.
    rewrite (flow_rate_heap (seed_sources src (reset_flow_rates w))).
    + apply (seed_sources_rate src _ nm); [done | done | | |].
      * by rewrite reset_flow_rates_registry.
      * intros nm'. rewrite reset_flow_rates_registry. intros Hi'.
        pose proof (Hsound _ _ Hi) as H1. pose proof (Hsound _ _ Hi') as H2. congruence.
      * eapply rates_only_valid; [done|]. by apply (proj2 Hwf nm).
    + apply (_build_flow_rates_between_frame _ _ _ _ _ nm); [done | done | by apply Hsound |].
      right. apply list_elem_of_fmap. by exists (nm, q).
  - intros t Ht Hns.
    rewrite (flow_rate_heap (seed_sources src (reset_flow_rates w))).
    + rewrite (flow_rate_heap (reset_flow_rates w)).
      * assert (Hv : valid (reset_flow_rates w) t).
        { eapply rates_only_valid; [done|]. by apply (proj2 Hwf target_name). }
        apply lookup_lt_is_Some in Hv as [s Hs]. unfold flow_rate, deref. rewrite Hs. simpl.
        f_equal. apply (reset_flow_rates_resets w target_name t s); [|done].
        by rewrite reset_flow_rates_registry.
      * apply seed_sources_other. intros kv Hkv. rewrite reset_flow_rates_registry.
        intros Hkv'. pose proof (Hsound _ _ Ht) as H1. pose proof (Hsound _ _ Hkv') as H2.
        apply Hns. apply list_elem_of_fmap. exists kv. split; [congruence | done].
    + apply (_build_flow_rates_between_frame _ _ _ _ _ target_name);
        [done | done | by apply Hsound | by left].
Qed.

Lemma propagation_keeps_the_supplied_rates_witness :
  (constructed feedback ∧ NoDup [("S", 5%Q)].*1 ∧ is_Some (_nodes feedback !! "T")) ∧
  (∀ source_name q source,
     (source_name, q) ∈ [("S", 5%Q)] → _nodes feedback !! source_name = Some source →
     flow_rate (_build_flow_rates_between 3 "T" [("S", 5%Q)] feedback).2 source =
       Return q) ∧
  (∀ target, _nodes feedback !! "T" = Some target → "T" ∉ [("S", 5%Q)].*1 →
     flow_rate (_build_flow_rates_between 3 "T" [("S", 5%Q)] feedback).2 target =
       Return 0%Q).
Proof.
  assert (Hnd : NoDup [("S", 5%Q)].*1) by (apply NoDup_singleton).
  assert (Hreg : is_Some (_nodes feedback !! "T")) by (vm_compute; eauto).
  split; [exact (conj constructed_feedback (conj Hnd Hreg))|].
  exact (propagation_keeps_the_supplied_rates 3 "T" [("S", 5%Q)] feedback
           constructed_feedback Hnd Hreg).
Defined.

(** ** [duration_to] *)

Lemma duration_to_by_cases w self target_name direction traversals :
  traverse w (Some (named w target_name)) direction false self = Return traversals →
  match traversals with
  | [] => duration_to w self target_name direction = Return None
  | [_] => ∃ d, duration_to w self target_name direction = Return (Some d)
  | _ :: _ :: _ => duration_to w self target_name direction = Raise RuntimeError
  end.
Proof.
  intros H. unfold duration_to. rewrite H.
  destruct traversals as [|[final path] [|second rest]]; [done| |done].
  change (∃ d, along_unique_path (duration w) [(final, path)] = Return (Some d)).
  apply along_unique_path_single. intros x Hx. apply duration_valid.
  apply (traverse_constructed _ _ _ _ _ _ final path H); [left | done].
Qed.

(** X22.  [duration_to] ends the way [volume_to] does, whatever the flow
    rates are: it returns None, raises RuntimeError or returns a number
    exactly when [volume_to] does for the same start, target and
    direction. *)
Theorem duration_to_ends_as_volume_to w self target_name direction :
  (duration_to w self target_name direction = Return None ↔
     volume_to w self target_name direction = Return None) ∧
  (duration_to w self target_name direction = Raise RuntimeError ↔
     volume_to w self target_name direction = Raise RuntimeError) ∧
  ((∃ d, duration_to w self target_name direction = Return (Some d)) ↔
     (∃ v, volume_to w self target_name direction = Return (Some v))).
Proof.
  destruct (traverse w (Some (named w target_name)) direction false self)
    as [traversals| |] eqn:H.
  - pose proof (duration_to_by_cases _ _ _ _ _ H) as Hd.
    pose proof (volume_to_by_cases _ _ _ _ _ H) as Hv.
    destruct traversals as [|first [|second rest]].
    + rewrite Hd, Hv. split_and!; [done | done |].
      split; intros [? [=]].
    + destruct Hd as [d ->], Hv as [v ->].
      split_and!; [done | done | split; eauto].
    + rewrite Hd, Hv. split_and!; [done | done |].
      split; intros [? [=]].
  - unfold duration_to, volume_to. rewrite H. simpl.
    destruct e; (split_and!; [done | done | split; intros [? [=]]]).
  - unfold duration_to, volume_to. rewrite H. simpl.
    split_and!; [done | done | split; intros [? [=]]].
Qed.

Lemma duration_no_flow w x v : no_flow w → duration w x = Return v → v = 0%Q.
Proof.
  intros Hn. unfold duration, deref.
  destruct (heap w !! x) as [s|] eqn:Hs; [|done]. simpl.
  unfold no_flow in Hn. rewrite Forall_lookup in Hn. rewrite (Hn x s Hs).
  by intros [= <-].
Qed.

Lemma accumulate_no_flow w l : ∀ acc total,
  no_flow w → accumulate (duration w) acc l = Return total → (total == acc)%Q.
Proof.
  induction l as [|x l IH]; intros acc total Hn; simpl.
  - intros [= <-]. reflexivity.
  - intros H. apply bind_Return in H as (v & Hv & H).
    apply (duration_no_flow w x v Hn) in Hv as ->.
    rewrite (IH _ _ Hn H). ring.
Qed.

(** X23.  [duration_to] needs flow rates: in a world where no flow rate
    reaches [1e-5] (none was set, or a query has reset them) every duration
    it returns is 0. *)
Theorem duration_to_without_flow_rates w self target_name direction d :
  no_flow w → duration_to w self target_name direction = Return (Some d) → (d == 0)%Q.
Proof.
  intros Hn H. unfold duration_to in H.
  apply bind_Return in H as (traversals & _ & H).
  destruct traversals as [|[final path] [|second rest]]; [done| |done].
  simpl in H. apply bind_Return in H as (total & Ht & H).
  apply bind_Return in H as (last & Hl & [= <-]).
  apply (accumulate_no_flow w path _ _ Hn) in Ht.
  apply (duration_no_flow w final last Hn) in Hl as ->.
  rewrite Ht. ring.
Qed.

Lemma duration_to_without_flow_rates_witness :
  (no_flow chain ∧ duration_to chain 0 "C" DOWN = Return (Some (0 + 0 + 0 + 0 - 0)%Q)) ∧
  (0 + 0 + 0 + 0 - 0 == 0)%Q.
Proof.
  assert (Hn : no_flow chain) by (unfold no_flow; vm_compute; repeat constructor).
  assert (H : duration_to chain 0 "C" DOWN = Return (Some (0 + 0 + 0 + 0 - 0)%Q))
    by (vm_compute; reflexivity).
  split; [exact (conj Hn H)|].
  exact (duration_to_without_flow_rates chain 0 "C" DOWN _ Hn H).
Defined.

(** ** A node asked about itself *)

Lemma named_name_of w nm m : named w nm m = true ↔ name_of w m = Some nm.
Proof.
  unfold named, name_of. destruct (heap w !! m) as [s|]; simpl.
  - rewrite bool_decide_eq_true. split; [by intros -> | by intros [= ->]].
  - split; discriminate.
Qed.

Lemma simple_path_self w direction ignore_state X :
  simple_path w direction ignore_state X X [X].
Proof. split_and!; [done | done | apply NoDup_singleton | apply linked_singleton]. Qed.

Lemma simple_path_back w direction ignore_state X q :
  simple_path w direction ignore_state X X q → q = [X].
Proof.
  intros (Hh & Hl & Hnd & _). destruct q as [|x q]; [done|].
  simpl in Hh. injection Hh as ->. destruct q as [|y q]; [done|]. exfalso.
  apply NoDup_cons in Hnd as [Hnotin _]. apply Hnotin.
  rewrite last_cons_cons in Hl. by apply last_Some_elem_of.
Qed.

(** C9 (as amended).  In a well-formed world a traversal from [X] for
    [X]'s own name always reports [X] with path [[X]].
    [X.volume_to(X.name)] returns [0.0 + X.volume - X.volume], which is 0,
    exactly when no other node that bears [X]'s name can be reached from
    [X] along a simple path of the search, in the given direction and under
    the current states; it raises [RuntimeError] exactly when one can.  When
    the names of the segments are distinct no such node exists, so the
    result is 0 whatever the states, also when [X] lies on a cycle. *)
Theorem volume_to_self w X s direction :
  wf w → heap w !! X = Some s →
  (∃ rs, traverse w (Some (named w (name (data s)))) direction false X = Return rs ∧
         (X, [X]) ∈ rs) ∧
  (volume_to w X (name (data s)) direction =
     Return (Some (0 + volume (data s) - volume (data s))%Q) ↔
   ¬ namesake_reachable w direction X) ∧
  (volume_to w X (name (data s)) direction = Raise RuntimeError ↔
   namesake_reachable w direction X) ∧
  (¬ namesake_reachable w direction X →
   traverse w (Some (named w (name (data s)))) direction false X = Return [(X, [X])]) ∧
  (names_unique w → ¬ namesake_reachable w direction X) ∧
  (0 + volume (data s) - volume (data s) == 0)%Q.
Proof.
  intros Hwf Hs.
  assert (Hv : valid w X) by (apply lookup_lt_is_Some_1; by eexists).
  assert (HnX : name_of w X = Some (name (data s))) by (unfold name_of; by rewrite Hs).
  destruct (traverse_total w (Some (named w (name (data s)))) direction false X Hwf Hv)
    as [rs Ht].
  pose proof (volume_to_by_cases _ _ _ _ _ Ht) as Hc.
  pose proof Ht as H. unfold traverse in H.
  destruct (_traverse_exact w _ direction false _ _ _ _ _ H (not_elem_of_empty X))
    as [Hnd Hiff].
  assert (Hin : ∀ m q, (m, q) ∈ rs ↔
            name_of w m = Some (name (data s)) ∧ simple_path w direction false X m q).
  { intros m q. rewrite Hiff, <- named_name_of. unfold found. simpl. split.
    - by intros (Hm & q' & -> & Hp & _).
    - intros (Hm & Hp). split; [done|]. exists q. split; [done|]. split; [done|].
      intros x _. apply not_elem_of_empty. }
  assert (Hself : (X, [X]) ∈ rs).
  { apply Hin. split; [done | apply simple_path_self]. }
  assert (Hreach : namesake_reachable w direction X ↔
                   ∃ m q, (m, q) ∈ rs ∧ (m, q) ≠ (X, [X])).
  { split.
    - intros (m & q & nm & Hne & Hn1 & Hn2 & Hp). exists m, q. split.
      + apply Hin. split; [congruence | done].
      + intros [= -> _]. done.
    - intros (m & q & Hmq & Hne). apply Hin in Hmq as [Hm Hp].
      exists m, q, (name (data s)). split_and!; [|done..].
      intros ->. apply Hne. f_equal. by eapply simple_path_back. }
  assert (Huniq : names_unique w → ¬ namesake_reachable w direction X).
  { intros Hu (m & q & nm & Hne & Hn1 & Hn2 & _). apply Hne.
    unfold name_of in Hn1, Hn2. rewrite Hs in Hn1. simpl in Hn1. injection Hn1 as <-.
    destruct (heap w !! m) as [sm|] eqn:Hsm; [|done]. simpl in Hn2. injection Hn2 as Hn2.
    by apply (names_unique_inj w m X sm s). }
  assert (Hzero : (0 + volume (data s) - volume (data s) == 0)%Q) by ring.
  destruct rs as [|p1 [|p2 rest]].
  - by apply elem_of_nil in Hself.
  - apply list_elem_of_singleton in Hself as <-.
    assert (Hvol : volume_to w X (name (data s)) direction =
                   Return (Some (0 + volume (data s) - volume (data s))%Q)).
    { unfold volume_to. rewrite Ht. simpl. unfold Segment_volume, deref.
      rewrite Hs. simpl. done. }
    assert (Hnr : ¬ namesake_reachable w direction X).
    { rewrite Hreach. intros (m & q & Hmq & Hne).
      by apply list_elem_of_singleton in Hmq. }
    split_and!; [eexists; split; [done | left] | done | | done | done | done].
    rewrite Hvol. split; [discriminate | done].
  - assert (Hr : namesake_reachable w direction X).
    { apply Hreach. apply NoDup_cons in Hnd as [Hnotin _].
      destruct (decide (p1 = (X, [X]))) as [->|Hne1].
      - destruct p2 as [m q]. exists m, q. split; [right; left|].
        intros Heq. apply Hnotin. rewrite Heq. left.
      - destruct p1 as [m q]. exists m, q. split; [left | done]. }
    rewrite Hc.
    split_and!; [eexists; split; [done | done] | | done | done | done | done].
    split; [discriminate | done].
Qed.

Lemma volume_to_self_witness :
  (wf ring ∧ heap ring !! 0 = Some (mkSegment (mkVolume "X" 5 0)
      ∅ (<[CONSISTENT := mkEdgeSet {[1]} {[1]}]> ∅))) ∧
  names_unique ring ∧
  (volume_to ring 0 "X" DOWN = Return (Some (0 + 5 - 5)%Q) ↔
   ¬ namesake_reachable ring DOWN 0) ∧
  (volume_to ring 0 "X" DOWN = Raise RuntimeError ↔ namesake_reachable ring DOWN 0) ∧
  (names_unique ring → ¬ namesake_reachable ring DOWN 0) ∧
  volume_to ring 0 "X" DOWN = Return (Some (0 + 5 - 5)%Q) ∧
  (0 + 5 - 5 == 0)%Q.
Proof.
  assert (Hwf : wf ring) by decide_by_computation.
  assert (Hn : names_unique ring) by decide_by_computation.
  assert (Hs : heap ring !! 0 = Some (mkSegment (mkVolume "X" 5 0)
      ∅ (<[CONSISTENT := mkEdgeSet {[1]} {[1]}]> ∅))) by (vm_compute; reflexivity).
  split; [done|]. split; [exact Hn|].
  destruct (volume_to_self ring 0 _ DOWN Hwf Hs) as (_ & H2 & H3 & _ & H5 & H6).
  split; [exact H2|]. split; [exact H3|]. split; [exact H5|].
  split; [exact (proj2 H2 (H5 Hn)) | exact H6].
Defined.

(** C9 as stated fails: segment names need not be distinct.  With
    A = Segment("A", 10), A' = Segment("A", 30) and A.connect(A'), the
    traversal from A for the name "A" reports A and A', and
    [A.volume_to("A")] raises [RuntimeError]. *)
Lemma volume_to_self_with_a_namesake :
  wf twins ∧ Segment_name twins 0 = Return "A" ∧
  traverse twins (Some (named twins "A")) DOWN false 0 =
    Return [(0, [0]); (1, [0; 1])] ∧
  volume_to twins 0 "A" DOWN = Raise RuntimeError.
Proof.
  split; [decide_by_computation|]. split_and!; vm_compute; reflexivity.
Qed.
